(** * A shallow embedding of the reuse-distance GPU cache model

    The development follows the C++ sources of the model:
    - [tree.h]            the partial sum-hierarchy tree ([Node], module [Tree]);
    - [associativity.cpp] the address-to-set mapping ([line_addr_to_set]);
    - [model.h]           [Access], [Settings], [Request] and the classes
                          [Thread], [Pool] and [Requests];
    - [scheduler.cpp]     [schedule_threads] (hierarchy and coalescing);
    - [reusedistance.cpp] [process_requests] and [reuse_distance];
    - [io.cpp]            the miss classification of [output_miss_rate].

    Conventions.  A C++ [unsigned] is a [Z] in [0, 2^32) and every
    arithmetic result is wrapped with [u32]; an [unsigned long] address is
    a [Z] as it is.  A [std::vector] is a [list]; indexing out of range, a
    division by zero and a failing [assert] (the Makefile does not define
    NDEBUG) make a function return [None].  [std::map], [std::unordered_map]
    and [std::set] are stdpp's [gmap] and [gset]; where iteration order
    matters ([Pool::in_flight]) a key-sorted association list is used. *)

From Stdlib Require Import ZArith Lia List Bool.
From stdpp Require Import base option list gmap fin_maps fin_sets numbers.

Local Open Scope Z_scope.

(** ** Machine integers *)

Definition u32 (x : Z) : Z := x mod 2 ^ 32.

(** Reinterpretation of an [unsigned] as an [int] (two's complement). *)
Definition to_int (x : Z) : Z :=
  let y := u32 x in if y <? 2 ^ 31 then y else y - 2 ^ 32.

(** [#define INF 99999999] and [#define STACK_EXTRA_SIZE 256]. *)
Definition INF : Z := 99999999.
Definition STACK_EXTRA_SIZE : Z := 256.

(** ** Single-precision floats

    The sources compute ceilings and floors through [(float)] casts.  A
    non-negative float is kept as an exact fraction [num / den] whose
    denominator is a power of two.  [fl_round p q] is the binary32 value
    nearest to [p / q] (24 significant bits, ties to even), which is what
    an integer-to-float conversion and a float division produce on the
    x86-64 target of the Makefile. *)

Definition float : Type := Z * Z.

(** Nearest integer to [a / b], ties to even. *)
Definition rne (a b : Z) : Z :=
  let q := a / b in
  let r := a mod b in
  if 2 * r <? b then q
  else if b <? 2 * r then q + 1
  else if Z.even q then q else q + 1.

(** [floor (log2 (p / q))] for positive [p] and [q]. *)
Definition flog2 (p q : Z) : Z :=
  if q <=? p then Z.log2 (p / q) else - Z.log2_up ((q + p - 1) / p).

Definition fl_round (p q : Z) : float :=
  if p =? 0 then (0, 1)
  else
    let e := flog2 p q - 23 in
    if 0 <=? e then (rne p (q * 2 ^ e) * 2 ^ e, 1)
    else (rne (p * 2 ^ (- e)) q, 2 ^ (- e)).

Definition float_of_Z (n : Z) : float := fl_round n 1.
Definition fl_div (x y : float) : float := fl_round (x.1 * y.2) (x.2 * y.1).
Definition fl_trunc (x : float) : Z := x.1 / x.2.
Definition fl_ceil (x : float) : Z := (x.1 + x.2 - 1) / x.2.

(** [ceil(a/(float)(b))] as the scheduler and the engine write it: both
    operands become floats, the quotient is rounded, and its
    ceiling is taken.  A zero divisor gives an infinite (or undefined)
    quotient: [None]. *)
Definition ceil_fdiv (a b : Z) : option Z :=
  if b =? 0 then None
  else Some (fl_ceil (fl_div (float_of_Z a) (float_of_Z b))).

(** ** The partial sum-hierarchy tree (tree.h) *)

(** [#define CEIL_DIV(a,b) (float)(a+b-1)/(float)b] and
    [#define FLOOR_DIV(a,b) (float)a/(float)b], assigned to an [unsigned]
    (the conversion truncates). *)
Definition CEIL_DIV (a b : Z) : Z :=
  fl_trunc (fl_div (float_of_Z (u32 (a + b - 1))) (float_of_Z b)).
Definition FLOOR_DIV (a b : Z) : Z :=
  fl_trunc (fl_div (float_of_Z a) (float_of_Z b)).

(** [class Node]: [left] and [right] are either both null (a leaf) or both
    set, so a node is a leaf or an inner node with its two children. *)
Inductive Node : Type :=
| Leaf (range_b value : Z)
| Inner (range_b value : Z) (left right : Node).

Definition range_b (n : Node) : Z :=
  match n with Leaf b _ => b | Inner b _ _ _ => b end.

Definition value (n : Node) : Z :=
  match n with Leaf _ v => v | Inner _ v _ _ => v end.

Module Tree.

(** [Tree::fill_tree].  The recursion of the source is on [size]; here it
    is bounded by [fuel] levels ([None] when they run out).  The unused
    [level] argument of the source is dropped. *)
Fixpoint fill_tree (fuel : nat) (start size : Z) : option Node :=
  match fuel with
  | O => None
  | S fuel' =>
      if 1 <? size then
        let val_left := CEIL_DIV size 2 in
        let val_right := FLOOR_DIV size 2 in
        l ← fill_tree fuel' start val_left;
        r ← fill_tree fuel' (u32 (start + val_left)) val_right;
        Some (Inner (u32 (start + size - 1)) 0 l r)
      else Some (Leaf (u32 (start + size - 1)) 0)
  end.

(** More levels than a tree over 32-bit sizes can have. *)
Definition max_levels : nat := 64%nat.

(** The constructor [Tree(unsigned _size)]. *)
Definition Tree (_size : Z) : option Node := fill_tree max_levels 0 _size.

(** [Tree::count]: the loop runs while the node has children and a
    non-zero value. *)
Fixpoint count_from (node : Node) (target result : Z) : Z :=
  match node with
  | Leaf _ _ => result
  | Inner _ v l r =>
      if v =? 0 then result
      else if range_b l <? target then count_from r target result
      else count_from l target (u32 (result + value r))
  end.

Definition count (root : Node) (target : Z) : Z := count_from root target 0.

(** [Tree::set]. *)
Fixpoint set (target : Z) (node : Node) : Node :=
  match node with
  | Leaf b _ => Leaf b 1
  | Inner b v l r =>
      if range_b l <? target then Inner b (u32 (v + 1)) l (set target r)
      else Inner b (u32 (v + 1)) (set target l) r
  end.

(** [Tree::unset]. *)
Fixpoint unset (target : Z) (node : Node) : Node :=
  match node with
  | Leaf b _ => Leaf b 0
  | Inner b v l r =>
      if range_b l <? target then Inner b (u32 (v - 1)) l (unset target r)
      else Inner b (u32 (v - 1)) (unset target l) r
  end.

(** The leaf that the descent of [set] and [unset] reaches for [target],
    that is, the value held at index [target]. *)
Fixpoint leaf_value (target : Z) (node : Node) : Z :=
  match node with
  | Leaf _ v => v
  | Inner _ _ l r =>
      if range_b l <? target then leaf_value target r
      else leaf_value target l
  end.

End Tree.

(** ** Vectors *)

(** [v[i]] and [v[i] = x] on a [std::vector]; out of range is undefined
    behaviour in the source and [None] here. *)
Definition vget {A} (v : list A) (i : Z) : option A :=
  if i <? 0 then None else v !! Z.to_nat i.

Definition vset {A} (v : list A) (i : Z) (x : A) : option (list A) :=
  match vget v i with
  | Some _ => Some (<[Z.to_nat i := x]> v)
  | None => None
  end.

Definition vsize {A} (v : list A) : Z := Z.of_nat (length v).

(** [m[k]] on a map of [unsigned] values: a missing key is created with
    value 0. *)
Definition mget (m : gmap Z Z) (k : Z) : Z := default 0 (m !! k).
Definition mtouch (m : gmap Z Z) (k : Z) : gmap Z Z :=
  match m !! k with Some _ => m | None => <[k := 0]> m end.

(** ** Address to set mapping (associativity.cpp) *)

(** [#define MAPPING_TYPE 2]: Fermi's hashing function is the default. *)
Definition MAPPING_TYPE : Z := 2.

(** The loop that fills [std::vector<unsigned> bits(32)]. *)
Fixpoint bits_loop (n : nat) (addr_copy : Z) : list Z :=
  match n with
  | O => []
  | S n' =>
      if addr_copy =? 0 then 0 :: bits_loop n' addr_copy
      else (addr_copy mod 2) :: bits_loop n' (addr_copy / 2)
  end.

Definition bit (bits : list Z) (i : nat) : Z := default 0 (bits !! i).

Definition line_addr_to_set_with (mapping_type line_addr addr num_sets cache_bytes : Z)
  : option Z :=
  let bits := bits_loop 32 line_addr in
  let set :=
    if mapping_type =? 0 then u32 (line_addr mod num_sets)
    else if mapping_type =? 1 then
      u32 (Z.lxor (line_addr mod num_sets) ((line_addr / num_sets) mod num_sets))
    else if mapping_type =? 2 then
      let b01234 := u32 (bit bits 0 + bit bits 1 * 2 + bit bits 2 * 4
                         + bit bits 3 * 8 + bit bits 4 * 16) in
      let b678AC := u32 (bit bits 6 + bit bits 7 * 2 + bit bits 8 * 4
                         + bit bits 10 * 8 + bit bits 12 * 16) in
      u32 (Z.lxor b01234 b678AC + bit bits 5 * 32)
    else 0 in
  if num_sets =? 0 then None else Some (set mod num_sets).

Definition line_addr_to_set (line_addr addr num_sets cache_bytes : Z) : option Z :=
  line_addr_to_set_with MAPPING_TYPE line_addr addr num_sets cache_bytes.

(** ** Data structures of model.h *)

Record Access : Type := mkAccess {
  direction : Z;      (* 1 for write, 0 for read *)
  address : Z;        (* the byte address of the first byte *)
  width : Z;          (* the SIMD/coalescing width of the access *)
  bytes : Z;          (* the number of bytes accessed *)
  end_address : Z     (* the byte address of the last byte *)
}.

Definition set_width (w : Z) (a : Access) : Access :=
  mkAccess (direction a) (address a) w (bytes a) (end_address a).
Definition set_end_address (e : Z) (a : Access) : Access :=
  mkAccess (direction a) (address a) (width a) (bytes a) e.

Record Settings : Type := mkSettings {
  line_size : Z;
  cache_bytes : Z;
  cache_lines : Z;
  cache_ways : Z;
  cache_sets : Z;
  num_mshr : Z;
  num_cores : Z;
  warp_size : Z;
  max_active_threads : Z;
  max_active_blocks : Z;
  mem_latency : Z;
  mem_latency_stddev : Z
}.

Record Request : Type := mkRequest {
  addr : Z;           (* memory address of the request (unsigned long) *)
  rset : Z            (* set number of the request (field [set]) *)
}.

(** [class Thread]. *)
Module Thread.

Record t : Type := mk {
  warpid : Z;
  blockid : Z;
  pc : Z;
  accesses : list Access
}.

Definition new : t := mk INF INF 0 [].

Definition with_pc (p : Z) (th : t) : t :=
  mk (warpid th) (blockid th) p (accesses th).
Definition with_accesses (l : list Access) (th : t) : t :=
  mk (warpid th) (blockid th) (pc th) l.

Definition append_access (access : Access) (th : t) : t :=
  with_accesses (accesses th ++ [access]) th.

(** [pc++; assert(pc-1 < accesses.size()); return accesses[pc-1];] *)
Definition schedule (th : t) : option (Access * t) :=
  let pc' := u32 (pc th + 1) in
  a ← vget (accesses th) (u32 (pc' - 1));
  Some (a, with_pc pc' th).

(** [assert(pc > 0); pc--;] *)
Definition unschedule (th : t) : option t :=
  if 0 <? pc th then Some (with_pc (pc th - 1) th) else None.

Definition get_bytes (th : t) : option Z :=
  if pc th =? vsize (accesses th) then Some 1
  else bytes <$> vget (accesses th) (pc th).

Definition is_done (th : t) : bool := pc th =? vsize (accesses th).

Definition reset (th : t) : t := with_pc 0 th.

(** [assert(warpid == INF); warpid = _warpid;] *)
Definition set_warp (_warpid : Z) (th : t) : option t :=
  if warpid th =? INF then Some (mk _warpid (blockid th) (pc th) (accesses th))
  else None.

Definition set_block (_blockid : Z) (th : t) : option t :=
  if blockid th =? INF then Some (mk (warpid th) _blockid (pc th) (accesses th))
  else None.

End Thread.

(** [class Pool].  [in_flight] is a [std::map], iterated in key order: an
    association list sorted by warp id. *)
Module Pool.

Record t : Type := mk {
  warps : list Z;
  in_flight : list (Z * Z);
  size : Z;
  done : Z
}.

Definition new : t := mk [] [] 0 0.

(** [in_flight[_warpid] = future_time]. *)
Fixpoint in_flight_assign (k v : Z) (m : list (Z * Z)) : list (Z * Z) :=
  match m with
  | [] => [(k, v)]
  | (k', v') :: m' =>
      if k <? k' then (k, v) :: m
      else if k =? k' then (k, v) :: m'
      else (k', v') :: in_flight_assign k v m'
  end.

Definition add_warp (_warpid future_time : Z) (p : t) : t :=
  if future_time =? 0 then mk (warps p ++ [_warpid]) (in_flight p) (size p) (done p)
  else mk (warps p) (in_flight_assign _warpid future_time (in_flight p)) (size p) (done p).

(** One pass over [in_flight]: released entries are appended to [warps],
    the others are decremented. *)
Fixpoint release (m : list (Z * Z)) : list Z * list (Z * Z) :=
  match m with
  | [] => ([], [])
  | (k, v) :: m' =>
      let '(ready, rest) := release m' in
      if v =? 0 then (k :: ready, rest) else (ready, (k, u32 (v - 1)) :: rest)
  end.

Definition process_warps_in_flight (p : t) : t :=
  let '(ready, rest) := release (in_flight p) in
  mk (warps p ++ ready) rest (size p) (done p).

Definition take_warp (p : t) : option (Z * t) :=
  match warps p with
  | [] => None
  | w :: ws => Some (w, mk ws (in_flight p) (size p) (done p))
  end.

Definition set_size (p : t) : t :=
  mk (warps p) (in_flight p) (vsize (warps p)) (done p).

Definition has_work (p : t) : bool := 0 <? vsize (warps p).

(** [assert(size != 0); return (done == size);] *)
Definition is_done (p : t) : option bool :=
  if size p =? 0 then None else Some (done p =? size p).

Definition incr_done (p : t) : t :=
  mk (warps p) (in_flight p) (size p) (u32 (done p + 1)).

End Pool.

(** [class Requests].  [unique_requests] is a [std::set<unsigned>], so the
    [unsigned long] address is truncated on the way in and out. *)
Module Requests.

Record t : Type := mk {
  request_list : gmap Z (list Request);
  unique_requests : gset Z
}.

Definition new : t := mk ∅ ∅.

Definition add (addr future_time set : Z) (r : t) : t :=
  mk (<[future_time := default [] (request_list r !! future_time)
                         ++ [mkRequest addr set]]> (request_list r))
     ({[u32 addr]} ∪ unique_requests r).

Definition get_num_requests (r : t) : Z :=
  u32 (Z.of_nat (size (unique_requests r))).

(** [request_list[current_time]] creates an empty entry when there is
    none. *)
Definition touch (current_time : Z) (r : t) : t :=
  match request_list r !! current_time with
  | Some _ => r
  | None => mk (<[current_time := []]> (request_list r)) (unique_requests r)
  end.

Definition has_requests (current_time : Z) (r : t) : bool * t :=
  (0 <? vsize (default [] (request_list r !! current_time)), touch current_time r).

Definition get_requests (current_time : Z) (r : t) : list Request * t :=
  let current := default [] (request_list r !! current_time) in
  (current,
   mk (delete current_time (request_list r))
      (foldl (λ u request, u ∖ {[u32 (addr request)]}) (unique_requests r) current)).

End Requests.

(** ** Loops with failure *)

Fixpoint foldM {A B} (f : B → A → option B) (l : list A) (b : B) : option B :=
  match l with
  | [] => Some b
  | x :: l' => b' ← f b x; foldM f l' b'
  end.

(** [v[i].push_back(x)] on a vector of vectors. *)
Definition push_at (v : list (list Z)) (i x : Z) : option (list (list Z)) :=
  w ← vget v i; vset v i (w ++ [x]).

(** [threads[tid].accesses[access] = f (threads[tid].accesses[access])]. *)
Definition upd_access (f : Access → Access) (tid access : Z)
    (threads : list Thread.t) : option (list Thread.t) :=
  th ← vget threads tid;
  a ← vget (Thread.accesses th) access;
  l ← vset (Thread.accesses th) access (f a);
  vset threads tid (Thread.with_accesses l th).

Definition get_access (tid access : Z) (threads : list Thread.t) : option Access :=
  th ← vget threads tid; vget (Thread.accesses th) access.

(** ** The scheduler (scheduler.cpp) *)

Section Scheduler.

Variable hardware : Settings.
Variable blocksize : Z.

(** "Assign threads to warps". *)
Definition assign_warp (num_warps_per_block : Z)
    (st : list Thread.t * list (list Z)) (tid : Z)
  : option (list Thread.t * list (list Z)) :=
  let '(threads, warps) := st in
  if (blocksize =? 0) || (warp_size hardware =? 0) then None
  else
    let wid := u32 ((tid mod blocksize) / warp_size hardware
                    + u32 ((tid / blocksize) * num_warps_per_block)) in
    th ← vget threads tid;
    th' ← Thread.set_warp wid th;
    threads' ← vset threads tid th';
    warps' ← push_at warps wid tid;
    Some (threads', warps').

(** "Assign warps to threadblocks". *)
Definition assign_block (num_warps_per_block : Z)
    (blocks : list (list Z)) (wnum : Z) : option (list (list Z)) :=
  if num_warps_per_block =? 0 then None
  else push_at blocks (wnum / num_warps_per_block) wnum.

(** "Assign threadblocks to cores". *)
Definition assign_core (cores : list (list Z)) (bnum : Z) : option (list (list Z)) :=
  if num_cores hardware =? 0 then None
  else push_at cores (bnum mod num_cores hardware) bnum.

(** The loop over [old_tnum]: [Some (Some threads')] after a match (the
    [break]), [Some None] when no earlier thread of the group holds the
    same line. *)
Fixpoint coalesce_scan (warp : list Z) (access tid this_line : Z)
    (old_tnums : list Z) (threads : list Thread.t)
  : option (option (list Thread.t)) :=
  match old_tnums with
  | [] => Some None
  | old_tnum :: rest =>
      old_tid ← vget warp old_tnum;
      old_a ← get_access old_tid access threads;
      let old_line := address old_a / line_size hardware in
      if this_line =? old_line then
        threads1 ← upd_access (set_width 0) tid access threads;
        this_a ← get_access tid access threads1;
        old_a1 ← get_access old_tid access threads1;
        if negb (address this_a =? address old_a1) then
          threads2 ← upd_access
            (set_end_address (Z.max (end_address old_a1) (end_address this_a)))
            old_tid access threads1;
          threads3 ← upd_access (λ a, set_width (u32 (width a + 1)) a)
            old_tid access threads2;
          Some (Some threads3)
        else Some (Some threads1)
      else coalesce_scan warp access tid this_line rest threads
  end.

(** The body of the loop over [tnum] for one access column. *)
Definition coalesce_thread (warp : list Z) (access : Z)
    (st : list Thread.t * Z) (tnum : Z) : option (list Thread.t * Z) :=
  let '(threads, done) := st in
  tid ← vget warp tnum;
  th ← vget threads tid;
  if access <? vsize (Thread.accesses th) then
    a ← vget (Thread.accesses th) access;
    let schedule_length :=
      if bytes a =? 8 then warp_size hardware / 2
      else if bytes a =? 16 then warp_size hardware / 4
      else warp_size hardware in
    if (line_size hardware =? 0) || (schedule_length =? 0) then None
    else
      let this_line := address a / line_size hardware in
      let first := u32 (schedule_length * (tnum / schedule_length)) in
      r ← coalesce_scan warp access tid this_line (seqZ first (tnum - first)) threads;
      Some (default threads r, done)
  else if access =? vsize (Thread.accesses th) then Some (threads, u32 (done + 1))
  else Some (threads, done).

(** The loop over [access], which runs while [done < warps[wnum].size()];
    [fuel] bounds the number of columns. *)
Fixpoint coalesce_columns (fuel : nat) (warp : list Z) (access done : Z)
    (threads : list Thread.t) : option (list Thread.t) :=
  if done <? vsize warp then
    match fuel with
    | O => None
    | S fuel' =>
        '(threads', done') ← foldM (coalesce_thread warp access)
                               (seqZ 0 (vsize warp)) (threads, done);
        coalesce_columns fuel' warp (u32 (access + 1)) done' threads'
    end
  else Some threads.

(** One more column than the longest access list: by then every thread
    has been counted in [done]. *)
Definition columns (threads : list Thread.t) : nat :=
  S (foldr (λ th n, Nat.max (length (Thread.accesses th)) n) O threads).

Definition coalesce_warp (threads : list Thread.t) (warp : list Z)
  : option (list Thread.t) :=
  coalesce_columns (columns threads) warp 0 0 threads.

Definition schedule_threads (threads : list Thread.t)
    (warps blocks cores : list (list Z))
  : option (list Thread.t * list (list Z) * list (list Z) * list (list Z)) :=
  c ← ceil_fdiv blocksize (warp_size hardware);
  let num_warps_per_block := u32 c in
  '(threads1, warps1) ← foldM (assign_warp num_warps_per_block)
                          (seqZ 0 (vsize threads)) (threads, warps);
  blocks1 ← foldM (assign_block num_warps_per_block) (seqZ 0 (vsize warps1)) blocks;
  cores1 ← foldM assign_core (seqZ 0 (vsize blocks1)) cores;
  threads2 ← foldM coalesce_warp warps1 threads1;
  Some (threads2, warps1, blocks1, cores1).

End Scheduler.

(** ** The reuse-distance engine (reusedistance.cpp) *)

(** The variables that [reuse_distance] mutates.  [draws] counts the
    samples taken from the random distribution so far. *)
Record State : Type := mkState {
  threads : list Thread.t;
  P : gmap Z Z;
  B : list Node;
  set_counters : list Z;
  distances : gmap Z Z;
  timestamp : Z;
  draws : nat;
  pool : Pool.t;
  requests_miss : list Requests.t;
  requests_hit : list Requests.t
}.

Definition with_threads (x : list Thread.t) (s : State) : State :=
  mkState x (P s) (B s) (set_counters s) (distances s) (timestamp s) (draws s)
          (pool s) (requests_miss s) (requests_hit s).
Definition with_P (x : gmap Z Z) (s : State) : State :=
  mkState (threads s) x (B s) (set_counters s) (distances s) (timestamp s) (draws s)
          (pool s) (requests_miss s) (requests_hit s).
Definition with_stack (p : gmap Z Z) (b : list Node) (c : list Z) (s : State) : State :=
  mkState (threads s) p b c (distances s) (timestamp s) (draws s)
          (pool s) (requests_miss s) (requests_hit s).
Definition with_distances (x : gmap Z Z) (s : State) : State :=
  mkState (threads s) (P s) (B s) (set_counters s) x (timestamp s) (draws s)
          (pool s) (requests_miss s) (requests_hit s).
Definition with_timestamp (x : Z) (s : State) : State :=
  mkState (threads s) (P s) (B s) (set_counters s) (distances s) x (draws s)
          (pool s) (requests_miss s) (requests_hit s).
Definition with_draws (x : nat) (s : State) : State :=
  mkState (threads s) (P s) (B s) (set_counters s) (distances s) (timestamp s) x
          (pool s) (requests_miss s) (requests_hit s).
Definition with_pool (x : Pool.t) (s : State) : State :=
  mkState (threads s) (P s) (B s) (set_counters s) (distances s) (timestamp s) (draws s)
          x (requests_miss s) (requests_hit s).
Definition with_requests_miss (x : list Requests.t) (s : State) : State :=
  mkState (threads s) (P s) (B s) (set_counters s) (distances s) (timestamp s) (draws s)
          (pool s) x (requests_hit s).
Definition with_requests_hit (x : list Requests.t) (s : State) : State :=
  mkState (threads s) (P s) (B s) (set_counters s) (distances s) (timestamp s) (draws s)
          (pool s) (requests_miss s) x.

(** [if (!(distances[distance])) distances[distance] = 0; distances[distance]++;] *)
Definition record_distance (distance : Z) (distances : gmap Z Z) : gmap Z Z :=
  <[distance := u32 (mget distances distance + 1)]> distances.

(** The body of the loop of [process_requests] for one request. *)
Definition complete_request (set : Z)
    (st : gmap Z Z * list Node * list Z) (request : Request)
  : option (gmap Z Z * list Node * list Z) :=
  let '(P, B, set_counters) := st in
  B1 ← (if mget P (addr request) =? 0 then Some B
        else tree ← vget B set;
             vset B set (Tree.unset (mget P (addr request)) tree));
  counter ← vget set_counters set;
  tree ← vget B1 set;
  B2 ← vset B1 set (Tree.set counter tree);
  set_counters' ← vset set_counters set (u32 (counter + 1));
  Some (<[addr request := counter]> P, B2, set_counters').

(** [process_requests]. *)
Definition process_requests (requests : Requests.t) (timestamp set : Z)
    (P : gmap Z Z) (B : list Node) (set_counters : list Z)
  : option (Requests.t * (gmap Z Z * list Node * list Z)) :=
  let '(has, requests1) := Requests.has_requests timestamp requests in
  if has then
    let '(current_requests, requests2) := Requests.get_requests timestamp requests1 in
    st ← foldM (complete_request set) current_requests (P, B, set_counters);
    Some (requests2, st)
  else Some (requests1, (P, B, set_counters)).

Section Engine.

Variable core : list Z.
Variables blocks warps : list (list Z).
Variable active_blocks : Z.
Variable hardware : Settings.
Variables cache_sets cache_ways mem_latency non_mem_latency num_mshr : Z.

(** The random source: [noise k] is the value of
    [std::abs(std::round(distribution(gen)))] at the [k]-th draw of a
    run.  [gen] is passed by value, so every run starts at draw 0. *)
Variable noise : nat → Z.

Definition set_of (line_addr addr : Z) : option Z :=
  line_addr_to_set line_addr addr cache_sets
    (u32 (u32 (cache_sets * cache_ways) * line_size hardware)).

Definition line_of (address : Z) : option Z :=
  if line_size hardware =? 0 then None else Some (address / line_size hardware).

Definition incr_at (v : list Z) (i : Z) : option (list Z) :=
  x ← vget v i; vset v i (u32 (x + 1)).

(** Phase 1: the accesses of one thread, from its program counter on. *)
Fixpoint count_thread (fuel : nat) (th : Thread.t) (num_total_accesses : list Z)
  : option (list Z) :=
  if Thread.is_done th then Some num_total_accesses
  else
    match fuel with
    | O => None
    | S fuel' =>
        '(access, th') ← Thread.schedule th;
        if negb (width access =? 0) then
          line_addr ← line_of (address access);
          set ← set_of line_addr (address access);
          n1 ← incr_at num_total_accesses set;
          line_addr2 ← line_of (end_address access);
          n2 ← (if negb (line_addr =? line_addr2) then
                  set2 ← set_of line_addr2 (end_address access);
                  incr_at n1 set2
                else Some n1);
          count_thread fuel' th' n2
        else count_thread fuel' th' num_total_accesses
    end.

Definition count_accesses (threads : list Thread.t) : option (list Z) :=
  foldM (λ n th, count_thread (length (Thread.accesses th)) th n) threads
        (replicate (Z.to_nat cache_sets) 0).

Definition sum_u32 (l : list Z) : Z := foldl (λ acc x, u32 (acc + x)) 0 l.

(** The drain of the ready requests of one set: hits first, then misses. *)
Definition drain_set (st : State) (set : Z) : option State :=
  rh ← vget (requests_hit st) set;
  '(rh', (P1, B1, c1)) ← process_requests rh (timestamp st) set
                           (P st) (B st) (set_counters st);
  hits' ← vset (requests_hit st) set rh';
  rm ← vget (requests_miss st) set;
  '(rm', (P2, B2, c2)) ← process_requests rm (timestamp st) set P1 B1 c1;
  misses' ← vset (requests_miss st) set rm';
  Some (with_requests_miss misses' (with_requests_hit hits' (with_stack P2 B2 c2 st))).

(** "Process the earlier made requests (iterate over all sets)". *)
Definition drain (st : State) : option State :=
  foldM drain_set (seqZ 0 cache_sets) st.

(** "Check the status of the MSHRs". *)
Definition count_miss_requests (st : State) : Z :=
  foldl (λ acc r, u32 (acc + Requests.get_num_requests r)) 0 (requests_miss st).

(** The distance of the access to [line_addr]: [P'] is [P] after the
    lookup [P[line_addr]]. *)
Definition find_distance (st : State) (line_addr set : Z) : option (Z * gmap Z Z) :=
  let P' := mtouch (P st) line_addr in
  previous_time ←
    (if mget (P st) line_addr =? 0 then Some INF
     else counter ← vget (set_counters st) set;
          if mget (P st) line_addr <? counter then Some (mget (P st) line_addr)
          else None);
  distance ←
    (if previous_time =? INF then Some INF
     else tree ← vget (B st) set; Some (Tree.count tree previous_time));
  Some (distance, P').

(** [if (distance >= cache_ways)]: the request does not fit in the cache. *)
Definition is_miss (distance : Z) : bool := cache_ways <=? distance.

Definition add_request (reqs : list Requests.t) (line_addr arrival_time set : Z)
  : option (list Requests.t) :=
  r ← vget reqs set; vset reqs set (Requests.add line_addr arrival_time set r).

(** The body of the loop over [tnum], for the thread [tid] at position
    [tnum] of its warp.  The result says whether the loop is left with
    [break], and gives the state, [max_future_time] and [threads_done]. *)
Definition thread_step (num_miss_requests tnum tid : Z)
    (st : State) (max_future_time threads_done : Z)
  : option (bool * State * Z * Z) :=
  th ← vget (threads st) tid;
  if Thread.is_done th then Some (false, st, max_future_time, u32 (threads_done + 1))
  else
    '(access, th') ← Thread.schedule th;
    threads1 ← vset (threads st) tid th';
    let st1 := with_threads threads1 st in
    if width access =? 0 then Some (false, st1, max_future_time, threads_done)
    else
      line_addr ← line_of (address access);
      set ← set_of line_addr (address access);
      if negb (set <? cache_sets) then None
      else
        '(distance, P') ← find_distance st1 line_addr set;
        let st2 := with_P P' st1 in
        if is_miss distance then
          let memory_latency := u32 (mem_latency + noise (draws st2)) in
          let st3 := with_draws (S (draws st2)) st2 in
          let arrival_time := u32 (timestamp st3 + memory_latency) in
          let max_future_time' :=
            if max_future_time <? memory_latency then memory_latency
            else max_future_time in
          if (num_mshr <=? num_miss_requests) && (tnum =? 0) then
            th'' ← Thread.unschedule th';
            threads2 ← vset (threads st3) tid th'';
            Some (true, with_threads threads2 st3, 0, threads_done)
          else
            misses ← add_request (requests_miss st3) line_addr arrival_time set;
            Some (false,
                  with_distances (record_distance distance (distances st3))
                    (with_requests_miss misses st3),
                  max_future_time', threads_done)
        else
          let arrival_time := u32 (timestamp st2 + non_mem_latency) in
          hits ← add_request (requests_hit st2) line_addr arrival_time set;
          Some (false,
                with_distances (record_distance distance (distances st2))
                  (with_requests_hit hits st2),
                max_future_time, threads_done).

(** The loop over [tnum] of one warp portion. *)
Fixpoint threads_loop (num_miss_requests : Z) (warp : list Z) (tnums : list Z)
    (st : State) (max_future_time threads_done : Z) : option (State * Z * Z) :=
  match tnums with
  | [] => Some (st, max_future_time, threads_done)
  | tnum :: rest =>
      tid ← vget warp tnum;
      '(brk, st', mft, done) ← thread_step num_miss_requests tnum tid st
                                 max_future_time threads_done;
      if brk : bool then Some (st', mft, done)
      else threads_loop num_miss_requests warp rest st' mft done
  end.

(** The body of the loop over [warp_portion]: the threads of the portion,
    then a drain. *)
Definition portion_step (num_miss_requests : Z) (warp : list Z) (portions : Z)
    (acc : State * Z * Z) (warp_portion : Z) : option (State * Z * Z) :=
  let '(st, max_future_time, threads_done) := acc in
  let tnum_start := u32 (warp_portion * (warp_size hardware / portions)) in
  let tnum_stop := u32 ((warp_portion + 1) * (warp_size hardware / portions)) in
  '(st1, mft, done) ← threads_loop num_miss_requests warp
                        (seqZ tnum_start (Z.min tnum_stop (vsize warp) - tnum_start))
                        st max_future_time threads_done;
  st2 ← drain st1;
  Some (st2, mft, done).

(** The work on the warp [wnum] taken from the pool. *)
Definition warp_step (num_miss_requests wnum : Z) (st : State) : option State :=
  warp ← vget warps wnum;
  first ← vget warp 0;
  th ← vget (threads st) first;
  bytes ← Thread.get_bytes th;
  let portions := Z.max 1 (bytes / 4) in
  '(st1, max_future_time, threads_done) ←
    foldM (portion_step num_miss_requests warp portions) (seqZ 0 portions) (st, 0, 0);
  if threads_done =? vsize warp then Some (with_pool (Pool.incr_done (pool st1)) st1)
  else Some (with_pool (Pool.add_warp wnum max_future_time (pool st1)) st1).

(** The body of [while (!pool.is_done())]. *)
Definition tick (st : State) : option State :=
  let num_miss_requests := count_miss_requests st in
  st1 ← (if Pool.has_work (pool st) then
           '(wnum, pool') ← Pool.take_warp (pool st);
           warp_step num_miss_requests wnum (with_pool pool' st)
         else Some st);
  st2 ← drain st1;
  Some (with_timestamp (u32 (timestamp st2 + 1))
          (with_pool (Pool.process_warps_in_flight (pool st2)) st2)).

(** [while (!pool.is_done())], for at most [fuel] iterations. *)
Fixpoint run_pool (fuel : nat) (st : State) : option State :=
  match fuel with
  | O => None
  | S fuel' =>
      finished ← Pool.is_done (pool st);
      if finished : bool then Some st
      else st' ← tick st; run_pool fuel' st'
  end.

(** The pool of the window [snum] of active blocks, and fresh request
    books. *)
Definition open_window (st : State) (snum : Z) : option State :=
  let first := u32 (snum * active_blocks) in
  let stop := Z.min (u32 ((snum + 1) * active_blocks)) (vsize core) in
  pool ← foldM (λ p bnum,
                  bid ← vget core bnum;
                  block ← vget blocks bid;
                  Some (foldl (λ p w, Pool.add_warp w 0 p) p block))
               (seqZ first (stop - first)) Pool.new;
  Some (with_requests_hit (replicate (Z.to_nat cache_sets) Requests.new)
          (with_requests_miss (replicate (Z.to_nat cache_sets) Requests.new)
             (with_pool (Pool.set_size pool) st))).

Definition run_window (fuel : nat) (st : State) (snum : Z) : option State :=
  st1 ← open_window st snum; run_pool fuel st1.

(** The number of windows, [ceil(core.size()/(float)(active_blocks))].
    With [active_blocks = 0] the quotient is NaN for an empty core (no
    iteration) and infinite otherwise (the first pool is then empty and
    [is_done] fails its assertion). *)
Definition num_windows : option Z :=
  if active_blocks =? 0 then (if vsize core =? 0 then Some 0 else None)
  else ceil_fdiv (vsize core) active_blocks.

(** The state after phases 1 and 2, with the grand total of phase 1. *)
Definition init (_threads : list Thread.t) (_distances : gmap Z Z)
  : option (State * Z) :=
  num_total_accesses ← count_accesses _threads;
  let grand_total := sum_u32 num_total_accesses in
  B ← mapM (λ n, Tree.Tree (u32 (n + STACK_EXTRA_SIZE))) num_total_accesses;
  Some (mkState (Thread.reset <$> _threads) ∅ B
          (replicate (Z.to_nat cache_sets) 1) _distances 0 O Pool.new [] [],
        grand_total).

Definition histogram_total (distances : gmap Z Z) : Z :=
  map_fold (λ _ freq acc, u32 (acc + freq)) 0 distances.

(** Phases 1 to 4: the state when the last window is done, with the
    grand total of phase 1.  [fuel] bounds the iterations of each
    [while (!pool.is_done())]. *)
Definition run_windows (fuel : nat) (_threads : list Thread.t)
    (_distances : gmap Z Z) : option (State * Z) :=
  '(st0, grand_total) ← init _threads _distances;
  n ← num_windows;
  st ← foldM (run_window fuel) (seqZ 0 n) st0;
  Some (st, grand_total).

(** [reuse_distance]: the final threads and histogram, with the two sides
    [grand_total] and [distances_total] of the closing sanity check. *)
Definition reuse_distance (fuel : nat) (_threads : list Thread.t)
    (_distances : gmap Z Z) : option (list Thread.t * gmap Z Z * Z * Z) :=
  '(st, grand_total) ← run_windows fuel _threads _distances;
  Some (Thread.reset <$> threads st, distances st, grand_total,
        histogram_total (distances st)).

End Engine.

(** ** The miss classification of [output_miss_rate] (io.cpp) *)

(** The accumulators [miss_compulsory[i]], [miss_capacity[i]] and [hits]. *)
Record Tally : Type := mkTally {
  compulsory : Z;
  capacity : Z;
  hits : Z
}.

(** The body of the loop over the histogram of run [i], for the entry
    [first => second]. *)
Definition classify (i cache_ways first second : Z) (acc : Tally) : Tally :=
  if first =? INF then mkTally (u32 (compulsory acc + second)) (capacity acc) (hits acc)
  else if cache_ways <? first then
    mkTally (compulsory acc) (u32 (capacity acc + second)) (hits acc)
  else if i =? 0 then mkTally (compulsory acc) (capacity acc) (u32 (hits acc + second))
  else acc.

Definition ways_of_run (hardware : Settings) (i : Z) : Z :=
  if i =? 1 then u32 (cache_ways hardware * cache_sets hardware)
  else cache_ways hardware.

(** The loop over the histogram of run [i]; [hits0] is the value of [hits]
    before it. *)
Definition classify_run (hardware : Settings) (i : Z) (distances : gmap Z Z)
    (hits0 : Z) : Tally :=
  map_fold (classify i (ways_of_run hardware i)) (mkTally 0 0 hits0) distances.

(** What [output_miss_rate] reports (the floating-point miss rate is left
    out), with the residual [rest] of the decomposition. *)
Record Report : Type := mkReport {
  total_accesses : Z;
  out_compulsory : Z;
  out_capacity : Z;
  out_associativity : Z;
  out_latency : Z;
  out_mshr : Z;
  tot_associativity : Z;
  tot_latency : Z;
  tot_mshr : Z;
  out_hits : Z;
  total_misses : Z;
  rest : Z
}.

(** "Compute the various types of cache miss rates", from the tallies of
    the four runs. *)
Definition decompose (t0 t1 t2 t3 : Tally) : Report :=
  let miss t := u32 (compulsory t + capacity t) in
  let miss_associativity := to_int (miss t0 - miss t1) in
  let miss_latency := to_int (compulsory t0 - compulsory t2) in
  let miss_mshr := to_int (miss t0 - miss t3) in
  let miss_compulsory0 := compulsory t2 in
  let rest := to_int (miss t0 - (miss_compulsory0 + Z.max 0 miss_latency
                                 + Z.max 0 miss_associativity + Z.max 0 miss_mshr)) in
  let miss_capacity0 := u32 (Z.max 0 rest) in
  let '(miss_mshr', miss_latency', miss_associativity') :=
    if rest <? 0 then
      if - rest <? miss_mshr then (to_int (miss_mshr - rest), miss_latency, miss_associativity)
      else if - rest <? miss_latency then
        (miss_mshr, to_int (miss_latency - rest), miss_associativity)
      else (miss_mshr, miss_latency, to_int (miss_associativity - rest))
    else (miss_mshr, miss_latency, miss_associativity) in
  let total_misses := miss t0 in
  mkReport (u32 (total_misses + hits t3)) miss_compulsory0 miss_capacity0
    (Z.max 0 miss_associativity') (Z.max 0 miss_latency') (Z.max 0 miss_mshr')
    (miss t1) (miss t2) (miss t3) (hits t3) total_misses rest.

Definition output_miss_rate (distances : list (gmap Z Z)) (hardware : Settings)
  : option Report :=
  d0 ← vget distances 0;
  d1 ← vget distances 1;
  d2 ← vget distances 2;
  d3 ← vget distances 3;
  let t0 := classify_run hardware 0 d0 0 in
  let t1 := classify_run hardware 1 d1 (hits t0) in
  let t2 := classify_run hardware 2 d2 (hits t1) in
  let t3 := classify_run hardware 3 d3 (hits t2) in
  Some (decompose t0 t1 t2 t3).

(** ** Predicates used in the statements *)

(** [covers start size t]: [t] is the node of the index range
    [[start, start + size)]: it stores the last index of its range, and an
    inner node splits its range into the first [ceil (size / 2)] indices
    (left) and the remaining [floor (size / 2)] (right). *)
Fixpoint covers (start size : Z) (t : Node) : Prop :=
  match t with
  | Leaf b _ => size = 1 ∧ b = start
  | Inner b _ l r =>
      1 < size ∧ b = start + size - 1
      ∧ range_b l = start + (size + 1) / 2 - 1
      ∧ covers start ((size + 1) / 2) l
      ∧ covers (start + (size + 1) / 2) (size / 2) r
  end.

(** Every leaf holds 0 or 1 and every inner node the sum of its children. *)
Fixpoint sums (t : Node) : Prop :=
  match t with
  | Leaf _ v => v = 0 ∨ v = 1
  | Inner _ v l r => v = value l + value r ∧ sums l ∧ sums r
  end.

(** A freshly built tree holds 0 everywhere. *)
Fixpoint zeros (t : Node) : Prop :=
  match t with
  | Leaf _ v => v = 0
  | Inner _ v l r => v = 0 ∧ zeros l ∧ zeros r
  end.

(** The number of indices in [[lo, hi)] whose leaf holds 1. *)
Definition ones (t : Node) (lo hi : Z) : Z :=
  Z.of_nat (length (List.filter (λ i, Tree.leaf_value i t =? 1) (seqZ lo (hi - lo)))).

(** Operations on a stack tree. *)
Inductive tree_op : Type :=
| OpSet (target : Z)
| OpUnset (target : Z).

Definition apply_op (t : Node) (o : tree_op) : Node :=
  match o with
  | OpSet i => Tree.set i t
  | OpUnset i => Tree.unset i t
  end.

Definition run_ops (t : Node) (ops : list tree_op) : Node := foldl apply_op t ops.

(** A sequence of operations on indices of [[0, size)] that sets only
    leaves holding 0 and unsets only leaves holding 1. *)
Fixpoint valid_ops (size : Z) (t : Node) (ops : list tree_op) : Prop :=
  match ops with
  | [] => True
  | o :: ops' =>
      match o with
      | OpSet i => 0 ≤ i < size ∧ Tree.leaf_value i t = 0
      | OpUnset i => 0 ≤ i < size ∧ Tree.leaf_value i t = 1
      end
      ∧ valid_ops size (apply_op t o) ops'
  end.

(** The layout that C7 words: an inner node of the range
    [[start, start + size)] stores [start + ceil (size / 2) - 1], the last
    index of its left subtree. *)
Fixpoint claimed_layout (start size : Z) (t : Node) : Prop :=
  match t with
  | Leaf _ _ => size = 1
  | Inner b _ l r =>
      b = start + (size + 1) / 2 - 1
      ∧ claimed_layout start ((size + 1) / 2) l
      ∧ claimed_layout (start + (size + 1) / 2) (size / 2) r
  end.

(** Fermi's hash as the specification words it, over the little-endian
    bits [b0 .. b31] of [line_addr]. *)
Definition fermi_bit (line_addr i : Z) : Z := Z.b2z (Z.testbit line_addr i).

Definition fermi_hash (line_addr num_sets : Z) : Z :=
  let b := fermi_bit line_addr in
  let g1 := b 0 + 2 * b 1 + 4 * b 2 + 8 * b 3 + 16 * b 4 in
  let g2 := b 6 + 2 * b 7 + 4 * b 8 + 8 * b 10 + 16 * b 12 in
  (Z.lxor g1 g2 + 32 * b 5) mod num_sets.



(** The sum of [f] over a list. *)
Definition sum_of {A} (f : A → Z) (l : list A) : Z := foldr (λ x s, f x + s) 0 l.

(** The invariant behind the compulsory misses.  [seen] holds the line
    addresses recorded so far and [k] is the frequency recorded at distance
    [INF]: every line with an entry in [P] or with a pending request is in
    [seen], and so is the line of every scheduled access; [k] is at least
    the number of lines seen and at most the number of accesses scheduled
    (the sum of the program counters), which stays below [2^32] when the
    threads hold fewer than [2^32] accesses in all. *)
Definition known_P (seen : gset Z) (P : gmap Z Z) : Prop :=
  ∀ line, mget P line ≠ 0 → line ∈ seen.

Definition known_requests (seen : gset Z) (r : Requests.t) : Prop :=
  ∀ t l x, Requests.request_list r !! t = Some l → x ∈ l → addr x ∈ seen.

Definition known_thread (hardware : Settings) (seen : gset Z) (th : Thread.t) : Prop :=
  0 ≤ Thread.pc th < 2 ^ 32
  ∧ ∀ j a, Z.of_nat j < Thread.pc th → Thread.accesses th !! j = Some a →
           width a ≠ 0 →
           ∃ line, line_of hardware (address a) = Some line ∧ line ∈ seen.

Definition counted (seen : gset Z) (k : Z) (ths : list Thread.t)
    (distances : gmap Z Z) : Prop :=
  mget distances INF = k
  ∧ Z.of_nat (size seen) ≤ k ≤ sum_of Thread.pc ths
  ∧ Forall (λ th, Thread.pc th ≤ vsize (Thread.accesses th)) ths
  ∧ sum_of (λ th, vsize (Thread.accesses th)) ths < 2 ^ 32.

Definition lines_inv (hardware : Settings) (seen : gset Z) (k : Z) (st : State) : Prop :=
  known_P seen (P st)
  ∧ Forall (known_requests seen) (requests_miss st)
  ∧ Forall (known_requests seen) (requests_hit st)
  ∧ Forall (known_thread hardware seen) (threads st)
  ∧ counted seen k (threads st) (distances st).

Definition engine_inv (hardware : Settings) (st : State) : Prop :=
  ∃ seen k, lines_inv hardware seen k st.

(** The bit positions of the line address that Fermi's hash reads. *)
Definition fermi_positions : list Z := [0; 1; 2; 3; 4; 5; 6; 7; 8; 10; 12].

(** The pool [k] passes after warp [w] went in flight with delay [d]: it
    is not among the ready warps, and its entry holds [d - k]. *)
Definition waiting (w d : Z) (k : nat) (p : Pool.t) : Prop :=
  (w ∉ Pool.warps p)
  ∧ (w, d - Z.of_nat k) ∈ Pool.in_flight p
  ∧ ∀ v, (w, v) ∈ Pool.in_flight p → v = d - Z.of_nat k.

(** The warp of thread [tid] (the expression assigned to [wid]), for
    [num_warps_per_block = n]. *)
Definition warp_of (hardware : Settings) (blocksize n tid : Z) : Z :=
  u32 ((tid mod blocksize) / warp_size hardware + u32 ((tid / blocksize) * n)).

(** What the scheduler has to leave alone: of an access its direction,
    address and byte count, of a thread its block id, its program counter
    and the sequence of its accesses. *)
Definition request_of (a : Access) : Z * Z * Z := (direction a, address a, bytes a).

Definition trace_of (th : Thread.t) : Z * Z * list (Z * Z * Z) :=
  (Thread.blockid th, Thread.pc th, request_of <$> Thread.accesses th).


(** The number of per-set counters that phase 1 increments for an access:
    none for an access that coalescing has disabled, two for an access
    whose last byte is on another line than its first byte. *)
Definition weight (hardware : Settings) (a : Access) : Z :=
  if width a =? 0 then 0
  else if address a / line_size hardware =? end_address a / line_size hardware then 1
  else 2.

(** The accesses that a thread still has to schedule. *)
Definition pending (th : Thread.t) : list Access :=
  drop (Z.to_nat (Thread.pc th)) (Thread.accesses th).

(** The number of accesses of non-zero width that a thread has scheduled:
    those below its program counter. *)
Definition recorded (th : Thread.t) : Z :=
  Z.of_nat (length (filter (λ a, width a ≠ 0)
                      (take (Z.to_nat (Thread.pc th)) (Thread.accesses th)))).

(** The invariant behind the closing sanity check: the histogram sums to
    [h0] plus the number of accesses of non-zero width scheduled so far. *)
Definition tallied (h0 : Z) (st : State) : Prop :=
  Forall (λ th, 0 ≤ Thread.pc th ≤ vsize (Thread.accesses th)
                ∧ vsize (Thread.accesses th) < 2 ^ 32) (threads st)
  ∧ histogram_total (distances st) = u32 (h0 + sum_of recorded (threads st)).

(** ** Example inputs *)

(** A cache of one set with four ways and lines of 128 bytes, one MSHR,
    and a memory latency of 3 without variance. *)
Definition small_cache : Settings := mkSettings 128 512 4 4 1 1 1 32 1536 8 3 0.

(** A read as [read_file] stores it: width 1 and
    [end_address = address + bytes - 1]. *)
Definition read (address bytes : Z) : Access :=
  mkAccess 0 address 1 bytes (address + bytes - 1).

(** A fresh thread with its trace. *)
Definition thread_of (trace : list Access) : Thread.t :=
  foldl (λ th a, Thread.append_access a th) Thread.new trace.

(** The threads, warps, blocks and cores that the driver hands to the
    engine: vectors sized as in [main], filled by [schedule_threads]. *)
Definition scheduled (hardware : Settings) (threads : list Thread.t) (blocksize : Z)
  : option (list Thread.t * list (list Z) * list (list Z) * list (list Z)) :=
  num_blocks ← ceil_fdiv (vsize threads) blocksize;
  num_warps_per_block ← ceil_fdiv blocksize (warp_size hardware);
  schedule_threads hardware blocksize threads
    (replicate (Z.to_nat (u32 (u32 num_warps_per_block * u32 num_blocks))) [])
    (replicate (Z.to_nat (u32 num_blocks)) [])
    (replicate (Z.to_nat (num_cores hardware)) []).

(** No variance in the memory latency. *)
Definition no_noise : nat → Z := λ _, 0.

(** A state of the engine for [small_cache] in which the only thread is
    about to read line 0, last used at time 1 of set 0, while the lines
    used at times 2 to 5 are still on the stack: the access is at
    distance 4. *)
Definition boundary_state : State :=
  mkState [thread_of [read 0 4]] {[0 := 1]}
    [foldl (λ t i, Tree.set i t) (default (Leaf 0 0) (Tree.Tree 8)) [1; 2; 3; 4; 5]]
    [6] ∅ 0 O Pool.new [Requests.new] [Requests.new].


(** * Properties *)

(** ** Machine integers and floats *)

Lemma u32_small x : 0 ≤ x < 2 ^ 32 → u32 x = x.
Proof. intros H. unfold u32. apply Z.mod_small. lia. Qed.

Lemma rne_mul c q : 0 < q → rne (c * q) q = c.
Proof.
  intros Hq. unfold rne.
  rewrite Z.div_mul, Z.mod_mul by lia.
  replace (2 * 0 <? q) with true; [done|]. symmetry. apply Z.ltb_lt. lia.
Qed.

(** An integer below [2^24] converts to a float without rounding. *)
Lemma float_of_Z_exact n :
  0 ≤ n < 2 ^ 24 → ∃ k, 0 ≤ k ∧ float_of_Z n = (n * 2 ^ k, 2 ^ k).
Proof.
  intros Hn. unfold float_of_Z, fl_round.
  destruct (n =? 0) eqn:E0.
  - apply Z.eqb_eq in E0. subst n. exists 0. done.
  - apply Z.eqb_neq in E0.
    assert (Hlog : Z.log2 n < 24) by (apply Z.log2_lt_pow2; lia).
    assert (Hflog : flog2 n 1 = Z.log2 n).
    { unfold flog2. replace (1 <=? n) with true by (symmetry; apply Z.leb_le; lia).
      by rewrite Z.div_1_r. }
    rewrite Hflog.
    destruct (0 <=? Z.log2 n - 23) eqn:Ee.
    + apply Z.leb_le in Ee. assert (Z.log2 n - 23 = 0) as -> by lia.
      exists 0. change (2 ^ 0) with 1. rewrite !Z.mul_1_r.
      by rewrite <- (Z.mul_1_r n) at 1; rewrite rne_mul.
    + apply Z.leb_gt in Ee. exists (- (Z.log2 n - 23)). split; [lia|].
      by rewrite <- (Z.mul_1_r (n * _)) at 1; rewrite rne_mul.
Qed.

(** Halving a float that holds an integer below [2^24] is exact, so the
    conversion back to [unsigned] gives the integer quotient. *)
Lemma fl_trunc_half n j :
  0 ≤ n < 2 ^ 24 → 0 ≤ j → fl_trunc (fl_round (n * 2 ^ j) (2 * 2 ^ j)) = n / 2.
Proof.
  intros Hn Hj. unfold fl_round.
  assert (Hpj : 0 < 2 ^ j) by (apply Z.pow_pos_nonneg; lia).
  destruct (n * 2 ^ j =? 0) eqn:E0.
  - apply Z.eqb_eq in E0. assert (n = 0) as -> by nia. done.
  - apply Z.eqb_neq in E0. assert (0 < n) by nia.
    assert (He : flog2 (n * 2 ^ j) (2 * 2 ^ j) - 23 < 0).
    { unfold flog2. destruct (2 * 2 ^ j <=? n * 2 ^ j) eqn:Ec.
      - rewrite Z.div_mul_cancel_r by lia.
        assert (Z.log2 (n / 2) < 23); [|lia].
        assert (n / 2 < 2 ^ 23) by (apply Z.div_lt_upper_bound; lia).
        destruct (Z.eq_dec (n / 2) 0) as [->|]; [done|].
        apply Z.log2_lt_pow2; [|done].
        assert (0 ≤ n / 2) by (apply Z.div_pos; lia). lia.
      - pose proof (Z.log2_up_nonneg ((2 * 2 ^ j + n * 2 ^ j - 1) / (n * 2 ^ j))). lia. }
    replace (0 <=? _) with false by (symmetry; apply Z.leb_gt; lia).
    set (k := - (flog2 (n * 2 ^ j) (2 * 2 ^ j) - 23)).
    assert (1 ≤ k) by lia.
    assert (Hk : 2 ^ k = 2 ^ (k - 1) * 2).
    { replace k with (k - 1 + 1) at 1 by lia. rewrite Z.pow_add_r by lia. done. }
    assert (Hpk : 0 < 2 ^ (k - 1)) by (apply Z.pow_pos_nonneg; lia).
    replace (n * 2 ^ j * 2 ^ k) with (n * 2 ^ (k - 1) * (2 * 2 ^ j)) by (rewrite Hk; ring).
    rewrite rne_mul by lia. unfold fl_trunc. cbn [fst snd].
    rewrite Hk, (Z.mul_comm (2 ^ (k - 1)) 2), Z.div_mul_cancel_r by lia. done.
Qed.

Lemma float_of_2 : float_of_Z 2 = (2 * 2 ^ 22, 2 ^ 22).
Proof. by vm_compute. Qed.

Lemma FLOOR_DIV_exact size : 0 ≤ size ≤ 2 ^ 24 → FLOOR_DIV size 2 = size / 2.
Proof.
  intros H. destruct (Z.eq_dec size (2 ^ 24)) as [->|]; [by vm_compute|].
  unfold FLOOR_DIV, fl_div.
  destruct (float_of_Z_exact size) as (k & Hk & ->); [lia|].
  rewrite float_of_2. simpl fst; simpl snd.
  assert (0 < 2 ^ k) by (apply Z.pow_pos_nonneg; lia).
  replace (size * 2 ^ k * 2 ^ 22) with (size * 2 ^ (k + 22)) by (rewrite Z.pow_add_r by lia; ring).
  replace (2 ^ k * (2 * 2 ^ 22)) with (2 * 2 ^ (k + 22)) by (rewrite Z.pow_add_r by lia; ring).
  apply fl_trunc_half; lia.
Qed.

Lemma CEIL_DIV_exact size : 0 ≤ size ≤ 2 ^ 24 → CEIL_DIV size 2 = (size + 1) / 2.
Proof.
  intros H. destruct (Z.eq_dec size (2 ^ 24)) as [->|]; [by vm_compute|].
  destruct (Z.eq_dec size (2 ^ 24 - 1)) as [->|]; [by vm_compute|].
  unfold CEIL_DIV. replace (size + 2 - 1) with (size + 1) by lia.
  rewrite u32_small by lia.
  change (fl_trunc (fl_div (float_of_Z (size + 1)) (float_of_Z 2)))
    with (FLOOR_DIV (size + 1) 2).
  apply FLOOR_DIV_exact. lia.
Qed.

(** ** The stack tree *)

Lemma covers_range_b start size t : covers start size t → range_b t = start + size - 1.
Proof. destruct t; simpl; intros H; lia. Qed.

Lemma covers_pos start size t : covers start size t → 1 ≤ size.
Proof. destruct t; simpl; intros H; lia. Qed.

Lemma zeros_sums t : zeros t → sums t ∧ value t = 0.
Proof.
  induction t as [b v|b v l IHl r IHr]; simpl.
  - intros ->. auto.
  - intros (-> & Hl & Hr). destruct (IHl Hl) as [? ->], (IHr Hr) as [? ->]. auto.
Qed.

Lemma halves size :
  1 < size →
  1 ≤ (size + 1) / 2 ∧ 1 ≤ size / 2 ∧ (size + 1) / 2 + size / 2 = size
  ∧ size / 2 ≤ (size + 1) / 2.
Proof. intros. Z.div_mod_to_equations. lia. Qed.

Lemma pow2_half size f :
  1 < size → size ≤ 2 ^ Z.of_nat (S f) → (size + 1) / 2 ≤ 2 ^ Z.of_nat f.
Proof.
  intros H1 H2. rewrite Nat2Z.inj_succ, Z.pow_succ_r in H2 by lia.
  generalize dependent (2 ^ Z.of_nat f). intros p Hp.
  apply Z.lt_succ_r, Z.div_lt_upper_bound; lia.
Qed.

(** Within the exact range of the float macros, [fill_tree] builds the
    balanced tree of its index range, provided the fuel covers its depth. *)
Lemma fill_tree_exact f : ∀ start size,
  1 ≤ size ≤ 2 ^ 24 → size ≤ 2 ^ Z.of_nat f → 0 ≤ start → start + size ≤ 2 ^ 32 →
  ∃ t, Tree.fill_tree (S f) start size = Some t ∧ covers start size t ∧ zeros t.
Proof.
  induction f as [|f IH]; intros start size Hs Hf H0 Hend.
  - simpl in Hf. assert (size = 1) as -> by lia. simpl.
    eexists; split; [done|]. simpl. rewrite u32_small by lia. split; [lia|done].
  - change (Tree.fill_tree (S (S f)) start size) with
      (if 1 <? size then
         l ← Tree.fill_tree (S f) start (CEIL_DIV size 2);
         r ← Tree.fill_tree (S f) (u32 (start + CEIL_DIV size 2)) (FLOOR_DIV size 2);
         Some (Inner (u32 (start + size - 1)) 0 l r)
       else Some (Leaf (u32 (start + size - 1)) 0)).
    destruct (1 <? size) eqn:E1.
    + apply Z.ltb_lt in E1.
      rewrite CEIL_DIV_exact, FLOOR_DIV_exact by lia.
      pose proof (pow2_half size f E1 Hf) as Hl.
      pose proof (halves size E1) as (? & ? & ? & ?).
      destruct (IH start ((size + 1) / 2)) as (l & -> & Hcl & Hzl); [lia..|].
      rewrite (u32_small (start + _)) by lia.
      destruct (IH (start + (size + 1) / 2) (size / 2)) as (r & -> & Hcr & Hzr); [lia..|].
      simpl. eexists; split; [done|]. rewrite u32_small by lia.
      pose proof (covers_range_b _ _ _ Hcl). simpl. auto 10.
    + apply Z.ltb_ge in E1. assert (size = 1) as -> by lia.
      eexists; split; [done|]. simpl. rewrite u32_small by lia. split; [lia|done].
Qed.

Lemma Tree_exact size :
  1 ≤ size ≤ 2 ^ 24 → ∃ t, Tree.Tree size = Some t ∧ covers 0 size t ∧ zeros t.
Proof.
  intros H. unfold Tree.Tree, Tree.max_levels.
  apply (fill_tree_exact 63); [lia| |lia|lia].
  transitivity (2 ^ 24); [lia|]. apply Z.pow_le_mono_r; lia.
Qed.

Lemma range_b_set i t : range_b (Tree.set i t) = range_b t.
Proof. destruct t; simpl; [done|]. by destruct (_ <? _). Qed.

Lemma range_b_unset i t : range_b (Tree.unset i t) = range_b t.
Proof. destruct t; simpl; [done|]. by destruct (_ <? _). Qed.

Lemma covers_set i t : ∀ start size, covers start size t → covers start size (Tree.set i t).
Proof.
  induction t as [b v|b v l IHl r IHr]; intros start size; simpl; [done|].
  intros (? & ? & ? & ? & ?). destruct (range_b l <? i); simpl;
    rewrite ?range_b_set; auto 10.
Qed.

Lemma covers_unset i t : ∀ start size, covers start size t → covers start size (Tree.unset i t).
Proof.
  induction t as [b v|b v l IHl r IHr]; intros start size; simpl; [done|].
  intros (? & ? & ? & ? & ?). destruct (range_b l <? i); simpl;
    rewrite ?range_b_unset; auto 10.
Qed.

Lemma covers_apply_op o t start size : covers start size t → covers start size (apply_op t o).
Proof. destruct o; simpl; [apply covers_set|apply covers_unset]. Qed.

Lemma value_bounds t : ∀ start size, covers start size t → sums t → 0 ≤ value t ≤ size.
Proof.
  induction t as [b v|b v l IHl r IHr]; intros start size; simpl.
  - lia.
  - intros (? & ? & ? & Hl & Hr) (-> & Sl & Sr).
    pose proof (IHl _ _ Hl Sl). pose proof (IHr _ _ Hr Sr).
    pose proof (halves size). lia.
Qed.

Lemma leaf_value_le t : ∀ start size i,
  covers start size t → sums t → 0 ≤ Tree.leaf_value i t ≤ value t.
Proof.
  induction t as [b v|b v l IHl r IHr]; intros start size i; simpl.
  - lia.
  - intros (? & ? & ? & Hl & Hr) (-> & Sl & Sr).
    pose proof (value_bounds _ _ _ Hl Sl). pose proof (value_bounds _ _ _ Hr Sr).
    destruct (range_b l <? i).
    + pose proof (IHr _ _ i Hr Sr). lia.
    + pose proof (IHl _ _ i Hl Sl). lia.
Qed.

(** [set] on a leaf holding 0 writes a 1 there and nowhere else, and keeps
    the sums. *)
Lemma set_spec t : ∀ start size i,
  covers start size t → sums t → size < 2 ^ 31 →
  start ≤ i < start + size → Tree.leaf_value i t = 0 →
  sums (Tree.set i t) ∧ value (Tree.set i t) = value t + 1
  ∧ ∀ j, start ≤ j < start + size →
      Tree.leaf_value j (Tree.set i t) = if j =? i then 1 else Tree.leaf_value j t.
Proof.
  induction t as [b v|b v l IHl r IHr]; intros start size i; simpl.
  - intros (-> & ->) _ _ Hi ->. split; [auto|]. split; [done|].
    intros j Hj. by replace (j =? i) with true by (symmetry; apply Z.eqb_eq; lia).
  - intros (H1 & -> & Hb & Hl & Hr) (-> & Sl & Sr) Hsz Hi Hv.
    pose proof (halves size H1) as (? & ? & ? & ?).
    pose proof (value_bounds _ _ _ Hl Sl). pose proof (value_bounds _ _ _ Hr Sr).
    rewrite u32_small by lia.
    destruct (range_b l <? i) eqn:E; simpl.
    + apply Z.ltb_lt in E.
      destruct (IHr _ _ i Hr Sr) as (S' & V' & L'); [lia..|done|].
      rewrite V'. split; [split; [lia|done]|]. split; [done|].
      intros j Hj. destruct (range_b l <? j) eqn:Ej.
      * apply Z.ltb_lt in Ej. apply L'. lia.
      * apply Z.ltb_ge in Ej.
        by replace (j =? i) with false by (symmetry; apply Z.eqb_neq; lia).
    + apply Z.ltb_ge in E.
      destruct (IHl _ _ i Hl Sl) as (S' & V' & L'); [lia..|done|].
      rewrite V', range_b_set. split; [split; [lia|done]|]. split; [done|].
      intros j Hj. destruct (range_b l <? j) eqn:Ej.
      * apply Z.ltb_lt in Ej.
        by replace (j =? i) with false by (symmetry; apply Z.eqb_neq; lia).
      * apply Z.ltb_ge in Ej. apply L'. lia.
Qed.

(** [unset] on a leaf holding 1 writes a 0 there and nowhere else. *)
Lemma unset_spec t : ∀ start size i,
  covers start size t → sums t → size < 2 ^ 31 →
  start ≤ i < start + size → Tree.leaf_value i t = 1 →
  sums (Tree.unset i t) ∧ value (Tree.unset i t) = value t - 1
  ∧ ∀ j, start ≤ j < start + size →
      Tree.leaf_value j (Tree.unset i t) = if j =? i then 0 else Tree.leaf_value j t.
Proof.
  induction t as [b v|b v l IHl r IHr]; intros start size i; simpl.
  - intros (-> & ->) _ _ Hi ->. split; [auto|]. split; [done|].
    intros j Hj. by replace (j =? i) with true by (symmetry; apply Z.eqb_eq; lia).
  - intros (H1 & -> & Hb & Hl & Hr) (-> & Sl & Sr) Hsz Hi Hv.
    pose proof (halves size H1) as (? & ? & ? & ?).
    pose proof (value_bounds _ _ _ Hl Sl). pose proof (value_bounds _ _ _ Hr Sr).
    destruct (range_b l <? i) eqn:E; simpl.
    + apply Z.ltb_lt in E.
      pose proof (leaf_value_le _ _ _ i Hr Sr).
      rewrite u32_small by lia.
      destruct (IHr _ _ i Hr Sr) as (S' & V' & L'); [lia..|done|].
      rewrite V'. split; [split; [lia|done]|]. split; [done|].
      intros j Hj. destruct (range_b l <? j) eqn:Ej.
      * apply Z.ltb_lt in Ej. apply L'. lia.
      * apply Z.ltb_ge in Ej.
        by replace (j =? i) with false by (symmetry; apply Z.eqb_neq; lia).
    + apply Z.ltb_ge in E.
      pose proof (leaf_value_le _ _ _ i Hl Sl).
      rewrite u32_small by lia.
      destruct (IHl _ _ i Hl Sl) as (S' & V' & L'); [lia..|done|].
      rewrite V', range_b_unset. split; [split; [lia|done]|]. split; [done|].
      intros j Hj. destruct (range_b l <? j) eqn:Ej.
      * apply Z.ltb_lt in Ej.
        by replace (j =? i) with false by (symmetry; apply Z.eqb_neq; lia).
      * apply Z.ltb_ge in Ej. apply L'. lia.
Qed.

(** *** Counting the leaves that hold 1 *)

Lemma ones_nonneg t lo hi : 0 ≤ ones t lo hi.
Proof. unfold ones. lia. Qed.

Lemma ones_empty t lo hi : hi ≤ lo → ones t lo hi = 0.
Proof. intros H. unfold ones. by rewrite seqZ_nil by lia. Qed.

Lemma ones_split t lo mid hi :
  lo ≤ mid ≤ hi → ones t lo hi = ones t lo mid + ones t mid hi.
Proof.
  intros H. unfold ones.
  replace (hi - lo) with ((mid - lo) + (hi - mid)) by lia.
  rewrite seqZ_app by lia. rewrite List.filter_app, length_app.
  replace (lo + (mid - lo)) with mid by lia. lia.
Qed.

Lemma ones_ext t t' lo hi :
  (∀ i, lo ≤ i < hi → Tree.leaf_value i t = Tree.leaf_value i t') →
  ones t lo hi = ones t' lo hi.
Proof.
  intros H. unfold ones. f_equal. f_equal.
  apply List.filter_ext_in. intros i Hi.
  apply list_elem_of_In, elem_of_seqZ in Hi. rewrite H; [done|lia].
Qed.

Lemma ones_single t i : Tree.leaf_value i t = 0 ∨ Tree.leaf_value i t = 1 →
  ones t i (i + 1) = Tree.leaf_value i t.
Proof.
  intros H. unfold ones. replace (i + 1 - i) with 1 by lia.
  rewrite seqZ_cons, seqZ_nil by lia. simpl.
  by destruct H as [-> | ->].
Qed.

(** The value of a node is the number of 1-leaves of its range. *)
Lemma value_ones t : ∀ start size,
  covers start size t → sums t → value t = ones t start (start + size).
Proof.
  induction t as [b v|b v l IHl r IHr]; intros start size.
  - intros (-> & ->) Hv. by rewrite ones_single.
  - intros (H1 & -> & Hb & Hl & Hr) (-> & Sl & Sr).
    pose proof (halves size H1) as (? & ? & ? & ?).
    rewrite (ones_split _ start (start + (size + 1) / 2)) by lia.
    cbn [value].
    rewrite (ones_ext _ l start).
    2:{ intros i Hi. simpl.
        by replace (range_b l <? i) with false by (symmetry; apply Z.ltb_ge; lia). }
    rewrite (ones_ext _ r (start + (size + 1) / 2)).
    2:{ intros i Hi. simpl.
        by replace (range_b l <? i) with true by (symmetry; apply Z.ltb_lt; lia). }
    rewrite (IHl _ _ Hl Sl), (IHr _ _ Hr Sr).
    by replace (start + (size + 1) / 2 + size / 2) with (start + size) by lia.
Qed.

(** [count] accumulates the number of 1-leaves to the right of [target]. *)
Lemma count_from_spec t : ∀ start size target acc,
  covers start size t → sums t →
  start ≤ target < start + size → 0 ≤ acc → acc + value t < 2 ^ 32 →
  Tree.count_from t target acc = acc + ones t (target + 1) (start + size).
Proof.
  induction t as [b v|b v l IHl r IHr]; intros start size target acc.
  - intros (-> & ->) _ Ht _ _. simpl. rewrite ones_empty; lia.
  - intros (H1 & -> & Hb & Hl & Hr) (-> & Sl & Sr) Ht Hacc Hov.
    pose proof (halves size H1) as (? & ? & ? & ?).
    pose proof (value_bounds _ _ _ Hl Sl). pose proof (value_bounds _ _ _ Hr Sr).
    assert (Hright : ∀ lo, start + (size + 1) / 2 ≤ lo →
              ones (Inner (start + size - 1) (value l + value r) l r) lo (start + size)
              = ones r lo (start + size)).
    { intros lo Hlo. apply ones_ext. intros i Hi. simpl.
      by replace (range_b l <? i) with true by (symmetry; apply Z.ltb_lt; lia). }
    set (T := Inner (start + size - 1) (value l + value r) l r) in *.
    assert (Hv : value l + value r = ones T start (start + size)).
    { apply (value_ones T start size); simpl; auto 10. }
    rewrite (ones_split _ start (target + 1)) in Hv by lia.
    pose proof (ones_nonneg T start (target + 1)).
    pose proof (ones_nonneg T (target + 1) (start + size)).
    simpl in Hov. change (Tree.count_from T target acc) with
      (if value l + value r =? 0 then acc
       else if range_b l <? target then Tree.count_from r target acc
       else Tree.count_from l target (u32 (acc + value r))).
    destruct (value l + value r =? 0) eqn:E0.
    + apply Z.eqb_eq in E0. lia.
    + destruct (range_b l <? target) eqn:E.
      * apply Z.ltb_lt in E. rewrite Hright by lia.
        replace (start + size) with (start + (size + 1) / 2 + size / 2) by lia.
        apply IHr; [done|done|lia..].
      * apply Z.ltb_ge in E. rewrite u32_small by lia.
        rewrite (IHl start ((size + 1) / 2)); [|done|done|lia..].
        rewrite (ones_split _ (target + 1) (start + (size + 1) / 2) (start + size)) by lia.
        rewrite Hright by lia.
        replace (start + size) with (start + (size + 1) / 2 + size / 2) by lia.
        rewrite <- (value_ones r) by done.
        rewrite <- Z.add_assoc. f_equal. rewrite Z.add_comm. f_equal.
        apply ones_ext. intros i Hi. simpl.
        by replace (range_b l <? i) with false by (symmetry; apply Z.ltb_ge; lia).
Qed.

Lemma leaf_value_apply_bit o t size :
  covers 0 size t → sums t → size < 2 ^ 31 → valid_ops size t [o] →
  sums (apply_op t o).
Proof.
  intros Hc Hs Hsz [Hv _]. destruct o as [i|i]; simpl.
  - destruct Hv. by apply (set_spec t 0 size i).
  - destruct Hv. by apply (unset_spec t 0 size i).
Qed.

Lemma run_ops_invariant ops : ∀ t size,
  covers 0 size t → sums t → size < 2 ^ 31 → valid_ops size t ops →
  covers 0 size (run_ops t ops) ∧ sums (run_ops t ops).
Proof.
  induction ops as [|o ops IH]; intros t size Hc Hs Hsz Hv; [done|].
  destruct Hv as [Ho Hv]. simpl. apply IH; [by apply covers_apply_op| |done|done].
  apply (leaf_value_apply_bit o t size); simpl; auto.
Qed.

(** Within the exact range of the float macros, [count] is the number of
    1-leaves strictly to the right of [target]. *)
Lemma count_ones_right size t ops target :
  1 ≤ size ≤ 2 ^ 24 → Tree.Tree size = Some t → valid_ops size t ops →
  0 ≤ target < size →
  Tree.count (run_ops t ops) target = ones (run_ops t ops) (target + 1) size.
Proof.
  intros Hsz Ht Hv Htg.
  destruct (Tree_exact size Hsz) as (t' & Ht' & Hc & Hz).
  rewrite Ht in Ht'. injection Ht' as <-.
  destruct (zeros_sums _ Hz) as [Hs _].
  destruct (run_ops_invariant ops t size) as [Hc' Hs']; [done|done|lia|done|].
  pose proof (value_bounds _ _ _ Hc' Hs').
  unfold Tree.count. rewrite (count_from_spec _ 0 size); [done|done|done|lia..].
Qed.

Lemma zeros_leaf_value i t : zeros t → Tree.leaf_value i t = 0.
Proof.
  induction t as [b v|b v l IHl r IHr]; simpl; [done|].
  intros (_ & Hl & Hr). destruct (_ <? _); auto.
Qed.

Lemma leaf_value_set_same i t : Tree.leaf_value i (Tree.set i t) = 1.
Proof.
  induction t as [b v|b v l IHl r IHr]; simpl; [done|].
  destruct (range_b l <? i) eqn:E; simpl; rewrite ?range_b_set, E; done.
Qed.

(** A target at or beyond the last index of a node has nothing to its
    right. *)
Lemma count_from_last t : ∀ start size target acc,
  covers start size t → start + size - 1 ≤ target →
  Tree.count_from t target acc = acc.
Proof.
  induction t as [b v|b v l IHl r IHr]; intros start size target acc; simpl; [done|].
  intros (H1 & -> & Hb & Hl & Hr) Ht.
  pose proof (halves size H1) as (? & ? & ? & ?).
  destruct (v =? 0); [done|].
  replace (range_b l <? target) with true by (symmetry; apply Z.ltb_lt; lia).
  apply (IHr (start + (size + 1) / 2) (size / 2)); [done|lia].
Qed.

Lemma fill_tree_S f start size :
  Tree.fill_tree (S f) start size =
  if 1 <? size then
    l ← Tree.fill_tree f start (CEIL_DIV size 2);
    r ← Tree.fill_tree f (u32 (start + CEIL_DIV size 2)) (FLOOR_DIV size 2);
    Some (Inner (u32 (start + size - 1)) 0 l r)
  else Some (Leaf (u32 (start + size - 1)) 0).
Proof. done. Qed.

(** C7 (as stated) fails: the root of [Tree(2)] covers [[0, 2)] and
    stores 1, the last index of its own range, not 0. *)
Lemma fill_tree_range_b_counterexample :
  ∃ t, Tree.Tree 2 = Some t ∧ ¬ claimed_layout 0 2 t.
Proof.
  exists (Inner 1 0 (Leaf 0 0) (Leaf 1 0)). split; [by vm_compute|].
  simpl. intros [H _]. vm_compute in H. discriminate.
Qed.

(** C7 (amended): for [1 ≤ size ≤ 2^24], [Tree(size)] is built and every
    node of index range [[start, start + size)] stores its own last index
    [start + size - 1]; the children of an inner node cover
    [(start, ceil (size / 2))] and [(start + ceil (size / 2), floor (size / 2))],
    so the [range_b] of the left child, which the descents compare the
    target with, is [start + ceil (size / 2) - 1]. *)
Theorem fill_tree_layout size :
  1 ≤ size ≤ 2 ^ 24 → ∃ t, Tree.Tree size = Some t ∧ covers 0 size t.
Proof.
  intros H. destruct (Tree_exact size H) as (t & Ht & Hc & _). eauto.
Qed.

Lemma fill_tree_layout_witness :
  ∃ t, Tree.Tree 5 = Some t ∧ covers 0 5 t.
Proof. apply (fill_tree_layout 5). lia. Defined.

(** C6: beyond the exact range of the float macros the tree loses indices.
    At the root of [Tree(33554433)] both [CEIL_DIV] and [FLOOR_DIV] give
    16777216, so the children cover [[0, 33554432)] and there is no leaf for
    index 33554432: setting it writes the leaf of 33554431, and
    [count(33554431)] returns 0 although one index to its right holds 1. *)
Theorem count_wrong_above_float_range :
  ∃ l r,
    Tree.Tree 33554433 = Some (Inner 33554432 0 l r)
    ∧ covers 0 16777216 l ∧ covers 16777216 16777216 r
    ∧ valid_ops 33554433 (Inner 33554432 0 l r) [OpSet 33554432]
    ∧ Tree.count (run_ops (Inner 33554432 0 l r) [OpSet 33554432]) 33554431 = 0
    ∧ ones (run_ops (Inner 33554432 0 l r) [OpSet 33554432]) (33554431 + 1) 33554433 = 1.
Proof.
  unfold Tree.Tree. change Tree.max_levels with (S 63). rewrite fill_tree_S.
  change (1 <? 33554433) with true.
  replace (CEIL_DIV 33554433 2) with 16777216 by (by vm_compute).
  replace (FLOOR_DIV 33554433 2) with 16777216 by (by vm_compute).
  change (u32 (0 + 16777216)) with 16777216.
  change (u32 (0 + 33554433 - 1)) with 33554432.
  destruct (fill_tree_exact 62 0 16777216) as (l & -> & Hcl & Hzl); [lia..|].
  destruct (fill_tree_exact 62 16777216 16777216) as (r & -> & Hcr & Hzr); [lia..|].
  pose proof (covers_range_b _ _ _ Hcl) as Hb.
  exists l, r. split; [done|]. split; [done|]. split; [done|].
  assert (Hlt : ∀ i, 16777216 ≤ i → (range_b l <? i) = true).
  { intros i Hi. apply Z.ltb_lt. lia. }
  split; [|split].
  - simpl. rewrite Hlt by lia. rewrite zeros_leaf_value by done. lia.
  - unfold Tree.count. simpl. rewrite !Hlt by lia. simpl. rewrite Hlt by lia.
    apply (count_from_last _ 16777216 16777216); [by apply covers_set|lia].
  - change (33554433) with (33554432 + 1) at 1. rewrite ones_single.
    + simpl. rewrite !Hlt by lia. simpl. rewrite Hlt by lia. apply leaf_value_set_same.
    + right. simpl. rewrite !Hlt by lia. simpl. rewrite Hlt by lia.
      apply leaf_value_set_same.
Qed.

(** ** The set hash *)

Lemma bits_loop_testbit n : ∀ a i,
  0 ≤ a → (i < n)%nat →
  bits_loop n a !! i = Some (Z.b2z (Z.testbit a (Z.of_nat i))).
Proof.
  induction n as [|n IH]; intros a i Ha Hi; [lia|].
  destruct i as [|i].
  - simpl. destruct (a =? 0) eqn:E; simpl.
    + apply Z.eqb_eq in E. by subst a.
    + by rewrite <- Z.bit0_mod.
  - rewrite Nat2Z.inj_succ.
    change (bits_loop (S n) a !! S i) with
      ((if a =? 0 then 0 :: bits_loop n a else (a mod 2) :: bits_loop n (a / 2)) !! S i).
    destruct (a =? 0) eqn:E.
    + apply Z.eqb_eq in E. subst a.
      change ((0 :: bits_loop n 0) !! S i) with (bits_loop n 0 !! i).
      rewrite IH by lia. by rewrite !Z.testbit_0_l.
    + change (((a mod 2) :: bits_loop n (a / 2)) !! S i) with (bits_loop n (a / 2) !! i).
      rewrite IH; [|by apply Z.div_pos|lia].
      rewrite Z.div2_bits by lia. done.
Qed.

Lemma bit_bits_loop a (i : nat) :
  0 ≤ a → (i < 32)%nat → bit (bits_loop 32 a) i = fermi_bit a (Z.of_nat i).
Proof. intros Ha Hi. unfold bit. by rewrite bits_loop_testbit. Qed.

Lemma fermi_bit_range a i : 0 ≤ fermi_bit a i ≤ 1.
Proof. unfold fermi_bit. destruct (Z.testbit a i); simpl; lia. Qed.

Lemma lxor_lt_pow2 a b n :
  0 ≤ n → 0 ≤ a < 2 ^ n → 0 ≤ b < 2 ^ n → 0 ≤ Z.lxor a b < 2 ^ n.
Proof.
  intros Hn Ha Hb.
  assert (H0 : 0 ≤ Z.lxor a b) by (apply Z.lxor_nonneg; lia).
  split; [done|].
  destruct (Z.eq_dec (Z.lxor a b) 0) as [->|Hne]; [apply Z.pow_pos_nonneg; lia|].
  apply Z.log2_lt_pow2; [lia|].
  pose proof (Z.log2_lxor a b ltac:(lia) ltac:(lia)) as Hl.
  assert (0 < n).
  { destruct (Z.eq_dec n 0) as [->|]; [|lia].
    assert (a = 0) as -> by lia. assert (b = 0) as -> by lia. done. }
  assert (Z.log2 a < n).
  { destruct (Z.eq_dec a 0) as [->|]; [simpl|apply Z.log2_lt_pow2]; lia. }
  assert (Z.log2 b < n).
  { destruct (Z.eq_dec b 0) as [->|]; [simpl|apply Z.log2_lt_pow2]; lia. }
  lia.
Qed.

(** C8: in the default (Fermi) mode [line_addr_to_set] returns
    [((g1 XOR g2) + 32 * b5) mod num_sets] over the bits of [line_addr],
    whatever [addr] and [cache_bytes] are; the result is below [num_sets],
    and with one set it is 0. *)
Theorem line_addr_to_set_fermi line_addr addr num_sets cache_bytes :
  0 ≤ line_addr → 0 < num_sets →
  line_addr_to_set line_addr addr num_sets cache_bytes
    = Some (fermi_hash line_addr num_sets)
  ∧ 0 ≤ fermi_hash line_addr num_sets < num_sets
  ∧ line_addr_to_set line_addr addr 1 cache_bytes = Some 0.
Proof.
  intros Ha Hn.
  assert (Hgen : ∀ ns, 0 < ns →
            line_addr_to_set line_addr addr ns cache_bytes = Some (fermi_hash line_addr ns)).
  { intros ns Hns. unfold line_addr_to_set, line_addr_to_set_with, MAPPING_TYPE.
    change (2 =? 0) with false. change (2 =? 1) with false. change (2 =? 2) with true.
    cbv iota. replace (ns =? 0) with false by (symmetry; apply Z.eqb_neq; lia).
    rewrite !(bit_bits_loop line_addr) by (done || lia).
    unfold fermi_hash. change (Z.of_nat 0) with 0. change (Z.of_nat 1) with 1.
    change (Z.of_nat 2) with 2. change (Z.of_nat 3) with 3. change (Z.of_nat 4) with 4.
    change (Z.of_nat 5) with 5. change (Z.of_nat 6) with 6. change (Z.of_nat 7) with 7.
    change (Z.of_nat 8) with 8. change (Z.of_nat 10) with 10. change (Z.of_nat 12) with 12.
    pose proof (fermi_bit_range line_addr 0). pose proof (fermi_bit_range line_addr 1).
    pose proof (fermi_bit_range line_addr 2). pose proof (fermi_bit_range line_addr 3).
    pose proof (fermi_bit_range line_addr 4). pose proof (fermi_bit_range line_addr 5).
    pose proof (fermi_bit_range line_addr 6). pose proof (fermi_bit_range line_addr 7).
    pose proof (fermi_bit_range line_addr 8). pose proof (fermi_bit_range line_addr 10).
    pose proof (fermi_bit_range line_addr 12).
    rewrite (u32_small (fermi_bit line_addr 0 + _ + _ + _ + _)) by lia.
    rewrite (u32_small (fermi_bit line_addr 6 + _ + _ + _ + _)) by lia.
    set (g1 := fermi_bit line_addr 0 + _ + _ + _ + _).
    set (g2 := fermi_bit line_addr 6 + _ + _ + _ + _).
    set (g1' := fermi_bit line_addr 0 + _ + _ + _ + _).
    set (g2' := fermi_bit line_addr 6 + _ + _ + _ + _).
    assert (g1 = g1') as -> by (unfold g1, g1'; lia).
    assert (g2 = g2') as -> by (unfold g2, g2'; lia).
    pose proof (lxor_lt_pow2 g1' g2' 5 ltac:(lia) ltac:(unfold g1'; lia) ltac:(unfold g2'; lia)).
    rewrite u32_small by lia. do 2 f_equal. lia. }
  split; [by apply Hgen|]. split.
  - apply Z.mod_pos_bound. lia.
  - rewrite Hgen by lia. f_equal. unfold fermi_hash. apply Z.mod_1_r.
Qed.

Lemma line_addr_to_set_fermi_witness :
  line_addr_to_set 4711 603008 32 16384 = Some (fermi_hash 4711 32)
  ∧ 0 ≤ fermi_hash 4711 32 < 32
  ∧ line_addr_to_set 4711 603008 1 16384 = Some 0.
Proof. apply (line_addr_to_set_fermi 4711 603008 32 16384); lia. Defined.

(** ** Threads *)

(** C9: [unschedule] on a positive program counter rewinds it by exactly
    one step and touches nothing else; called right after a [schedule] it
    gives back the thread as it was, and the next [schedule] returns the
    same access again. *)
Theorem unschedule_rewinds t th a th1 :
  0 < Thread.pc t →
  0 ≤ Thread.pc th < 2 ^ 32 →
  Thread.schedule th = Some (a, th1) →
  0 < Thread.pc th1 →
  Thread.unschedule t = Some (Thread.with_pc (Thread.pc t - 1) t)
  ∧ Thread.unschedule th1 = Some th
  ∧ ∃ th2, Thread.unschedule th1 = Some th2 ∧ Thread.schedule th2 = Some (a, th1).
Proof.
  intros Ht Hpc Hs Hpos. split.
  - unfold Thread.unschedule.
    by replace (0 <? Thread.pc t) with true by (symmetry; apply Z.ltb_lt; lia).
  - assert (Hu : Thread.unschedule th1 = Some th).
    { unfold Thread.schedule in Hs.
      destruct (vget _ _) as [a'|]; simpl in Hs; [|done].
      injection Hs as <- <-. unfold Thread.unschedule. simpl in *.
      replace (0 <? u32 (Thread.pc th + 1)) with true by (symmetry; apply Z.ltb_lt; lia).
      f_equal. destruct th as [w b p l]. unfold Thread.with_pc. simpl in *. f_equal.
      unfold u32 in *.
      destruct (Z.eq_dec p (2 ^ 32 - 1)) as [->|]; [by vm_compute in Hpos|].
      rewrite Z.mod_small; lia. }
    split; [done|]. exists th. done.
Qed.

Lemma unschedule_rewinds_witness :
  let th := thread_of [read 0 4; read 128 4] in
  let th1 := Thread.with_pc 1 th in
  Thread.unschedule th1 = Some (Thread.with_pc (Thread.pc th1 - 1) th1)
  ∧ Thread.unschedule th1 = Some th
  ∧ ∃ th2, Thread.unschedule th1 = Some th2
           ∧ Thread.schedule th2 = Some (read 0 4, th1).
Proof.
  intros th th1.
  apply (unschedule_rewinds th1 th (read 0 4) th1); [by vm_compute..].
Defined.

(** ** The request book *)

(** C10: a line address added at two arrival times counts once, and
    taking the requests of the first time removes it from the unique set
    although the request of the second time is still queued. *)
Theorem get_requests_forgets_queued_address a t1 t2 s :
  t1 ≠ t2 →
  let r := Requests.add a t2 s (Requests.add a t1 s Requests.new) in
  Requests.get_num_requests r = 1
  ∧ (Requests.get_requests t1 r).1 = [mkRequest a s]
  ∧ Requests.get_num_requests (Requests.get_requests t1 r).2 = 0
  ∧ Requests.request_list (Requests.get_requests t1 r).2 !! t2 = Some [mkRequest a s].
Proof.
  intros Hne r.
  assert (Hr : r = Requests.mk (<[t2 := [mkRequest a s]]> (<[t1 := [mkRequest a s]]> ∅))
                               {[u32 a]}).
  { unfold r, Requests.add, Requests.new.
    cbn [Requests.request_list Requests.unique_requests].
    rewrite lookup_empty, lookup_insert_ne, lookup_empty by done.
    f_equal. by rewrite union_empty_r_L, union_idemp_L. }
  rewrite Hr. unfold Requests.get_num_requests, Requests.get_requests.
  cbn [Requests.request_list Requests.unique_requests fst snd].
  rewrite lookup_insert_ne, lookup_insert_eq by done.
  cbn [default foldl addr id].
  rewrite size_singleton, difference_diag_L, size_empty.
  repeat split; try done.
  rewrite lookup_delete_ne by done. by rewrite lookup_insert_eq.
Qed.

Lemma get_requests_forgets_queued_address_witness :
  let r := Requests.add 7 20 3 (Requests.add 7 10 3 Requests.new) in
  Requests.get_num_requests r = 1
  ∧ (Requests.get_requests 10 r).1 = [mkRequest 7 3]
  ∧ Requests.get_num_requests (Requests.get_requests 10 r).2 = 0
  ∧ Requests.request_list (Requests.get_requests 10 r).2 !! 20 = Some [mkRequest 7 3].
Proof. apply (get_requests_forgets_queued_address 7 10 20 3). lia. Defined.

(** ** Loops *)

Lemma foldM_invariant {A B} (f : B → A → option B) (I : B → Prop) l : ∀ b b',
  (∀ b x b', x ∈ l → I b → f b x = Some b' → I b') →
  I b → foldM f l b = Some b' → I b'.
Proof.
  induction l as [|x l IH]; intros b b' Hstep Hb; simpl.
  - by intros [= <-].
  - destruct (f b x) as [b1|] eqn:E; simpl; [|done].
    apply IH.
    + intros b2 y b3 Hy. apply Hstep. by right.
    + apply (Hstep b x); [by left|done|done].
Qed.

Lemma foldM_cons {A B} (f : B → A → option B) x l b :
  foldM f (x :: l) b = f b x ≫= foldM f l.
Proof. done. Qed.

Lemma vget_Some {A} (v : list A) i x :
  vget v i = Some x → 0 ≤ i ∧ v !! Z.to_nat i = Some x.
Proof. unfold vget. destruct (i <? 0) eqn:E; [done|]. apply Z.ltb_ge in E. auto. Qed.

Lemma vset_Some {A} (v v' : list A) i x :
  vset v i x = Some v' → 0 ≤ i ∧ v' = <[Z.to_nat i := x]> v ∧ is_Some (v !! Z.to_nat i).
Proof.
  unfold vset. destruct (vget v i) as [y|] eqn:E; [|done].
  apply vget_Some in E as [? ?]. intros [= <-]. eauto.
Qed.

(** ** The scheduler *)

(** The warp ids of the threads, which coalescing leaves alone. *)
Lemma upd_access_warpid f tid access ths ths' :
  upd_access f tid access ths = Some ths' →
  Thread.warpid <$> ths' = Thread.warpid <$> ths.
Proof.
  unfold upd_access. intros H.
  destruct (vget ths tid) as [th|] eqn:E1; simpl in H; [|done].
  destruct (vget (Thread.accesses th) access) as [a|]; simpl in H; [|done].
  destruct (vset (Thread.accesses th) access (f a)) as [l|]; simpl in H; [|done].
  apply vset_Some in H as (? & -> & _). apply vget_Some in E1 as [_ E1].
  rewrite list_fmap_insert. apply list_insert_id.
  by rewrite list_lookup_fmap, E1.
Qed.

Lemma coalesce_scan_warpid hw warp access tid line olds : ∀ ths r,
  coalesce_scan hw warp access tid line olds ths = Some (Some r) →
  Thread.warpid <$> r = Thread.warpid <$> ths.
Proof.
  induction olds as [|o olds IH]; intros ths r; simpl; [done|].
  destruct (vget warp o) as [old_tid|]; simpl; [|done].
  destruct (get_access old_tid access ths) as [old_a|]; simpl; [|done].
  destruct (line =? _); [|by apply IH].
  destruct (upd_access (set_width 0) tid access ths) as [t1|] eqn:E1; simpl; [|done].
  destruct (get_access tid access t1) as [this_a|]; simpl; [|done].
  destruct (get_access old_tid access t1) as [old_a1|]; simpl; [|done].
  apply upd_access_warpid in E1.
  destruct (negb _).
  - destruct (upd_access _ old_tid access t1) as [t2|] eqn:E2; simpl; [|done].
    destruct (upd_access _ old_tid access t2) as [t3|] eqn:E3; simpl; [|done].
    apply upd_access_warpid in E2, E3. intros [= <-]. congruence.
  - intros [= <-]. done.
Qed.

Lemma coalesce_thread_warpid hw warp access ths done tnum ths' done' :
  coalesce_thread hw warp access (ths, done) tnum = Some (ths', done') →
  Thread.warpid <$> ths' = Thread.warpid <$> ths.
Proof.
  unfold coalesce_thread.
  destruct (vget warp tnum) as [tid|]; simpl; [|done].
  destruct (vget ths tid) as [th|]; simpl; [|done].
  destruct (access <? _).
  - destruct (vget (Thread.accesses th) access) as [a|]; simpl; [|done].
    destruct (_ || _); [done|].
    destruct (coalesce_scan _ _ _ _ _ _ _) as [[r|]|] eqn:E; simpl; [| |done].
    + intros [= <- <-]. by apply coalesce_scan_warpid in E.
    + by intros [= <- <-].
  - destruct (access =? _); by intros [= <- <-].
Qed.

Lemma coalesce_columns_warpid hw fuel warp : ∀ access done ths ths',
  coalesce_columns hw fuel warp access done ths = Some ths' →
  Thread.warpid <$> ths' = Thread.warpid <$> ths.
Proof.
  induction fuel as [|fuel IH]; intros access done ths ths'; simpl.
  - destruct (done <? _); [done|]. by intros [= <-].
  - destruct (done <? _); [|by intros [= <-]].
    destruct (foldM _ _ _) as [[ths1 done1]|] eqn:E; simpl; [|done].
    intros H. apply IH in H. rewrite H.
    apply (foldM_invariant _ (λ st, Thread.warpid <$> st.1 = Thread.warpid <$> ths)) in E;
      [done| |done].
    intros [t1 d1] x [t2 d2] _ Hinv Hstep. simpl in *.
    apply coalesce_thread_warpid in Hstep. congruence.
Qed.

Lemma coalesce_warps_warpid hw warps ths ths' :
  foldM (coalesce_warp hw) warps ths = Some ths' →
  Thread.warpid <$> ths' = Thread.warpid <$> ths.
Proof.
  apply (foldM_invariant _ (λ st, Thread.warpid <$> st = Thread.warpid <$> ths)); [|done].
  intros t1 w t2 _ Hinv Hstep. unfold coalesce_warp in Hstep.
  apply coalesce_columns_warpid in Hstep. congruence.
Qed.

(** Thread 0 always lands in warp 0. *)
Lemma assign_warp_first hw blocksize n ths warps ths' warps' :
  assign_warp hw blocksize n (ths, warps) 0 = Some (ths', warps') →
  Thread.warpid <$> ths' !! 0%nat = Some 0.
Proof.
  unfold assign_warp. destruct (_ || _); [done|].
  destruct (vget ths 0) as [th|]; simpl; [|done].
  rewrite Zmod_0_l, !Zdiv_0_l, Z.mul_0_l. change (u32 (0 + u32 0)) with 0.
  unfold Thread.set_warp. destruct (Thread.warpid th =? INF); simpl; [|done].
  destruct (vset ths 0 _) as [ths1|] eqn:E; simpl; [|done].
  destruct (push_at warps 0 0); simpl; [|done].
  intros [= <- <-]. apply vset_Some in E as (_ & -> & [y Hy]).
  change (Z.to_nat 0) with 0%nat.
  rewrite list_lookup_insert_eq; [done|]. by apply lookup_lt_Some in Hy.
Qed.

Lemma assign_warp_others hw blocksize n ths warps tid ths' warps' :
  0 < tid → assign_warp hw blocksize n (ths, warps) tid = Some (ths', warps') →
  ths' !! 0%nat = ths !! 0%nat.
Proof.
  intros Htid. unfold assign_warp. destruct (_ || _); [done|].
  destruct (vget ths tid) as [th|]; simpl; [|done].
  destruct (Thread.set_warp _ th) as [th'|]; simpl; [|done].
  destruct (vset ths tid th') as [ths1|] eqn:E; simpl; [|done].
  destruct (push_at _ _ _); simpl; [|done].
  intros [= <- <-]. apply vset_Some in E as (_ & -> & _).
  apply list_lookup_insert_ne. lia.
Qed.

Lemma assign_warps_first hw blocksize n ths warps ths' warps' :
  ths ≠ [] →
  foldM (assign_warp hw blocksize n) (seqZ 0 (vsize ths)) (ths, warps) = Some (ths', warps') →
  Thread.warpid <$> ths' !! 0%nat = Some 0.
Proof.
  intros Hne. assert (0 < vsize ths) by (destruct ths; [done|unfold vsize; simpl; lia]).
  rewrite seqZ_cons by done. rewrite foldM_cons.
  destruct (assign_warp hw blocksize n (ths, warps) 0) as [[t1 w1]|] eqn:E; [|done].
  apply assign_warp_first in E. cbn [mbind option_bind].
  apply (foldM_invariant _ (λ st, Thread.warpid <$> st.1 !! 0%nat = Some 0)); [|done].
  intros [t2 w2] tid [t3 w3] Htid Hinv Hstep. simpl in *.
  apply elem_of_seqZ in Htid.
  apply assign_warp_others in Hstep; [|lia]. by rewrite Hstep.
Qed.

(** C4 (as stated) fails: on two threads of one warp that read the same
    line at different offsets, a second application of the scheduler to the
    threads that the first one returned stops at the assertion of
    [set_warp]; and the coalescing pass alone, run again on its own result,
    raises the width of the representative from 2 to 3. *)
Lemma schedule_threads_not_idempotent :
  let ths := [thread_of [read 0 4]; thread_of [read 4 4]] in
  ∃ ths1 warps1 blocks1 cores1,
    schedule_threads small_cache 32 ths [[]] [[]] [[]]
      = Some (ths1, warps1, blocks1, cores1)
    ∧ get_access 0 0 ths1 = Some (mkAccess 0 0 2 4 7)
    ∧ schedule_threads small_cache 32 ths1 [[]] [[]] [[]] = None
    ∧ ∃ ths2, foldM (coalesce_warp small_cache) warps1 ths1 = Some ths2
              ∧ get_access 0 0 ths2 = Some (mkAccess 0 0 3 4 7).
Proof.
  do 4 eexists. split; [by vm_compute|]. split; [by vm_compute|].
  split; [by vm_compute|]. eexists. split; by vm_compute.
Qed.

(** C4 (amended): the scheduler is not idempotent.  Whenever it succeeds
    on a non-empty thread list, applying it again to the threads it
    returned fails the assertion [warpid == INF] of [set_warp], whatever
    warp, block and core vectors it is given. *)
Theorem schedule_threads_twice_aborts hw blocksize ths warps blocks cores
    ths1 warps1 blocks1 cores1 warps2 blocks2 cores2 :
  ths ≠ [] →
  schedule_threads hw blocksize ths warps blocks cores
    = Some (ths1, warps1, blocks1, cores1) →
  schedule_threads hw blocksize ths1 warps2 blocks2 cores2 = None.
Proof.
  intros Hne H1. unfold schedule_threads in H1.
  destruct (ceil_fdiv blocksize (warp_size hw)) as [c|] eqn:Ec; simpl in H1; [|done].
  destruct (foldM (assign_warp _ _ _) _ _) as [[t1 w1]|] eqn:E1; simpl in H1; [|done].
  destruct (foldM (assign_block _) _ _) as [b1|]; simpl in H1; [|done].
  destruct (foldM (assign_core _) _ _) as [c1|]; simpl in H1; [|done].
  destruct (foldM (coalesce_warp _) _ _) as [t2|] eqn:E2; simpl in H1; [|done].
  injection H1 as <- <- <- <-.
  apply assign_warps_first in E1; [|done]. apply coalesce_warps_warpid in E2.
  assert (H0 : Thread.warpid <$> t2 !! 0%nat = Some 0).
  { rewrite <- list_lookup_fmap, E2, list_lookup_fmap. done. }
  destruct (t2 !! 0%nat) as [th0|] eqn:Eth; [|done]. injection H0 as H0.
  assert (0 < vsize t2).
  { apply lookup_lt_Some in Eth. unfold vsize. lia. }
  unfold schedule_threads. rewrite Ec. cbn [mbind option_bind].
  rewrite seqZ_cons by done. rewrite foldM_cons.
  replace (assign_warp hw blocksize (u32 c) (t2, warps2) 0)
    with (@None (list Thread.t * list (list Z))); [done|].
  unfold assign_warp. destruct (_ || _); [done|].
  change (vget t2 0) with (t2 !! 0%nat). rewrite Eth. cbn [mbind option_bind].
  unfold Thread.set_warp. rewrite H0. done.
Qed.

Lemma schedule_threads_twice_aborts_witness :
  schedule_threads small_cache 32
    [Thread.mk 0 INF 0 [mkAccess 0 0 2 4 7]; Thread.mk 0 INF 0 [mkAccess 0 4 0 4 7]]
    [[]] [[]] [[]] = None.
Proof.
  apply (schedule_threads_twice_aborts small_cache 32
           [thread_of [read 0 4]; thread_of [read 4 4]] [[]] [[]] [[]]
           _ [[0; 1]] [[0]] [[0]]).
  - done.
  - by vm_compute.
Defined.

(** ** The miss classifier *)

Lemma u32_add_idemp a b : u32 (u32 a + b) = u32 (a + b).
Proof. unfold u32. apply Zplus_mod_idemp_l. Qed.

Lemma u32_idemp a : u32 (u32 a) = u32 a.
Proof. unfold u32. apply Zmod_mod. Qed.

Lemma u32_add_swap a b c : u32 (u32 (a + b) + c) = u32 (u32 (a + c) + b).
Proof. rewrite !u32_add_idemp. f_equal. lia. Qed.

Lemma classify_comm i w j1 z1 j2 z2 y :
  classify i w j1 z1 (classify i w j2 z2 y) = classify i w j2 z2 (classify i w j1 z1 y).
Proof.
  unfold classify.
  destruct (j1 =? INF), (j2 =? INF), (w <? j1), (w <? j2), (i =? 0); simpl;
    try done; f_equal; apply u32_add_swap.
Qed.

(** A fresh entry of the histogram is classified on top of the others. *)
Lemma classify_run_insert hw i d h first second :
  d !! first = None →
  classify_run hw i (<[first := second]> d) h
  = classify i (ways_of_run hw i) first second (classify_run hw i d h).
Proof.
  intros Hd. unfold classify_run. apply map_fold_insert_L; [|done].
  intros. apply classify_comm.
Qed.

(** The runs other than run 0 leave [hits] alone. *)
Lemma classify_run_hits hw i d h :
  i ≠ 0 →
  classify_run hw i d h
  = mkTally (compulsory (classify_run hw i d 0)) (capacity (classify_run hw i d 0)) h.
Proof.
  intros Hi. unfold classify_run.
  rewrite <- (map_fold_comm_acc (classify i (ways_of_run hw i))
                (λ t, mkTally (compulsory t) (capacity t) h)); [done|].
  intros j z y. unfold classify.
  replace (i =? 0) with false by (symmetry; by apply Z.eqb_neq).
  by destruct (j =? INF), (ways_of_run hw i <? j).
Qed.


(** ** A thread's turn in the engine *)

(** What [thread_step] does for a thread whose next access has a non-zero
    width: the distance found for its line decides whether it is a miss. *)
Lemma thread_step_access hw cs cw ml nml mshr noise nmr tnum tid st mft td
    th access th1 line set distance P' :
  vget (threads st) tid = Some th →
  Thread.is_done th = false →
  Thread.schedule th = Some (access, th1) →
  width access ≠ 0 →
  line_of hw (address access) = Some line →
  set_of hw cs cw line (address access) = Some set →
  find_distance st line set = Some (distance, P') →
  thread_step hw cs cw ml nml mshr noise nmr tnum tid st mft td
  = if negb (set <? cs) then None
    else
      let st2 := with_P P' (with_threads (<[Z.to_nat tid := th1]> (threads st)) st) in
      if cw <=? distance then
        let memory_latency := u32 (ml + noise (draws st)) in
        let st3 := with_draws (S (draws st)) st2 in
        if (mshr <=? nmr) && (tnum =? 0) then
          th2 ← Thread.unschedule th1;
          Some (true, with_threads (<[Z.to_nat tid := th2]> (threads st)) st3, 0, td)
        else
          misses ← add_request (requests_miss st) line
                     (u32 (timestamp st + memory_latency)) set;
          Some (false,
                with_distances (record_distance distance (distances st))
                  (with_requests_miss misses st3),
                (if mft <? memory_latency then memory_latency else mft), td)
      else
        hits ← add_request (requests_hit st) line (u32 (timestamp st + nml)) set;
        Some (false,
              with_distances (record_distance distance (distances st))
                (with_requests_hit hits st2),
              mft, td).
Proof.
  intros Hth Hdone Hs Hw Hl Hset Hf. unfold thread_step.
  rewrite Hth. cbn [mbind option_bind]. rewrite Hdone, Hs. cbn [mbind option_bind].
  assert (Hv : vset (threads st) tid th1 = Some (<[Z.to_nat tid := th1]> (threads st)))
    by (unfold vset; by rewrite Hth).
  rewrite Hv. cbn [mbind option_bind].
  replace (width access =? 0) with false by (symmetry; by apply Z.eqb_neq).
  rewrite Hl. cbn [mbind option_bind]. rewrite Hset. cbn [mbind option_bind].
  destruct (negb (set <? cs)); [done|].
  change (find_distance (with_threads _ st) line set) with (find_distance st line set).
  rewrite Hf. cbn [mbind option_bind]. unfold is_miss.
  destruct (cw <=? distance); [|done].
  destruct ((mshr <=? nmr) && (tnum =? 0)); [|done].
  destruct (Thread.unschedule th1) as [th2|]; cbn [mbind option_bind]; [|done].
  assert (Hv2 : vset (<[Z.to_nat tid := th1]> (threads st)) tid th2
                = Some (<[Z.to_nat tid := th2]> (threads st))).
  { apply vget_Some in Hth as [Htid Hth]. unfold vset, vget.
    replace (tid <? 0) with false by (symmetry; apply Z.ltb_ge; lia).
    rewrite list_lookup_insert_eq by (by apply lookup_lt_Some in Hth).
    by rewrite list_insert_insert_eq. }
  cbn [threads with_draws with_P with_threads]. rewrite Hv2. done.
Qed.

(** C1 (as stated) fails: with four ways, an access at distance 4 is a
    miss for the engine, but the classifier counts it as a hit of run 0:
    no miss is reported and the residual is 0. *)
Lemma boundary_distance_counterexample :
  is_miss (cache_ways small_cache) 4 = true
  ∧ ∃ r, output_miss_rate [{[4 := 1]}; ∅; ∅; ∅] small_cache = Some r
         ∧ rest r = 0 ∧ total_misses r = 0 ∧ out_capacity r = 0 ∧ out_hits r = 1.
Proof. split; [done|]. eexists. split; [by vm_compute|]. done. Qed.

(** C1 (amended): the engine takes an access for a miss exactly when its
    distance is at least [cache_ways], which for [cache_ways < INF] is when
    the distance is [INF] or at least [cache_ways]: in [thread_step] such
    an access draws a memory latency and goes to the miss requests of its
    set (or is put back by the MSHR check), and any other access goes to
    the hit requests.  An access at distance exactly [cache_ways] is
    therefore a miss for the engine, but the classifier adds its frequency
    to the hits of run 0: the compulsory and capacity counts, the total of
    misses, the residual and every reported miss category are the same as
    without it. *)
Theorem boundary_distance_is_counted_as_hit hw d0 d1 d2 d3 freq r r'
    cs ml nml mshr noise nmr tnum tid st mft td th access th1 line set distance P'
    brk st' mft' td' :
  cache_ways hw < INF →
  d0 !! cache_ways hw = None →
  output_miss_rate [d0; d1; d2; d3] hw = Some r →
  output_miss_rate [<[cache_ways hw := freq]> d0; d1; d2; d3] hw = Some r' →
  vget (threads st) tid = Some th →
  Thread.is_done th = false →
  Thread.schedule th = Some (access, th1) →
  width access ≠ 0 →
  line_of hw (address access) = Some line →
  set_of hw cs (cache_ways hw) line (address access) = Some set →
  find_distance st line set = Some (distance, P') →
  thread_step hw cs (cache_ways hw) ml nml mshr noise nmr tnum tid st mft td
  = Some (brk, st', mft', td') →
  (if cache_ways hw <=? distance then
     draws st' = S (draws st)
     ∧ requests_hit st' = requests_hit st
     ∧ (if brk then
          requests_miss st' = requests_miss st ∧ distances st' = distances st
        else
          add_request (requests_miss st) line
            (u32 (timestamp st + u32 (ml + noise (draws st)))) set
          = Some (requests_miss st')
          ∧ distances st' = record_distance distance (distances st))
   else
     brk = false
     ∧ draws st' = draws st
     ∧ requests_miss st' = requests_miss st
     ∧ add_request (requests_hit st) line (u32 (timestamp st + nml)) set
       = Some (requests_hit st')
     ∧ distances st' = record_distance distance (distances st))
  ∧ (is_miss (cache_ways hw) distance = true ↔ distance = INF ∨ cache_ways hw ≤ distance)
  ∧ is_miss (cache_ways hw) (cache_ways hw) = true
  ∧ compulsory (classify_run hw 0 (<[cache_ways hw := freq]> d0) 0)
    = compulsory (classify_run hw 0 d0 0)
  ∧ capacity (classify_run hw 0 (<[cache_ways hw := freq]> d0) 0)
    = capacity (classify_run hw 0 d0 0)
  ∧ total_misses r' = total_misses r
  ∧ rest r' = rest r
  ∧ (out_compulsory r', out_capacity r', out_associativity r', out_latency r', out_mshr r')
    = (out_compulsory r, out_capacity r, out_associativity r, out_latency r, out_mshr r)
  ∧ out_hits r' = u32 (out_hits r + freq).
Proof.
  intros Hw Hd Hr Hr' Hth Hdone Hs Hwd Hl Hset Hf Hstep.
  split.
  { rewrite (thread_step_access _ _ _ _ _ _ _ _ _ _ _ _ _ _ _ _ _ _ _ _
               Hth Hdone Hs Hwd Hl Hset Hf) in Hstep.
    destruct (negb (set <? cs)); [done|]. cbv zeta in Hstep.
    destruct (cache_ways hw <=? distance).
    - destruct ((mshr <=? nmr) && (tnum =? 0)).
      + destruct (Thread.unschedule th1) as [th2|]; cbn [mbind option_bind] in Hstep; [|done].
        by injection Hstep as <- <- <- <-.
      + destruct (add_request (requests_miss st) _ _ _) as [misses|] eqn:Ea;
          cbn [mbind option_bind] in Hstep; [|done].
        by injection Hstep as <- <- <- <-.
    - destruct (add_request (requests_hit st) _ _ _) as [hits|] eqn:Ea;
        cbn [mbind option_bind] in Hstep; [|done].
      by injection Hstep as <- <- <- <-. }
  clear Hth Hdone Hs Hwd Hl Hset Hf Hstep.
  assert (Ht0 : classify_run hw 0 (<[cache_ways hw := freq]> d0) 0
                = mkTally (compulsory (classify_run hw 0 d0 0))
                          (capacity (classify_run hw 0 d0 0))
                          (u32 (hits (classify_run hw 0 d0 0) + freq))).
  { rewrite classify_run_insert by done. unfold classify, ways_of_run. simpl.
    replace (cache_ways hw =? INF) with false by (symmetry; apply Z.eqb_neq; lia).
    by rewrite Z.ltb_irrefl. }
  unfold output_miss_rate in Hr, Hr'. simpl in Hr, Hr'.
  injection Hr as <-. injection Hr' as <-.
  rewrite Ht0.
  rewrite (classify_run_hits hw 1 d1 (hits (classify_run hw 0 d0 0))) by done.
  rewrite (classify_run_hits hw 1 d1 (hits (mkTally _ _ _))) by done.
  rewrite (classify_run_hits hw 2 d2 (hits (mkTally _ _ _))) by done.
  rewrite (classify_run_hits hw 3 d3 (hits (mkTally _ _ _))) by done.
  rewrite (classify_run_hits hw 2 d2 (hits (mkTally _ _ _))) by done.
  rewrite (classify_run_hits hw 3 d3 (hits (mkTally _ _ _))) by done.
  split.
  { unfold is_miss. rewrite Z.leb_le. split; [auto|]. intros [-> |]; lia. }
  split.
  { unfold is_miss. apply Z.leb_le. lia. }
  unfold decompose. cbn [compulsory capacity hits].
  generalize (compulsory (classify_run hw 0 d0 0)) (capacity (classify_run hw 0 d0 0))
    (hits (classify_run hw 0 d0 0)) (compulsory (classify_run hw 1 d1 0))
    (capacity (classify_run hw 1 d1 0)) (compulsory (classify_run hw 2 d2 0))
    (capacity (classify_run hw 2 d2 0)) (compulsory (classify_run hw 3 d3 0))
    (capacity (classify_run hw 3 d3 0)).
  intros c0 p0 h0 c1 p1 c2 p2 c3 p3. clear.
  destruct (_ <? 0); [destruct (_ <? _); [|destruct (_ <? _)]|]; cbn; repeat split; done.
Qed.

Lemma boundary_distance_is_counted_as_hit_witness :
  let st := boundary_state in
  let st' :=
    with_distances (record_distance 4 ∅)
      (with_requests_miss [Requests.add 0 3 0 Requests.new]
         (with_draws 1
            (with_P {[0 := 1]}
               (with_threads [Thread.with_pc 1 (thread_of [read 0 4])] st)))) in
  ∃ r r',
    output_miss_rate [∅; ∅; ∅; ∅] small_cache = Some r
    ∧ output_miss_rate [<[cache_ways small_cache := 1]> ∅; ∅; ∅; ∅] small_cache = Some r'
    ∧ find_distance st 0 0 = Some (cache_ways small_cache, {[0 := 1]})
    ∧ thread_step small_cache 1 (cache_ways small_cache) 3 0 1 no_noise 0 0 0 st 0 0
      = Some (false, st', 3, 0)
    ∧ draws st' = S (draws st)
    ∧ requests_hit st' = requests_hit st
    ∧ add_request (requests_miss st) 0 (u32 (timestamp st + u32 (3 + no_noise (draws st)))) 0
      = Some (requests_miss st')
    ∧ distances st' = record_distance 4 (distances st)
    ∧ is_miss (cache_ways small_cache) (cache_ways small_cache) = true
    ∧ total_misses r' = total_misses r
    ∧ rest r' = rest r
    ∧ out_hits r' = u32 (out_hits r + 1).
Proof.
  intros st st'. do 2 eexists. split; [reflexivity|]. split; [reflexivity|].
  assert (Hf : find_distance st 0 0 = Some (cache_ways small_cache, {[0 := 1]}))
    by (by vm_compute).
  assert (Hstep : thread_step small_cache 1 (cache_ways small_cache) 3 0 1 no_noise
                    0 0 0 st 0 0 = Some (false, st', 3, 0)) by (by vm_compute).
  pose proof (boundary_distance_is_counted_as_hit small_cache ∅ ∅ ∅ ∅ 1 _ _
                1 3 0 1 no_noise 0 0 0 st 0 0
                (thread_of [read 0 4]) (read 0 4) (Thread.with_pc 1 (thread_of [read 0 4]))
                0 0 4 {[0 := 1]} false st' 3 0
                ltac:(by vm_compute) ltac:(done) eq_refl eq_refl
                ltac:(by vm_compute) ltac:(by vm_compute) ltac:(by vm_compute)
                ltac:(by vm_compute) ltac:(by vm_compute) ltac:(by vm_compute)
                Hf Hstep)
    as ((E1 & E2 & E3 & E4) & _ & H2 & _ & _ & H5 & H6 & _ & H8).
  auto 12.
Defined.

(** ** The engine *)


Lemma vget_insert_eq {A} (v : list A) i x y :
  vget v i = Some y → vget (<[Z.to_nat i := x]> v) i = Some x.
Proof.
  intros H. apply vget_Some in H as [Hi H]. unfold vget.
  replace (i <? 0) with false by (symmetry; apply Z.ltb_ge; lia).
  apply list_lookup_insert_eq. by apply lookup_lt_Some in H.
Qed.

(** [schedule] returns the access at the program counter and steps over
    it. *)
Lemma schedule_step th access th1 :
  0 ≤ Thread.pc th < 2 ^ 32 → Thread.schedule th = Some (access, th1) →
  Thread.pc th < vsize (Thread.accesses th)
  ∧ vget (Thread.accesses th) (Thread.pc th) = Some access
  ∧ th1 = Thread.with_pc (u32 (Thread.pc th + 1)) th.
Proof.
  intros Hpc. unfold Thread.schedule.
  assert (Hidx : u32 (u32 (Thread.pc th + 1) - 1) = Thread.pc th).
  { unfold u32. rewrite Zminus_mod_idemp_l.
    replace (Thread.pc th + 1 - 1) with (Thread.pc th) by lia. apply Z.mod_small. lia. }
  rewrite Hidx. destruct (vget _ _) as [a|] eqn:E; simpl; [|done].
  intros [= -> <-]. split; [|done].
  apply vget_Some in E as [_ E]. apply lookup_lt_Some in E. unfold vsize. lia.
Qed.

(** [schedule] followed by [unschedule] gives the thread back. *)
Lemma unschedule_schedule th access th1 :
  0 ≤ Thread.pc th < 2 ^ 32 - 1 → Thread.schedule th = Some (access, th1) →
  Thread.unschedule th1 = Some th.
Proof.
  intros Hpc Es. unfold Thread.schedule in Es.
  destruct (vget _ _); [|done]. injection Es as <- <-.
  unfold Thread.unschedule. simpl.
  rewrite (u32_small (Thread.pc th + 1)) by lia.
  replace (0 <? Thread.pc th + 1) with true by (symmetry; apply Z.ltb_lt; lia).
  destruct th. unfold Thread.with_pc. simpl. do 2 f_equal. lia.
Qed.


Section EngineSteps.

Variable hardware : Settings.
Variables cache_sets cache_ways mem_latency non_mem_latency num_mshr : Z.
Variable noise : nat → Z.

Local Abbreviation step :=
  (thread_step hardware cache_sets cache_ways mem_latency non_mem_latency num_mshr noise).
Local Abbreviation steps :=
  (threads_loop hardware cache_sets cache_ways mem_latency non_mem_latency num_mshr noise).




Variable warps : list (list Z).



End EngineSteps.



(** C3: on a read of 16 bytes at address 120, which ends on the next line
    of 128 bytes, phase 1 counts two accesses but the engine records a
    single distance: the run ends with [grand_total = 2] and a histogram
    that sums to 1, the mismatch that the closing sanity check reports. *)
Theorem straddling_access_breaks_sanity_check :
  ∃ ths warps blocks cores ths',
    scheduled small_cache [thread_of [read 120 16]] 32 = Some (ths, warps, blocks, cores)
    ∧ reuse_distance [0] blocks warps 1 small_cache 1 4 3 0 1 no_noise 10 ths ∅
      = Some (ths', {[INF := 1]}, 2, 1).
Proof.
  do 5 eexists. split; [by vm_compute|]. by vm_compute.
Qed.


(** ** Compulsory misses and the lines seen *)


















Lemma sum_of_insert {A} (f : A → Z) l i x y :
  l !! i = Some x → sum_of f (<[i := y]> l) = sum_of f l - f x + f y.
Proof.
  revert i. induction l as [|z l IH]; intros [|i] H; simpl in *; try done.
  - injection H as ->. lia.
  - rewrite (IH i H). lia.
Qed.




Lemma sum_of_fmap {A B} (f : B → Z) (g : A → B) l :
  sum_of f (g <$> l) = sum_of (λ x, f (g x)) l.
Proof. unfold sum_of. induction l as [|x l IH]; simpl; [done|]. by f_equal. Qed.

Lemma vsize_nonneg {A} (v : list A) : 0 ≤ vsize v.
Proof. unfold vsize. lia. Qed.



Section Invariant.

Variable hardware : Settings.
Variables cache_sets cache_ways mem_latency non_mem_latency num_mshr : Z.
Variable noise : nat → Z.

Local Abbreviation step :=
  (thread_step hardware cache_sets cache_ways mem_latency non_mem_latency num_mshr noise).
Local Abbreviation loop :=
  (threads_loop hardware cache_sets cache_ways mem_latency non_mem_latency num_mshr noise).

Local Abbreviation inv := (engine_inv hardware).







Variable warps : list (list Z).




Variable core : list Z.
Variable blocks : list (list Z).
Variable active_blocks : Z.





End Invariant.





(** ** Set, unset and count on the stack tree *)

Lemma u32_succ_pred v : 0 ≤ v < 2 ^ 32 → u32 (u32 (v + 1) - 1) = v.
Proof.
  intros H. unfold u32. rewrite Zminus_mod_idemp_l.
  replace (v + 1 - 1) with v by lia. apply Z.mod_small. lia.
Qed.

(** X1: On a well-formed tree (every node covers its index range, every leaf
    holds 0 or 1 and every inner node the sum of its children) over fewer
    than 2^32 indices, [set] on a leaf that holds 0 followed by [unset] on
    the same index gives the tree back unchanged. *)
Theorem unset_undoes_set t : ∀ start size i,
  covers start size t → sums t → size < 2 ^ 32 →
  Tree.leaf_value i t = 0 →
  Tree.unset i (Tree.set i t) = t.
Proof.
  induction t as [b v|b v l IHl r IHr]; intros start size i Hc Hs Hsz Hl.
  - simpl in *. by subst.
  - pose proof (value_bounds _ _ _ Hc Hs) as Hv. simpl in Hv.
    destruct Hc as (H1 & -> & Hb & Hcl & Hcr). destruct Hs as (Hv' & Hsl & Hsr).
    pose proof (halves size H1) as (? & ? & ? & ?).
    simpl in Hl |- *. destruct (range_b l <? i) eqn:E.
    + simpl. rewrite E, u32_succ_pred by lia.
      f_equal. eapply IHr; eauto. lia.
    + simpl. rewrite range_b_set, E, u32_succ_pred by lia.
      f_equal. eapply IHl; eauto. lia.
Qed.

Lemma unset_undoes_set_witness :
  ∃ t, Tree.Tree 5 = Some t ∧ Tree.unset 3 (Tree.set 3 t) = t.
Proof.
  destruct (Tree_exact 5) as (t & Ht & Hc & Hz); [lia|].
  exists t. split; [done|].
  apply (unset_undoes_set t 0 5 3 Hc (proj1 (zeros_sums t Hz))); [lia|].
  by apply zeros_leaf_value.
Defined.

Lemma ones_le t lo hi : lo ≤ hi → ones t lo hi ≤ hi - lo.
Proof.
  intros H. unfold ones.
  pose proof (List.filter_length_le (λ i, Tree.leaf_value i t =? 1) (seqZ lo (hi - lo))) as Hf.
  rewrite length_seqZ in Hf. lia.
Qed.

(** X2: After any sequence of [set]s of leaves holding 0 and [unset]s of
    leaves holding 1 on a freshly built tree of 1 to 2^24 indices,
    [count target] is the number of indices above [target] whose leaf
    holds 1, the root's value is the number of all leaves holding 1, and
    [count target] is at most the root's value. *)
Theorem count_and_root_value size t ops target :
  1 ≤ size ≤ 2 ^ 24 → Tree.Tree size = Some t → valid_ops size t ops →
  0 ≤ target < size →
  Tree.count (run_ops t ops) target = ones (run_ops t ops) (target + 1) size
  ∧ value (run_ops t ops) = ones (run_ops t ops) 0 size
  ∧ Tree.count (run_ops t ops) target ≤ value (run_ops t ops).
Proof.
  intros Hsz Ht Hv Htg.
  pose proof (count_ones_right size t ops target Hsz Ht Hv Htg) as Hcnt.
  destruct (Tree_exact size Hsz) as (t' & Ht' & Hc & Hz).
  rewrite Ht in Ht'. injection Ht' as <-.
  destruct (run_ops_invariant ops t size Hc (proj1 (zeros_sums t Hz))) as [Hc' Hs']; [lia|done|].
  pose proof (value_ones _ _ _ Hc' Hs') as Hval. rewrite Z.add_0_l in Hval.
  split; [done|]. split; [done|].
  rewrite Hcnt, Hval, (ones_split _ 0 (target + 1) size) by lia.
  pose proof (ones_nonneg (run_ops t ops) 0 (target + 1)). lia.
Qed.






Lemma count_and_root_value_witness :
  ∃ t, Tree.Tree 6 = Some t
  ∧ Tree.count (run_ops t [OpSet 1; OpSet 4; OpSet 5; OpUnset 4]) 2
    = ones (run_ops t [OpSet 1; OpSet 4; OpSet 5; OpUnset 4]) (2 + 1) 6
  ∧ value (run_ops t [OpSet 1; OpSet 4; OpSet 5; OpUnset 4])
    = ones (run_ops t [OpSet 1; OpSet 4; OpSet 5; OpUnset 4]) 0 6
  ∧ Tree.count (run_ops t [OpSet 1; OpSet 4; OpSet 5; OpUnset 4]) 2
    ≤ value (run_ops t [OpSet 1; OpSet 4; OpSet 5; OpUnset 4]).
Proof.
  eexists. split; [by vm_compute|].
  apply (count_and_root_value 6 _ [OpSet 1; OpSet 4; OpSet 5; OpUnset 4] 2);
    [lia|by vm_compute| |lia].
  vm_compute. intuition discriminate.
Defined.

(** X4: For sizes up to 2^24 the float macros are exact:
    [CEIL_DIV(size,2)] is [ceil (size / 2)], [FLOOR_DIV(size,2)] is
    [floor (size / 2)], and the two add up to [size]. *)
Theorem split_sizes_exact size :
  0 ≤ size ≤ 2 ^ 24 →
  CEIL_DIV size 2 = (size + 1) / 2 ∧ FLOOR_DIV size 2 = size / 2
  ∧ CEIL_DIV size 2 + FLOOR_DIV size 2 = size.
Proof.
  intros H. rewrite CEIL_DIV_exact, FLOOR_DIV_exact by done.
  split; [done|]. split; [done|]. Z.div_mod_to_equations. lia.
Qed.

Lemma split_sizes_exact_witness :
  CEIL_DIV 7 2 = (7 + 1) / 2 ∧ FLOOR_DIV 7 2 = 7 / 2 ∧ CEIL_DIV 7 2 + FLOOR_DIV 7 2 = 7.
Proof. apply (split_sizes_exact 7). lia. Defined.

(** ** The constructor beyond the exact floats *)

Lemma rne_bounds a b : 0 ≤ a → 0 < b → a / b ≤ rne a b ≤ a / b + 1.
Proof.
  intros Ha Hb. unfold rne.
  destruct (2 * (a mod b) <? b); [lia|].
  destruct (b <? 2 * (a mod b)); [lia|].
  destruct (Z.even (a / b)); lia.
Qed.

(** Rounding a quotient of at least [2^23]: the result is an integer that
    exceeds the integer quotient by at most one part in [2^23]. *)
Lemma fl_round_big p q k :
  0 < q → 23 ≤ k → 2 ^ k * q ≤ p →
  ∃ m, fl_round p q = (m, 1) ∧ 2 ^ k ≤ m ∧ m * 2 ^ 23 ≤ (p / q) * (2 ^ 23 + 1).
Proof.
  intros Hq Hk Hp.
  assert (Hpk : 0 < 2 ^ k) by (apply Z.pow_pos_nonneg; lia).
  assert (Hd : 2 ^ k ≤ p / q) by (apply Z.div_le_lower_bound; lia).
  unfold fl_round.
  replace (p =? 0) with false by (symmetry; apply Z.eqb_neq; nia).
  unfold flog2. replace (q <=? p) with true by (symmetry; apply Z.leb_le; nia).
  set (d := p / q) in *. set (L := Z.log2 d).
  assert (HL : k ≤ L) by (apply Z.log2_le_pow2; lia).
  destruct (Z.log2_spec d) as [HL1 HL2]; [lia|]. fold L in HL1, HL2.
  replace (0 <=? L - 23) with true by (symmetry; apply Z.leb_le; lia).
  set (E := 2 ^ (L - 23)).
  assert (HE : 0 < E) by (apply Z.pow_pos_nonneg; lia).
  assert (HLE : 2 ^ L = 2 ^ 23 * E).
  { unfold E. rewrite <- Z.pow_add_r by lia. f_equal. lia. }
  assert (HkL : 2 ^ k ≤ 2 ^ L) by (apply Z.pow_le_mono_r; lia).
  pose proof (rne_bounds p (q * E)) as Hr.
  rewrite <- Z.div_div in Hr by lia. fold d in Hr.
  assert (Hde : 2 ^ 23 ≤ d / E) by (apply Z.div_le_lower_bound; lia).
  assert (Hde' : d / E * E ≤ d) by (rewrite Z.mul_comm; apply Z.mul_div_le; lia).
  exists (rne p (q * E) * E). split; [done|].
  assert (0 ≤ p) by nia. specialize (Hr ltac:(lia) ltac:(nia)).
  split; nia.
Qed.

(** Halving a float of at least [2^24]. *)
Lemma half_big n :
  2 ^ 24 ≤ n →
  0 ≤ fl_trunc (fl_div (float_of_Z n) (float_of_Z 2))
  ∧ 4 * fl_trunc (fl_div (float_of_Z n) (float_of_Z 2)) ≤ 3 * (n - 1).
Proof.
  intros Hn. rewrite float_of_2. unfold float_of_Z.
  destruct (fl_round_big n 1 24) as (m & -> & Hm1 & Hm2); [lia..|].
  rewrite Z.div_1_r in Hm2. unfold fl_div. cbn [fst snd].
  destruct (fl_round_big (m * 2 ^ 22) (1 * (2 * 2 ^ 22)) 23) as (m' & -> & Hm1' & Hm2');
    [lia..|].
  rewrite Z.mul_1_l, Z.div_mul_cancel_r in Hm2' by lia.
  unfold fl_trunc. cbn [fst snd]. rewrite Z.div_1_r.
  assert (2 * (m / 2) ≤ m) by (Z.div_mod_to_equations; lia).
  lia.
Qed.

Lemma split_sizes_shrink size :
  2 ^ 24 < size < 2 ^ 32 →
  0 ≤ CEIL_DIV size 2 ∧ 4 * CEIL_DIV size 2 ≤ 3 * size
  ∧ 0 ≤ FLOOR_DIV size 2 ∧ 4 * FLOOR_DIV size 2 ≤ 3 * size.
Proof.
  intros H. split; [|split].
  - unfold CEIL_DIV. replace (size + 2 - 1) with (size + 1) by lia.
    destruct (Z.eq_dec size (2 ^ 32 - 1)) as [->|]; [by vm_compute|].
    rewrite u32_small by lia. apply (half_big (size + 1)). lia.
  - unfold CEIL_DIV. replace (size + 2 - 1) with (size + 1) by lia.
    destruct (Z.eq_dec size (2 ^ 32 - 1)) as [->|]; [by vm_compute|].
    rewrite u32_small by lia.
    pose proof (half_big (size + 1)). lia.
  - unfold FLOOR_DIV. pose proof (half_big size). lia.
Qed.

Lemma fill_tree_small f : ∀ start size,
  size ≤ 2 ^ 24 → size ≤ 2 ^ Z.of_nat f → is_Some (Tree.fill_tree (S f) start size).
Proof.
  induction f as [|f IH]; intros start size Hs Hf.
  - simpl in Hf. simpl. replace (1 <? size) with false by (symmetry; apply Z.ltb_ge; lia).
    done.
  - rewrite fill_tree_S. destruct (1 <? size) eqn:E1; [|done].
    apply Z.ltb_lt in E1.
    rewrite CEIL_DIV_exact, FLOOR_DIV_exact by lia.
    pose proof (pow2_half size f E1 Hf) as Hl.
    pose proof (halves size E1) as (? & ? & ? & ?).
    destruct (IH start ((size + 1) / 2)) as [l ->]; [lia..|].
    destruct (IH (u32 (start + (size + 1) / 2)) (size / 2)) as [r ->]; [lia..|].
    done.
Qed.

Lemma fill_tree_big k : ∀ start size,
  0 ≤ size < 2 ^ 32 → size * 3 ^ Z.of_nat k ≤ 2 ^ 24 * 4 ^ Z.of_nat k →
  is_Some (Tree.fill_tree (S (24 + k)) start size).
Proof.
  induction k as [|k IH]; intros start size Hs Hk.
  - apply fill_tree_small; [|change (Z.of_nat (24 + 0)) with 24]; simpl in Hk; lia.
  - destruct (Z.le_gt_cases size (2 ^ 24)) as [Hle|Hgt].
    + apply fill_tree_small; [done|].
      transitivity (2 ^ 24); [done|]. apply Z.pow_le_mono_r; lia.
    + rewrite fill_tree_S. replace (1 <? size) with true by (symmetry; apply Z.ltb_lt; lia).
      destruct (split_sizes_shrink size) as (Hc0 & Hc & Hf0 & Hf); [lia|].
      rewrite Nat2Z.inj_succ, !Z.pow_succ_r in Hk by lia.
      assert (0 < 3 ^ Z.of_nat k) by (apply Z.pow_pos_nonneg; lia).
      assert (0 < 4 ^ Z.of_nat k) by (apply Z.pow_pos_nonneg; lia).
      replace (24 + S k)%nat with (S (24 + k)) by lia.
      destruct (IH start (CEIL_DIV size 2)) as [l ->]; [lia|nia|].
      destruct (IH (u32 (start + CEIL_DIV size 2)) (FLOOR_DIV size 2)) as [r ->]; [lia|nia|].
      done.
Qed.

(** X5: The constructor builds a tree for every [unsigned] size: the
    recursion of [fill_tree] ends within [max_levels] levels, also where
    the float macros round. *)
Theorem Tree_total size : 0 ≤ size < 2 ^ 32 → ∃ t, Tree.Tree size = Some t.
Proof.
  intros H. unfold Tree.Tree, Tree.max_levels.
  change 64%nat with (S (24 + 39)).
  apply fill_tree_big; [done|].
  change (Z.of_nat 39) with 39. lia.
Qed.

Lemma Tree_total_witness : ∃ t, Tree.Tree 33554433 = Some t.
Proof. apply (Tree_total 33554433). lia. Defined.

(** ** The range of the set hash *)

Lemma fermi_groups a :
  let b := fermi_bit a in
  0 ≤ Z.lxor (b 0 + 2 * b 1 + 4 * b 2 + 8 * b 3 + 16 * b 4)
             (b 6 + 2 * b 7 + 4 * b 8 + 8 * b 10 + 16 * b 12) + 32 * b 5 < 64.
Proof.
  intros b. unfold b.
  pose proof (fermi_bit_range a 0). pose proof (fermi_bit_range a 1).
  pose proof (fermi_bit_range a 2). pose proof (fermi_bit_range a 3).
  pose proof (fermi_bit_range a 4). pose proof (fermi_bit_range a 5).
  pose proof (fermi_bit_range a 6). pose proof (fermi_bit_range a 7).
  pose proof (fermi_bit_range a 8). pose proof (fermi_bit_range a 10).
  pose proof (fermi_bit_range a 12).
  set (g1 := fermi_bit a 0 + _ + _ + _ + _).
  set (g2 := fermi_bit a 6 + _ + _ + _ + _).
  pose proof (lxor_lt_pow2 g1 g2 5 ltac:(lia) ltac:(unfold g1; lia) ltac:(unfold g2; lia)).
  lia.
Qed.

Lemma line_addr_to_set_hash line_addr addr num_sets cache_bytes :
  0 ≤ line_addr →
  line_addr_to_set line_addr addr num_sets cache_bytes
  = if num_sets =? 0 then None else Some (fermi_hash line_addr num_sets).
Proof.
  intros Ha. unfold line_addr_to_set, line_addr_to_set_with, MAPPING_TYPE.
  change (2 =? 0) with false. change (2 =? 1) with false. change (2 =? 2) with true.
  cbv iota. destruct (num_sets =? 0); [done|].
  rewrite !(bit_bits_loop line_addr) by (done || lia).
  unfold fermi_hash. change (Z.of_nat 0) with 0. change (Z.of_nat 1) with 1.
  change (Z.of_nat 2) with 2. change (Z.of_nat 3) with 3. change (Z.of_nat 4) with 4.
  change (Z.of_nat 5) with 5. change (Z.of_nat 6) with 6. change (Z.of_nat 7) with 7.
  change (Z.of_nat 8) with 8. change (Z.of_nat 10) with 10. change (Z.of_nat 12) with 12.
  pose proof (fermi_bit_range line_addr 0). pose proof (fermi_bit_range line_addr 1).
  pose proof (fermi_bit_range line_addr 2). pose proof (fermi_bit_range line_addr 3).
  pose proof (fermi_bit_range line_addr 4). pose proof (fermi_bit_range line_addr 5).
  pose proof (fermi_bit_range line_addr 6). pose proof (fermi_bit_range line_addr 7).
  pose proof (fermi_bit_range line_addr 8). pose proof (fermi_bit_range line_addr 10).
  pose proof (fermi_bit_range line_addr 12).
  rewrite (u32_small (fermi_bit line_addr 0 + _ + _ + _ + _)) by lia.
  rewrite (u32_small (fermi_bit line_addr 6 + _ + _ + _ + _)) by lia.
  set (g1 := fermi_bit line_addr 0 + _ + _ + _ + _).
  set (g2 := fermi_bit line_addr 6 + _ + _ + _ + _).
  set (g1' := fermi_bit line_addr 0 + _ + _ + _ + _).
  set (g2' := fermi_bit line_addr 6 + _ + _ + _ + _).
  assert (g1 = g1') as -> by (unfold g1, g1'; lia).
  assert (g2 = g2') as -> by (unfold g2, g2'; lia).
  pose proof (lxor_lt_pow2 g1' g2' 5 ltac:(lia) ltac:(unfold g1'; lia) ltac:(unfold g2'; lia)).
  rewrite u32_small by lia. do 2 f_equal. lia.
Qed.

(** X6: [line_addr_to_set] returns, for every line address and every
    non-zero number of sets, a set below [num_sets] and below 64: a cache
    with more than 64 sets never uses the sets from 64 on. *)
Theorem fermi_uses_at_most_64_sets line_addr addr num_sets cache_bytes :
  0 ≤ line_addr → 0 < num_sets →
  ∃ s, line_addr_to_set line_addr addr num_sets cache_bytes = Some s
       ∧ 0 ≤ s < Z.min num_sets 64.
Proof.
  intros Ha Hn. rewrite line_addr_to_set_hash by done.
  replace (num_sets =? 0) with false by (symmetry; apply Z.eqb_neq; lia).
  eexists; split; [done|]. unfold fermi_hash.
  pose proof (fermi_groups line_addr) as Hg. cbv zeta in Hg.
  set (h := Z.lxor _ _ + _) in *.
  pose proof (Z.mod_pos_bound h num_sets Hn).
  pose proof (Z.mod_le h num_sets ltac:(lia) Hn). lia.
Qed.

Lemma fermi_uses_at_most_64_sets_witness :
  ∃ s, line_addr_to_set 4711 603008 128 65536 = Some s ∧ 0 ≤ s < Z.min 128 64.
Proof. apply (fermi_uses_at_most_64_sets 4711 603008 128 65536); lia. Defined.

(** X7: The set depends on the bits 0..8, 10 and 12 of the line address
    alone: two line addresses that agree there map to the same set,
    whatever the byte addresses and cache sizes passed along. *)
Theorem fermi_reads_eleven_bits line_addr line_addr' addr addr' num_sets cache_bytes cache_bytes' :
  0 ≤ line_addr → 0 ≤ line_addr' →
  (∀ i, i ∈ fermi_positions → Z.testbit line_addr i = Z.testbit line_addr' i) →
  line_addr_to_set line_addr addr num_sets cache_bytes
  = line_addr_to_set line_addr' addr' num_sets cache_bytes'.
Proof.
  intros Ha Ha' H. rewrite !line_addr_to_set_hash by done.
  destruct (num_sets =? 0); [done|]. f_equal.
  unfold fermi_hash, fermi_bit.
  rewrite !H by (unfold fermi_positions; set_solver). done.
Qed.

Lemma fermi_reads_eleven_bits_witness :
  line_addr_to_set 5 640 32 16384 = line_addr_to_set (5 + 512 + 2048 + 8192) 0 32 0.
Proof.
  apply (fermi_reads_eleven_bits 5 (5 + 512 + 2048 + 8192)); [lia|lia|].
  intros i Hi. unfold fermi_positions in Hi.
  repeat (apply elem_of_cons in Hi as [->|Hi]; [reflexivity|]).
  by apply elem_of_nil in Hi.
Defined.

(** ** A thread and its trace *)

Lemma foldl_append_access l : ∀ th,
  foldl (λ th a, Thread.append_access a th) th l
  = Thread.with_accesses (Thread.accesses th ++ l) th.
Proof.
  induction l as [|a l IH]; intros th; simpl.
  - rewrite app_nil_r. by destruct th.
  - rewrite IH. unfold Thread.append_access, Thread.with_accesses. simpl.
    by rewrite <- app_assoc.
Qed.

Lemma thread_of_eq trace : thread_of trace = Thread.mk INF INF 0 trace.
Proof. unfold thread_of. by rewrite foldl_append_access. Qed.

(** X8: A thread built from a trace of fewer than 2^32 accesses hands
    out its [k]-th access at program counter [k] and steps to [k + 1]; it
    is done exactly at the end of the trace, where [schedule] fails. *)
Theorem schedule_walks_trace trace k a :
  trace !! k = Some a → vsize trace < 2 ^ 32 →
  Thread.schedule (Thread.with_pc (Z.of_nat k) (thread_of trace))
  = Some (a, Thread.with_pc (Z.of_nat k + 1) (thread_of trace))
  ∧ Thread.is_done (Thread.with_pc (Z.of_nat k) (thread_of trace)) = false
  ∧ Thread.is_done (Thread.with_pc (vsize trace) (thread_of trace)) = true
  ∧ Thread.schedule (Thread.with_pc (vsize trace) (thread_of trace)) = None.
Proof.
  intros Hk Hlen. rewrite thread_of_eq. unfold vsize in *.
  pose proof (lookup_lt_Some _ _ _ Hk) as Hlt.
  unfold Thread.schedule, Thread.is_done, Thread.with_pc, vsize. simpl.
  split; [|split; [|split]].
  - rewrite (u32_small (Z.of_nat k + 1)) by lia.
    replace (Z.of_nat k + 1 - 1) with (Z.of_nat k) by lia.
    rewrite u32_small by lia. unfold vget.
    replace (Z.of_nat k <? 0) with false by (symmetry; apply Z.ltb_ge; lia).
    by rewrite Nat2Z.id, Hk.
  - apply Z.eqb_neq. lia.
  - apply Z.eqb_refl.
  - destruct (Z.eq_dec (Z.of_nat (length trace) + 1) (2 ^ 32)) as [E|E].
    + rewrite E. change (u32 (u32 (2 ^ 32) - 1)) with (2 ^ 32 - 1). unfold vget.
      change (2 ^ 32 - 1 <? 0) with false.
      rewrite lookup_ge_None_2; [done|]. lia.
    + rewrite (u32_small (_ + 1)) by lia.
      replace (Z.of_nat (length trace) + 1 - 1) with (Z.of_nat (length trace)) by lia.
      rewrite u32_small by lia. unfold vget.
      replace (Z.of_nat (length trace) <? 0) with false by (symmetry; apply Z.ltb_ge; lia).
      rewrite lookup_ge_None_2; [done|]. lia.
Qed.

Lemma schedule_walks_trace_witness :
  let trace := [read 0 4; read 128 4; read 256 8] in
  Thread.schedule (Thread.with_pc (Z.of_nat 1) (thread_of trace))
  = Some (read 128 4, Thread.with_pc (Z.of_nat 1 + 1) (thread_of trace))
  ∧ Thread.is_done (Thread.with_pc (Z.of_nat 1) (thread_of trace)) = false
  ∧ Thread.is_done (Thread.with_pc (vsize trace) (thread_of trace)) = true
  ∧ Thread.schedule (Thread.with_pc (vsize trace) (thread_of trace)) = None.
Proof.
  intros trace. apply (schedule_walks_trace trace 1 (read 128 4)); [reflexivity|].
  vm_compute. reflexivity.
Defined.

(** ** Warps in flight *)

Lemma release_ready m x : x ∈ (Pool.release m).1 ↔ (x, 0) ∈ m.
Proof.
  induction m as [|[k v] m IH]; simpl.
  - split; intros H; by apply elem_of_nil in H.
  - destruct (Pool.release m) as [ready rest] eqn:E. simpl in IH.
    destruct (v =? 0) eqn:Ev; simpl.
    + apply Z.eqb_eq in Ev. subst v. rewrite !elem_of_cons, IH.
      split; (intros [H|H]; [left; congruence|by right]).
    + apply Z.eqb_neq in Ev. rewrite elem_of_cons, IH.
      split; [by right|intros [H|H]; [congruence|done]].
Qed.

Lemma release_rest m x v' :
  (x, v') ∈ (Pool.release m).2 ↔ ∃ v, (x, v) ∈ m ∧ v ≠ 0 ∧ v' = u32 (v - 1).
Proof.
  induction m as [|[k v] m IH]; simpl.
  - split; [intros H; by apply elem_of_nil in H|intros (v & H & _); by apply elem_of_nil in H].
  - destruct (Pool.release m) as [ready rest] eqn:E. simpl in IH.
    destruct (v =? 0) eqn:Ev; simpl.
    + apply Z.eqb_eq in Ev. subst v. rewrite IH.
      split; intros (v0 & H & Hne & Hv); exists v0.
      * split; [by apply elem_of_cons; right|done].
      * apply elem_of_cons in H as [H|H]; [congruence|done].
    + apply Z.eqb_neq in Ev. rewrite elem_of_cons, IH. split.
      * intros [H|(v0 & H & Hne & Hv)].
        -- injection H as -> ->. exists v. split; [by apply elem_of_cons; left|done].
        -- exists v0. split; [by apply elem_of_cons; right|done].
      * intros (v0 & H & Hne & Hv). apply elem_of_cons in H as [H|H].
        -- left. injection H as -> ->. by rewrite Hv.
        -- right. eauto.
Qed.

Lemma in_flight_assign_elem k d m x v :
  k ∉ m.*1 →
  (x, v) ∈ Pool.in_flight_assign k d m ↔ (x, v) = (k, d) ∨ (x, v) ∈ m.
Proof.
  induction m as [|[k' v'] m IH]; intros Hk; simpl.
  - rewrite list_elem_of_singleton. split; [auto|intros [?|H]; [done|by apply elem_of_nil in H]].
  - rewrite fmap_cons, not_elem_of_cons in Hk. destruct Hk as [Hne Hk]. simpl in Hne.
    destruct (k <? k') eqn:E1.
    + by rewrite elem_of_cons.
    + replace (k =? k') with false by (symmetry; apply Z.eqb_neq; lia).
      rewrite !elem_of_cons, IH by done. tauto.
Qed.

Lemma waiting_step w d k p :
  0 < d < 2 ^ 32 → (k < Z.to_nat d)%nat →
  waiting w d k p → waiting w d (S k) (Pool.process_warps_in_flight p).
Proof.
  intros Hd Hk (Hw & Hin & Huniq). unfold Pool.process_warps_in_flight.
  destruct (Pool.release (Pool.in_flight p)) as [ready rest] eqn:E.
  pose proof (release_ready (Pool.in_flight p) w) as Hr.
  pose proof (release_rest (Pool.in_flight p) w) as Hs. rewrite E in Hr, Hs. simpl in Hr, Hs.
  unfold waiting. simpl. split; [|split].
  - rewrite elem_of_app. intros [?|H]; [done|].
    apply Hr, Huniq in H. lia.
  - apply Hs. exists (d - Z.of_nat k). split; [done|]. split; [lia|].
    rewrite u32_small by lia. lia.
  - intros v H. apply Hs in H as (v0 & H & ? & ->). apply Huniq in H. subst v0.
    rewrite u32_small by lia. lia.
Qed.

Lemma waiting_iter w d k p :
  0 < d < 2 ^ 32 → (k ≤ Z.to_nat d)%nat →
  waiting w d 0 p → waiting w d k (Nat.iter k Pool.process_warps_in_flight p).
Proof.
  intros Hd. induction k as [|k IH]; intros Hk H0; [done|].
  simpl. apply waiting_step; [done|lia|]. apply IH; [lia|done].
Qed.

(** X9: A warp put in flight with a delay [0 < d < 2^32] stays out of
    the ready list during the first [d] calls of
    [process_warps_in_flight] and is in it after call [d + 1]. *)
Theorem warp_returns_after_delay p w d k :
  0 < d < 2 ^ 32 → w ∉ (Pool.in_flight p).*1 → w ∉ Pool.warps p → (k ≤ Z.to_nat d)%nat →
  (w ∉ Pool.warps (Nat.iter k Pool.process_warps_in_flight (Pool.add_warp w d p)))
  ∧ w ∈ Pool.warps (Nat.iter (S (Z.to_nat d)) Pool.process_warps_in_flight
                       (Pool.add_warp w d p)).
Proof.
  intros Hd Hf Hw Hk.
  assert (H0 : waiting w d 0 (Pool.add_warp w d p)).
  { unfold Pool.add_warp. replace (d =? 0) with false by (symmetry; apply Z.eqb_neq; lia).
    unfold waiting. simpl. rewrite Z.sub_0_r. split; [done|]. split.
    - apply in_flight_assign_elem; auto.
    - intros v H. apply in_flight_assign_elem in H; [|done].
      destruct H as [H|H]; [by injection H|].
      exfalso. apply Hf. apply list_elem_of_fmap. by exists (w, v). }
  split.
  - by apply (waiting_iter w d k _ Hd Hk H0).
  - destruct (waiting_iter w d (Z.to_nat d) _ Hd (le_n _) H0) as (_ & Hin & _).
    rewrite Z2Nat.id, Z.sub_diag in Hin by lia.
    change (Nat.iter (S (Z.to_nat d)) Pool.process_warps_in_flight (Pool.add_warp w d p))
      with (Pool.process_warps_in_flight
              (Nat.iter (Z.to_nat d) Pool.process_warps_in_flight (Pool.add_warp w d p))).
    set (q := Nat.iter _ _ _) in *.
    pose proof (release_ready (Pool.in_flight q) w) as Hr.
    unfold Pool.process_warps_in_flight.
    destruct (Pool.release _) as [ready rest]. simpl in *.
    apply elem_of_app. right. by apply Hr.
Qed.

Lemma warp_returns_after_delay_witness :
  (7 ∉ Pool.warps (Nat.iter 2 Pool.process_warps_in_flight
                     (Pool.add_warp 7 3 (Pool.mk [1] [(2, 5)] 3 0))))
  ∧ 7 ∈ Pool.warps (Nat.iter (S (Z.to_nat 3)) Pool.process_warps_in_flight
                      (Pool.add_warp 7 3 (Pool.mk [1] [(2, 5)] 3 0))).
Proof.
  apply (warp_returns_after_delay (Pool.mk [1] [(2, 5)] 3 0) 7 3 2).
  - lia.
  - simpl. intros H. apply list_elem_of_singleton in H. discriminate.
  - simpl. intros H. apply list_elem_of_singleton in H. discriminate.
  - simpl. lia.
Defined.

(** ** The order of the request book *)

(** X10: A request added for time [t] comes out of [get_requests t] last,
    after those already queued for [t]; other times are not affected;
    [has_requests t] holds after the [add] and no longer after the
    [get_requests]. *)
Theorem requests_first_in_first_out r a t s t' :
  t' ≠ t →
  (Requests.get_requests t (Requests.add a t s r)).1
  = (Requests.get_requests t r).1 ++ [mkRequest a s]
  ∧ (Requests.get_requests t' (Requests.add a t s r)).1 = (Requests.get_requests t' r).1
  ∧ (Requests.has_requests t (Requests.add a t s r)).1 = true
  ∧ (Requests.has_requests t (Requests.get_requests t (Requests.add a t s r)).2).1 = false.
Proof.
  intros Ht. unfold Requests.get_requests, Requests.has_requests, Requests.add. simpl.
  rewrite lookup_insert_eq, lookup_insert_ne, lookup_delete_eq by done. simpl.
  split; [done|]. split; [done|]. split; [|done].
  unfold vsize. rewrite length_app. simpl. apply Z.ltb_lt. lia.
Qed.

Lemma requests_first_in_first_out_witness :
  (Requests.get_requests 10 (Requests.add 7 10 3 (Requests.add 5 10 3 Requests.new))).1
  = (Requests.get_requests 10 (Requests.add 5 10 3 Requests.new)).1 ++ [mkRequest 7 3]
  ∧ (Requests.get_requests 11 (Requests.add 7 10 3 (Requests.add 5 10 3 Requests.new))).1
    = (Requests.get_requests 11 (Requests.add 5 10 3 Requests.new)).1
  ∧ (Requests.has_requests 10 (Requests.add 7 10 3 (Requests.add 5 10 3 Requests.new))).1 = true
  ∧ (Requests.has_requests 10
       (Requests.get_requests 10
          (Requests.add 7 10 3 (Requests.add 5 10 3 Requests.new))).2).1 = false.
Proof. apply (requests_first_in_first_out (Requests.add 5 10 3 Requests.new) 7 10 3 11). lia. Defined.

(** X11: [get_num_requests] counts distinct addresses modulo 2^32: an
    [add] raises it by one exactly when the address, truncated to
    [unsigned], is not yet in [unique_requests], and a second [add] of an
    address that differs by a multiple of 2^32 leaves it as it is. *)
Theorem add_counts_distinct_addresses r a t s k t' s' :
  Requests.get_num_requests (Requests.add a t s r)
  = (if decide (u32 a ∈ Requests.unique_requests r) then Requests.get_num_requests r
     else u32 (Requests.get_num_requests r + 1))
  ∧ Requests.get_num_requests (Requests.add (a + 2 ^ 32 * k) t' s' (Requests.add a t s r))
    = Requests.get_num_requests (Requests.add a t s r).
Proof.
  assert (Hadd : ∀ x tx sx q, Requests.get_num_requests (Requests.add x tx sx q)
    = if decide (u32 x ∈ Requests.unique_requests q) then Requests.get_num_requests q
      else u32 (Requests.get_num_requests q + 1)).
  { intros x tx sx q. unfold Requests.get_num_requests, Requests.add. simpl.
    destruct (decide (u32 x ∈ Requests.unique_requests q)) as [Hin|Hnin].
    - by rewrite subseteq_union_1_L by (by apply singleton_subseteq_l).
    - rewrite size_union by (by apply disjoint_singleton_l).
      rewrite size_singleton, u32_add_idemp. f_equal. lia. }
  assert (E : u32 (a + 2 ^ 32 * k) = u32 a).
  { unfold u32. rewrite Z.mul_comm. apply Z_mod_plus_full. }
  split; [apply Hadd|]. rewrite Hadd.
  destruct (decide _) as [|Hn]; [done|]. exfalso. apply Hn.
  unfold Requests.add. simpl. rewrite E. apply elem_of_union_l. by apply elem_of_singleton.
Qed.

(** ** The hierarchy that the scheduler builds *)

Lemma push_at_Some v i x v' :
  push_at v i x = Some v' →
  0 ≤ i ∧ ∃ w, v !! Z.to_nat i = Some w ∧ v' = <[Z.to_nat i := w ++ [x]]> v.
Proof.
  unfold push_at. destruct (vget v i) as [w|] eqn:E; simpl; [|done].
  intros H. apply vset_Some in H as (? & -> & _). apply vget_Some in E as [_ E]. eauto.
Qed.

(** A loop of [push_back]s files every element under its index, in the
    order of the loop. *)
Lemma foldM_push_at (g : Z → Z) l : ∀ v v',
  foldM (λ v x, push_at v (g x) x) l v = Some v' →
  length v' = length v
  ∧ ∀ j w, v !! j = Some w → v' !! j = Some (w ++ filter (λ x, g x = Z.of_nat j) l).
Proof.
  induction l as [|x l IH]; intros v v'.
  - intros [= <-]. split; [done|]. intros j w H. by rewrite app_nil_r.
  - rewrite foldM_cons. destruct (push_at v (g x) x) as [v1|] eqn:E; [|done].
    cbn [mbind option_bind]. intros H. apply IH in H as [Hlen H].
    apply push_at_Some in E as (Hi & wi & Hwi & ->).
    rewrite length_insert in Hlen. split; [done|]. intros j w Hj.
    destruct (decide (g x = Z.of_nat j)) as [Ej|Ej].
    + rewrite filter_cons_True by done.
      assert (Z.to_nat (g x) = j) as Ej' by lia. rewrite Ej' in *.
      rewrite Hj in Hwi. injection Hwi as <-.
      rewrite (H j (w ++ [x])); [by rewrite <- app_assoc|].
      apply list_lookup_insert_eq. by apply lookup_lt_Some in Hj.
    + rewrite filter_cons_False by done. apply H.
      rewrite list_lookup_insert_ne; [done|]. lia.
Qed.

Lemma assign_warps_spec hw bs n l : ∀ ths warps ths' warps',
  NoDup l →
  foldM (assign_warp hw bs n) l (ths, warps) = Some (ths', warps') →
  foldM (λ v x, push_at v (warp_of hw bs n x) x) l warps = Some warps'
  ∧ length ths' = length ths
  ∧ ∀ i th, ths !! i = Some th →
      ths' !! i = Some (if decide (Z.of_nat i ∈ l)
                        then Thread.mk (warp_of hw bs n (Z.of_nat i)) (Thread.blockid th)
                               (Thread.pc th) (Thread.accesses th)
                        else th).
Proof.
  induction l as [|x l IH]; intros ths warps ths' warps' Hnd.
  - intros [= <- <-]. split; [done|]. split; [done|]. intros i th H.
    destruct (decide _) as [Hin|]; [by apply elem_of_nil in Hin|done].
  - apply list.NoDup_cons in Hnd as [Hx Hnd]. rewrite !foldM_cons.
    destruct (assign_warp hw bs n (ths, warps) x) as [[t1 w1]|] eqn:E; [|done].
    cbn [mbind option_bind]. intros H. apply IH in H as (Hw & Hlen & Ht); [|done].
    unfold assign_warp in E. destruct (_ || _); [done|].
    destruct (vget ths x) as [thx|] eqn:Ex; simpl in E; [|done].
    unfold Thread.set_warp in E. destruct (Thread.warpid thx =? INF); simpl in E; [|done].
    destruct (vset ths x _) as [ths1|] eqn:E1; simpl in E; [|done].
    fold (warp_of hw bs n x) in E, E1.
    destruct (push_at warps (warp_of hw bs n x) x) as [w2|] eqn:E2; simpl in E; [|done].
    injection E as <- <-. cbn [mbind option_bind]. split; [done|].
    apply vset_Some in E1 as (Hx0 & -> & _). apply vget_Some in Ex as [_ Ex].
    rewrite length_insert in Hlen. split; [done|].
    intros i th Hi. destruct (decide (Z.of_nat i = x)) as [<-|Hne].
    + rewrite Nat2Z.id in *. rewrite Hi in Ex. injection Ex as <-.
      rewrite (Ht i (Thread.mk (warp_of hw bs n (Z.of_nat i)) (Thread.blockid th)
                       (Thread.pc th) (Thread.accesses th))).
      * rewrite decide_False by done. rewrite decide_True by (by left). done.
      * apply list_lookup_insert_eq. by apply lookup_lt_Some in Hi.
    + rewrite (Ht i th) by (rewrite list_lookup_insert_ne; [done|lia]).
      destruct (decide (Z.of_nat i ∈ l)) as [Hin|Hnin].
      * rewrite decide_True; [done|by right].
      * rewrite decide_False; [done|]. rewrite elem_of_cons. tauto.
Qed.

Lemma assign_blocks_spec n l : ∀ blocks blocks',
  foldM (assign_block n) l blocks = Some blocks' →
  foldM (λ v x, push_at v (x / n) x) l blocks = Some blocks'.
Proof.
  induction l as [|x l IH]; intros blocks blocks'; [done|].
  rewrite !foldM_cons.
  change (assign_block n blocks x) with (if n =? 0 then None else push_at blocks (x / n) x).
  destruct (n =? 0); [done|].
  destruct (push_at blocks (x / n) x) as [b1|]; [|done]. apply IH.
Qed.

Lemma assign_cores_spec hw l : ∀ cores cores',
  foldM (assign_core hw) l cores = Some cores' →
  foldM (λ v x, push_at v (x mod num_cores hw) x) l cores = Some cores'.
Proof.
  induction l as [|x l IH]; intros cores cores'; [done|].
  rewrite !foldM_cons.
  change (assign_core hw cores x)
    with (if num_cores hw =? 0 then None else push_at cores (x mod num_cores hw) x).
  destruct (num_cores hw =? 0); [done|].
  destruct (push_at cores (x mod num_cores hw) x) as [b1|]; [|done]. apply IH.
Qed.

(** The parts of a successful run of the scheduler. *)
Lemma schedule_threads_Some hw bs ths warps blocks cores ths' warps' blocks' cores' :
  schedule_threads hw bs ths warps blocks cores = Some (ths', warps', blocks', cores') →
  ∃ c ths1,
    ceil_fdiv bs (warp_size hw) = Some c
    ∧ foldM (assign_warp hw bs (u32 c)) (seqZ 0 (vsize ths)) (ths, warps) = Some (ths1, warps')
    ∧ foldM (assign_block (u32 c)) (seqZ 0 (vsize warps')) blocks = Some blocks'
    ∧ foldM (assign_core hw) (seqZ 0 (vsize blocks')) cores = Some cores'
    ∧ foldM (coalesce_warp hw) warps' ths1 = Some ths'.
Proof.
  unfold schedule_threads.
  destruct (ceil_fdiv bs (warp_size hw)) as [c|]; cbn [mbind option_bind]; [|done].
  destruct (foldM (assign_warp _ _ _) _ _) as [[ths1 warps1]|] eqn:E1;
    cbn [mbind option_bind]; [|done].
  destruct (foldM (assign_block _) _ _) as [blocks1|] eqn:E2; cbn [mbind option_bind]; [|done].
  destruct (foldM (assign_core _) _ _) as [cores1|] eqn:E3; cbn [mbind option_bind]; [|done].
  destruct (foldM (coalesce_warp _) _ _) as [ths2|] eqn:E4; cbn [mbind option_bind]; [|done].
  intros [= <- <- <- <-]. by exists c, ths1.
Qed.

(** X12: When [schedule_threads] returns, thread [tid] has the warp id
    [(tid % blocksize) / warp_size + (tid / blocksize) * num_warps_per_block]
    (in [unsigned] arithmetic), and every warp has gained, in increasing
    order, exactly the threads with its id; no warp is added or removed. *)
Theorem threads_grouped_into_warps hw bs ths warps blocks cores ths' warps' blocks' cores'
    c tid th' wid w0 :
  schedule_threads hw bs ths warps blocks cores = Some (ths', warps', blocks', cores') →
  ceil_fdiv bs (warp_size hw) = Some c →
  ths' !! tid = Some th' →
  warps !! wid = Some w0 →
  Thread.warpid th' = warp_of hw bs (u32 c) (Z.of_nat tid)
  ∧ warps' !! wid
    = Some (w0 ++ filter (λ t, warp_of hw bs (u32 c) t = Z.of_nat wid) (seqZ 0 (vsize ths)))
  ∧ length warps' = length warps.
Proof.
  intros H Hc Hth Hw.
  apply schedule_threads_Some in H as (c' & ths1 & Hc' & H1 & _ & _ & H4).
  rewrite Hc in Hc'. injection Hc' as <-.
  apply assign_warps_spec in H1 as (Hw1 & Hlen1 & Ht1); [|apply NoDup_seqZ].
  apply foldM_push_at in Hw1 as [Hlen Hw1].
  apply coalesce_warps_warpid in H4.
  split; [|split; [by apply Hw1|done]].
  assert (Hlt : (tid < length ths)%nat).
  { apply lookup_lt_Some in Hth.
    by rewrite <- (length_fmap Thread.warpid), H4, length_fmap, Hlen1 in Hth. }
  destruct (lookup_lt_is_Some_2 ths tid Hlt) as [th Hth0].
  specialize (Ht1 tid th Hth0).
  rewrite decide_True in Ht1 by (apply elem_of_seqZ; unfold vsize; lia).
  assert (Hw' : (Thread.warpid <$> ths') !! tid = (Thread.warpid <$> ths1) !! tid)
    by (by rewrite H4).
  rewrite !list_lookup_fmap, Hth, Ht1 in Hw'. simpl in Hw'. congruence.
Qed.

Lemma threads_grouped_into_warps_witness :
  ∃ ths' th', 
    schedule_threads small_cache 2
      [thread_of [read 0 4]; thread_of [read 4 4]; thread_of [read 8 4]]
      [[]; []] [[]; []] [[]]
    = Some (ths', [[0; 1]; [2]], [[0]; [1]], [[0; 1]])
    ∧ ths' !! 2%nat = Some th'
    ∧ Thread.warpid th' = warp_of small_cache 2 (u32 1) (Z.of_nat 2)
    ∧ [[0; 1]; [2]] !! 1%nat
      = Some ([] ++ filter (λ t, warp_of small_cache 2 (u32 1) t = Z.of_nat 1)
                      (seqZ 0 (vsize [thread_of [read 0 4]; thread_of [read 4 4];
                                       thread_of [read 8 4]])))
    ∧ length [[0; 1]; [2]] = length [[]; [] : list Z].
Proof.
  eexists _, _. split; [by vm_compute|]. split; [reflexivity|].
  eapply (threads_grouped_into_warps small_cache 2
           [thread_of [read 0 4]; thread_of [read 4 4]; thread_of [read 8 4]]
           [[]; []] [[]; []] [[]] _ [[0; 1]; [2]] [[0]; [1]] [[0; 1]] 1 2 _ 1 []).
  - by vm_compute.
  - by vm_compute.
  - reflexivity.
  - reflexivity.
Defined.

(** X13: When [schedule_threads] returns, block [bid] has gained, in
    increasing order, the warps [w] with [w / num_warps_per_block = bid],
    and core [cid] the blocks [b] with [b % num_cores = cid]; no block or
    core is added or removed. *)
Theorem warps_grouped_into_blocks_and_cores hw bs ths warps blocks cores
    ths' warps' blocks' cores' c bid b0 cid c0 :
  schedule_threads hw bs ths warps blocks cores = Some (ths', warps', blocks', cores') →
  ceil_fdiv bs (warp_size hw) = Some c →
  blocks !! bid = Some b0 →
  cores !! cid = Some c0 →
  blocks' !! bid
  = Some (b0 ++ filter (λ w, w / u32 c = Z.of_nat bid) (seqZ 0 (vsize warps)))
  ∧ cores' !! cid
    = Some (c0 ++ filter (λ b, b mod num_cores hw = Z.of_nat cid) (seqZ 0 (vsize blocks)))
  ∧ length blocks' = length blocks ∧ length cores' = length cores.
Proof.
  intros H Hc Hb Hk.
  apply schedule_threads_Some in H as (c' & ths1 & Hc' & H1 & H2 & H3 & _).
  rewrite Hc in Hc'. injection Hc' as <-.
  apply assign_warps_spec in H1 as (Hw1 & _ & _); [|apply NoDup_seqZ].
  apply foldM_push_at in Hw1 as [Hlenw _].
  apply assign_blocks_spec, foldM_push_at in H2 as [Hlenb H2].
  apply assign_cores_spec, foldM_push_at in H3 as [Hlenc H3].
  unfold vsize in *. rewrite Hlenw in H2. rewrite Hlenb in H3. auto.
Qed.

Lemma warps_grouped_into_blocks_and_cores_witness :
  ∃ ths',
    schedule_threads small_cache 2
      [thread_of [read 0 4]; thread_of [read 4 4]; thread_of [read 8 4]]
      [[]; []] [[]; []] [[]]
    = Some (ths', [[0; 1]; [2]], [[0]; [1]], [[0; 1]])
    ∧ [[0]; [1]] !! 1%nat
      = Some ([] ++ filter (λ w, w / u32 1 = Z.of_nat 1) (seqZ 0 (vsize [[]; [] : list Z])))
    ∧ [[0; 1]] !! 0%nat
      = Some ([] ++ filter (λ b, b mod num_cores small_cache = Z.of_nat 0)
                      (seqZ 0 (vsize [[]; [] : list Z])))
    ∧ length [[0]; [1]] = length [[]; [] : list Z]
    ∧ length [[0; 1]] = length [[] : list Z].
Proof.
  eexists. split; [by vm_compute|].
  eapply (warps_grouped_into_blocks_and_cores small_cache 2
           [thread_of [read 0 4]; thread_of [read 4 4]; thread_of [read 8 4]]
           [[]; []] [[]; []] [[]] _ [[0; 1]; [2]] [[0]; [1]] [[0; 1]] 1 1 [] 0 []).
  - by vm_compute.
  - by vm_compute.
  - reflexivity.
  - reflexivity.
Defined.

(** ** What coalescing leaves alone *)

Lemma upd_access_trace f tid access ths ths' :
  (∀ a, request_of (f a) = request_of a) →
  upd_access f tid access ths = Some ths' →
  trace_of <$> ths' = trace_of <$> ths.
Proof.
  unfold upd_access. intros Hf H.
  destruct (vget ths tid) as [th|] eqn:E1; simpl in H; [|done].
  destruct (vget (Thread.accesses th) access) as [a|] eqn:E2; simpl in H; [|done].
  destruct (vset (Thread.accesses th) access (f a)) as [l|] eqn:E3; simpl in H; [|done].
  apply vset_Some in H as (? & -> & _). apply vset_Some in E3 as (? & -> & _).
  apply vget_Some in E1 as [_ E1]. apply vget_Some in E2 as [_ E2].
  rewrite list_fmap_insert. apply list_insert_id.
  rewrite list_lookup_fmap, E1. simpl. f_equal. unfold trace_of. simpl. f_equal.
  rewrite list_fmap_insert. symmetry. apply list_insert_id.
  by rewrite list_lookup_fmap, E2, Hf.
Qed.

Lemma coalesce_scan_trace hw warp access tid line olds : ∀ ths r,
  coalesce_scan hw warp access tid line olds ths = Some (Some r) →
  trace_of <$> r = trace_of <$> ths.
Proof.
  induction olds as [|o olds IH]; intros ths r; simpl; [done|].
  destruct (vget warp o) as [old_tid|]; simpl; [|done].
  destruct (get_access old_tid access ths) as [old_a|]; simpl; [|done].
  destruct (line =? _); [|by apply IH].
  destruct (upd_access (set_width 0) tid access ths) as [t1|] eqn:E1; simpl; [|done].
  destruct (get_access tid access t1) as [this_a|]; simpl; [|done].
  destruct (get_access old_tid access t1) as [old_a1|]; simpl; [|done].
  apply upd_access_trace in E1; [|done].
  destruct (negb _).
  - destruct (upd_access _ old_tid access t1) as [t2|] eqn:E2; simpl; [|done].
    destruct (upd_access _ old_tid access t2) as [t3|] eqn:E3; simpl; [|done].
    apply upd_access_trace in E2; [|done]. apply upd_access_trace in E3; [|done].
    intros [= <-]. congruence.
  - intros [= <-]. done.
Qed.

Lemma coalesce_thread_trace hw warp access ths done tnum ths' done' :
  coalesce_thread hw warp access (ths, done) tnum = Some (ths', done') →
  trace_of <$> ths' = trace_of <$> ths.
Proof.
  unfold coalesce_thread.
  destruct (vget warp tnum) as [tid|]; simpl; [|done].
  destruct (vget ths tid) as [th|]; simpl; [|done].
  destruct (access <? _).
  - destruct (vget (Thread.accesses th) access) as [a|]; simpl; [|done].
    destruct (_ || _); [done|].
    destruct (coalesce_scan _ _ _ _ _ _ _) as [[r|]|] eqn:E; simpl; [| |done].
    + intros [= <- <-]. by apply coalesce_scan_trace in E.
    + by intros [= <- <-].
  - destruct (access =? _); by intros [= <- <-].
Qed.

Lemma coalesce_columns_trace hw fuel warp : ∀ access done ths ths',
  coalesce_columns hw fuel warp access done ths = Some ths' →
  trace_of <$> ths' = trace_of <$> ths.
Proof.
  induction fuel as [|fuel IH]; intros access done ths ths'; simpl.
  - destruct (done <? _); [done|]. by intros [= <-].
  - destruct (done <? _); [|by intros [= <-]].
    destruct (foldM _ _ _) as [[ths1 done1]|] eqn:E; simpl; [|done].
    intros H. apply IH in H. rewrite H.
    apply (foldM_invariant _ (λ st, trace_of <$> st.1 = trace_of <$> ths)) in E;
      [done| |done].
    intros [t1 d1] x [t2 d2] _ Hinv Hstep. simpl in *.
    apply coalesce_thread_trace in Hstep. congruence.
Qed.

Lemma coalesce_warps_trace hw warps ths ths' :
  foldM (coalesce_warp hw) warps ths = Some ths' →
  trace_of <$> ths' = trace_of <$> ths.
Proof.
  apply (foldM_invariant _ (λ st, trace_of <$> st = trace_of <$> ths)); [|done].
  intros t1 w t2 _ Hinv Hstep. unfold coalesce_warp in Hstep.
  apply coalesce_columns_trace in Hstep. congruence.
Qed.

Lemma assign_warps_trace hw bs n ths warps ths' warps' :
  foldM (assign_warp hw bs n) (seqZ 0 (vsize ths)) (ths, warps) = Some (ths', warps') →
  trace_of <$> ths' = trace_of <$> ths.
Proof.
  intros H. apply assign_warps_spec in H as (_ & Hlen & H); [|apply NoDup_seqZ].
  apply list_eq. intros i. rewrite !list_lookup_fmap.
  destruct (ths !! i) as [th|] eqn:E.
  - rewrite (H i th E). by destruct (decide _).
  - rewrite lookup_ge_None_2; [done|]. apply lookup_ge_None_1 in E. lia.
Qed.

(** X14: Coalescing changes widths and end addresses only: when
    [schedule_threads] returns, every thread has its block id, its
    program counter and, access for access, the directions, addresses and
    byte counts it had before. *)
Theorem schedule_threads_keeps_traces hw bs ths warps blocks cores ths' warps' blocks' cores' :
  schedule_threads hw bs ths warps blocks cores = Some (ths', warps', blocks', cores') →
  trace_of <$> ths' = trace_of <$> ths.
Proof.
  intros H. apply schedule_threads_Some in H as (c & ths1 & _ & H1 & _ & _ & H4).
  apply assign_warps_trace in H1. apply coalesce_warps_trace in H4. congruence.
Qed.

Lemma schedule_threads_keeps_traces_witness :
  ∃ ths',
    schedule_threads small_cache 32 [thread_of [read 0 4; read 256 8]; thread_of [read 4 4; read 260 8]]
      [[]] [[]] [[]] = Some (ths', [[0; 1]], [[0]], [[0]])
    ∧ trace_of <$> ths'
      = trace_of <$> [thread_of [read 0 4; read 256 8]; thread_of [read 4 4; read 260 8]].
Proof.
  eexists. split; [by vm_compute|].
  eapply (schedule_threads_keeps_traces small_cache 32 _ [[]] [[]] [[]] _ [[0; 1]] [[0]] [[0]]).
  by vm_compute.
Defined.

(** ** Warps of threads with traces of different lengths *)






Section Divergence.

Variable hw : Settings.
Variable warp : list Z.
Variable T : list (Z * Z * list (Z * Z * Z)).


Variables tid0 tid1 : Z.
Variables tr0 tr1 : Z * Z * list (Z * Z * Z).
Hypothesis Hwarp0 : vget warp 0 = Some tid0.
Hypothesis Hwarp1 : vget warp 1 = Some tid1.
Hypothesis Htr0 : vget T tid0 = Some tr0.
Hypothesis Htr1 : vget T tid1 = Some tr1.
Hypothesis Hshort : vsize tr0.2 < vsize tr1.2.
Hypothesis Hlong : vsize tr1.2 < 2 ^ 32.
Hypothesis Hws : 8 ≤ warp_size hw.





End Divergence.



(** ** The per-set access counts *)

Lemma sum_of_replicate_0 n : sum_of id (replicate n 0) = 0.
Proof. induction n as [|n IH]; simpl; [done|]. by rewrite IH. Qed.

Lemma u32_eq_add a b c : u32 a = u32 b → u32 (a + c) = u32 (b + c).
Proof. intros H. by rewrite <- (u32_add_idemp a), H, u32_add_idemp. Qed.

Lemma sum_u32_total l : sum_u32 l = u32 (sum_of id l).
Proof.
  unfold sum_u32. change 0 with (u32 0) at 1.
  assert (H : ∀ a, foldl (λ acc x, u32 (acc + x)) (u32 a) l = u32 (a + sum_of id l));
    [|by rewrite H].
  induction l as [|x l IH]; intros a; simpl.
  - by rewrite Z.add_0_r.
  - rewrite u32_add_idemp, IH. f_equal. unfold id. lia.
Qed.

Lemma incr_at_total v i v' :
  incr_at v i = Some v' → u32 (sum_of id v') = u32 (sum_of id v + 1).
Proof.
  unfold incr_at. destruct (vget v i) as [x|] eqn:E; simpl; [|done].
  intros H. apply vset_Some in H as (_ & -> & _). apply vget_Some in E as [_ E].
  rewrite (sum_of_insert id _ _ x) by done. unfold id.
  replace (sum_of (λ y, y) v - x + u32 (x + 1)) with (u32 (x + 1) + (sum_of (λ y, y) v - x)) by lia.
  rewrite u32_add_idemp. f_equal. lia.
Qed.

Lemma schedule_pending th a th' :
  0 ≤ Thread.pc th < 2 ^ 32 → vsize (Thread.accesses th) < 2 ^ 32 →
  Thread.schedule th = Some (a, th') →
  pending th = a :: pending th'
  ∧ Thread.pc th' = Thread.pc th + 1 ∧ Thread.accesses th' = Thread.accesses th
  ∧ Thread.pc th < vsize (Thread.accesses th).
Proof.
  intros Hpc Hlen. unfold Thread.schedule.
  destruct (vget _ _) as [a'|] eqn:E; simpl; [|done]. intros [= -> <-].
  apply vget_Some in E as [_ E]. pose proof (lookup_lt_Some _ _ _ E) as Hlt.
  unfold vsize in *.
  assert (Hidx : u32 (u32 (Thread.pc th + 1) - 1) = Thread.pc th).
  { unfold u32. rewrite Zminus_mod_idemp_l.
    replace (Thread.pc th + 1 - 1) with (Thread.pc th) by lia. apply Z.mod_small. lia. }
  rewrite Hidx in E, Hlt.
  assert (Hpc' : u32 (Thread.pc th + 1) = Thread.pc th + 1) by (apply u32_small; lia).
  unfold pending. simpl. rewrite Hpc'.
  split; [|split; [done|split; [done|lia]]].
  replace (Z.to_nat (Thread.pc th + 1)) with (S (Z.to_nat (Thread.pc th))) by lia.
  by apply drop_S.
Qed.

Section PhaseOne.

Variable hardware : Settings.
Variables cache_sets cache_ways : Z.

Lemma count_thread_total fuel : ∀ th n n',
  0 ≤ Thread.pc th < 2 ^ 32 → vsize (Thread.accesses th) < 2 ^ 32 →
  count_thread hardware cache_sets cache_ways fuel th n = Some n' →
  u32 (sum_of id n') = u32 (sum_of id n + sum_of (weight hardware) (pending th)).
Proof.
  assert (Hdone : ∀ th, Thread.is_done th = true → pending th = []).
  { intros th H. unfold Thread.is_done in H. apply Z.eqb_eq in H.
    unfold pending. apply drop_ge. unfold vsize in H. lia. }
  induction fuel as [|fuel IH]; intros th n n' Hpc Hlen; cbn [count_thread].
  - destruct (Thread.is_done th) eqn:Ed; [|intros H; discriminate H]. intros [= <-].
    rewrite Hdone by exact Ed. cbn [sum_of foldr]. f_equal. lia.
  - destruct (Thread.is_done th) eqn:Ed.
    { intros [= <-]. rewrite Hdone by exact Ed. cbn [sum_of foldr]. f_equal. lia. }
    destruct (Thread.schedule th) as [[a th']|] eqn:Es; cbn [mbind option_bind];
      [|intros H; discriminate H].
    apply schedule_pending in Es as (Hp & Hpc' & Hacc & Hlt); [|exact Hpc|exact Hlen].
    rewrite Hp.
    change (sum_of (weight hardware) (a :: pending th'))
      with (weight hardware a + sum_of (weight hardware) (pending th')).
    assert (Hpc1 : 0 ≤ Thread.pc th' < 2 ^ 32) by lia.
    assert (Hlen1 : vsize (Thread.accesses th') < 2 ^ 32) by (rewrite Hacc; exact Hlen).
    specialize (λ m, IH th' m n' Hpc1 Hlen1).
    unfold weight at 1.
    destruct (width a =? 0); cbn [negb].
    { intros H. rewrite (IH _ H). reflexivity. }
    unfold line_of. destruct (line_size hardware =? 0); cbn [mbind option_bind];
      [intros H; discriminate H|].
    destruct (set_of hardware cache_sets cache_ways (address a / line_size hardware)
                (address a)) as [set|]; cbn [mbind option_bind]; [|intros H; discriminate H].
    destruct (incr_at n set) as [n1|] eqn:E1; cbn [mbind option_bind];
      [|intros H; discriminate H].
    apply incr_at_total in E1.
    destruct (address a / line_size hardware =? end_address a / line_size hardware);
      cbn [negb].
    + intros H. rewrite (IH _ H).
      rewrite (u32_eq_add _ _ _ E1). f_equal. lia.
    + destruct (set_of hardware cache_sets cache_ways (end_address a / line_size hardware)
                  (end_address a)) as [set2|]; cbn [mbind option_bind];
        [|intros H; discriminate H].
      destruct (incr_at n1 set2) as [n2|] eqn:E2; cbn [mbind option_bind];
        [|intros H; discriminate H].
      apply incr_at_total in E2.
      intros H. rewrite (IH _ H). rewrite (u32_eq_add _ _ _ E2).
      rewrite <- Z.add_assoc, (u32_eq_add _ _ _ E1). f_equal. lia.
Qed.

Lemma count_threads_total ths : ∀ n n',
  Forall (λ th, 0 ≤ Thread.pc th < 2 ^ 32 ∧ vsize (Thread.accesses th) < 2 ^ 32) ths →
  foldM (λ n th, count_thread hardware cache_sets cache_ways
                   (length (Thread.accesses th)) th n) ths n = Some n' →
  u32 (sum_of id n')
  = u32 (sum_of id n + sum_of (λ th, sum_of (weight hardware) (pending th)) ths).
Proof.
  induction ths as [|th ths IH]; intros n n' Hall.
  - intros [= <-]. simpl. by rewrite Z.add_0_r.
  - apply list.Forall_cons in Hall as [[Hpc Hlen] Hall]. rewrite foldM_cons.
    destruct (count_thread _ _ _ _ th n) as [n1|] eqn:E; cbn [mbind option_bind]; [|done].
    apply count_thread_total in E; [|done|done].
    intros H. rewrite (IH _ _ Hall H). simpl.
    rewrite (u32_eq_add _ _ _ E). f_equal. lia.
Qed.

End PhaseOne.

(** X16: When [reuse_distance] returns, the grand total of phase 1 is, in
    [unsigned] arithmetic, the number of cache lines that the accesses
    not yet scheduled ask for: none for an access of width 0, one for an
    access within a line and two for an access whose last byte is on
    another line. *)
Theorem grand_total_counts_lines
    core blocks warps active_blocks hardware cache_sets cache_ways mem_latency
    non_mem_latency num_mshr noise fuel ths d ths' d' grand_total distances_total :
  Forall (λ th, 0 ≤ Thread.pc th < 2 ^ 32 ∧ vsize (Thread.accesses th) < 2 ^ 32) ths →
  reuse_distance core blocks warps active_blocks hardware cache_sets cache_ways
    mem_latency non_mem_latency num_mshr noise fuel ths d
  = Some (ths', d', grand_total, distances_total) →
  grand_total = u32 (sum_of (λ th, sum_of (weight hardware) (pending th)) ths).
Proof.
  intros Hall. unfold reuse_distance, run_windows, init.
  destruct (count_accesses _ _ _ _) as [n|] eqn:E; cbn [mbind option_bind]; [|done].
  destruct (mapM _ _) as [B|]; cbn [mbind option_bind]; [|done].
  destruct (num_windows _ _) as [w|]; cbn [mbind option_bind]; [|done].
  destruct (foldM _ _ _) as [st|]; cbn [mbind option_bind]; [|done].
  intros [= _ _ <- _]. rewrite sum_u32_total.
  unfold count_accesses in E. apply count_threads_total in E; [|done].
  by rewrite sum_of_replicate_0 in E.
Qed.

Lemma grand_total_counts_lines_witness :
  2 = u32 (sum_of (λ th, sum_of (weight small_cache) (pending th))
             [Thread.mk 0 INF 0 [read 120 16]]).
Proof.
  apply (grand_total_counts_lines [0] [[0]] [[0]] 1 small_cache 1 4 3 0 1 no_noise 10
           [Thread.mk 0 INF 0 [read 120 16]] ∅
           [Thread.mk 0 INF 0 [read 120 16]] {[INF := 1]} 2 1).
  - repeat constructor; vm_compute; congruence.
  - by vm_compute.
Defined.

(** ** The report *)

Lemma histogram_total_insert d first second :
  d !! first = None →
  histogram_total (<[first := second]> d) = u32 (histogram_total d + second).
Proof.
  intros Hd. unfold histogram_total.
  rewrite (map_fold_insert_L (λ _ freq acc, u32 (acc + freq))); [done| |done].
  intros. apply u32_add_swap.
Qed.

(** Run 0 puts every entry of its histogram in exactly one of the three
    tallies. *)
Lemma classify_run_partition hw d :
  u32 (compulsory (classify_run hw 0 d 0) + capacity (classify_run hw 0 d 0)
       + hits (classify_run hw 0 d 0))
  = histogram_total d.
Proof.
  unfold classify_run.
  apply (map_fold_weak_ind
           (λ r m, u32 (compulsory r + capacity r + hits r) = histogram_total m)).
  - done.
  - intros j x m r Hj IH. rewrite histogram_total_insert by done. rewrite <- IH.
    rewrite u32_add_idemp. unfold classify. change (0 =? 0) with true.
    destruct (j =? INF); [|destruct (ways_of_run hw 0 <? j)]; cbn [compulsory capacity hits].
    + replace (u32 (compulsory r + x) + capacity r + hits r)
        with (u32 (compulsory r + x) + (capacity r + hits r)) by lia.
      rewrite u32_add_idemp. f_equal. lia.
    + replace (compulsory r + u32 (capacity r + x) + hits r)
        with (u32 (capacity r + x) + (compulsory r + hits r)) by lia.
      rewrite u32_add_idemp. f_equal. lia.
    + replace (compulsory r + capacity r + u32 (hits r + x))
        with (u32 (hits r + x) + (compulsory r + capacity r)) by lia.
      rewrite u32_add_idemp. f_equal. lia.
Qed.

(** X17: The reported total of accesses is the sum of the frequencies of
    the first histogram (in [unsigned] arithmetic): every entry is a
    compulsory miss, a capacity miss or a hit; it is also the reported
    misses plus the reported hits. *)
Theorem total_accesses_is_histogram_sum d0 d1 d2 d3 hw r :
  output_miss_rate [d0; d1; d2; d3] hw = Some r →
  total_accesses r = histogram_total d0
  ∧ total_accesses r = u32 (total_misses r + out_hits r)
  ∧ out_hits r = hits (classify_run hw 0 d0 0).
Proof.
  unfold output_miss_rate. simpl. intros [= <-].
  rewrite (classify_run_hits hw 3 d3) by done.
  rewrite (classify_run_hits hw 2 d2) by done.
  rewrite (classify_run_hits hw 1 d1) by done.
  unfold decompose. cbn [total_accesses total_misses out_hits compulsory capacity hits].
  destruct (_ <? 0); [destruct (_ <? _); [|destruct (_ <? _)]|];
    cbn [total_accesses total_misses out_hits]; (split; [|done]);
    rewrite u32_add_idemp; apply classify_run_partition.
Qed.

Lemma total_accesses_is_histogram_sum_witness :
  ∃ r, output_miss_rate [{[INF := 2; 1 := 3; 9 := 1]}; ∅; ∅; ∅] small_cache = Some r
       ∧ total_accesses r = histogram_total {[INF := 2; 1 := 3; 9 := 1]}
       ∧ total_accesses r = u32 (total_misses r + out_hits r)
       ∧ out_hits r = hits (classify_run small_cache 0 {[INF := 2; 1 := 3; 9 := 1]} 0).
Proof.
  eexists. split; [reflexivity|].
  apply (total_accesses_is_histogram_sum _ ∅ ∅ ∅ small_cache). reflexivity.
Defined.

Lemma to_int_small x : - 2 ^ 31 ≤ x < 2 ^ 31 → to_int x = x.
Proof.
  intros H. unfold to_int, u32.
  destruct (Z.lt_ge_cases x 0) as [Hneg|Hpos].
  - replace (x mod 2 ^ 32) with (x + 2 ^ 32).
    + replace (x + 2 ^ 32 <? 2 ^ 31) with false by (symmetry; apply Z.ltb_ge; lia). lia.
    + apply Z.mod_unique with (-1); lia.
  - rewrite Z.mod_small by lia.
    replace (x <? 2 ^ 31) with true by (symmetry; apply Z.ltb_lt; lia). done.
Qed.

(** X18: With tallies below 2^28 the reported capacity, associativity,
    latency and MSHR parts are not negative, and when [rest] is not
    negative the five parts add up to the total of misses; when [rest]
    is negative they exceed it, by at least [-rest] and at most twice
    that. *)
Theorem decomposition_adds_up t0 t1 t2 t3 :
  Forall (λ t, 0 ≤ compulsory t < 2 ^ 28 ∧ 0 ≤ capacity t < 2 ^ 28) [t0; t1; t2; t3] →
  let r := decompose t0 t1 t2 t3 in
  let parts := out_compulsory r + out_capacity r + out_associativity r
               + out_latency r + out_mshr r in
  0 ≤ out_capacity r ∧ 0 ≤ out_associativity r ∧ 0 ≤ out_latency r ∧ 0 ≤ out_mshr r
  ∧ if rest r <? 0 then total_misses r - rest r ≤ parts ≤ total_misses r - 2 * rest r
    else parts = total_misses r.
Proof.
  intros H. cbv zeta.
  apply list.Forall_cons in H as [[Hc0 Hp0] H]. apply list.Forall_cons in H as [[Hc1 Hp1] H].
  apply list.Forall_cons in H as [[Hc2 Hp2] H]. apply list.Forall_cons in H as [[Hc3 Hp3] _].
  unfold decompose.
  rewrite !(u32_small (compulsory _ + capacity _)) by lia.
  set (m0 := compulsory t0 + capacity t0). set (m1 := compulsory t1 + capacity t1).
  set (m2 := compulsory t2 + capacity t2). set (m3 := compulsory t3 + capacity t3).
  rewrite (to_int_small (m0 - m1)), (to_int_small (compulsory t0 - compulsory t2)),
    (to_int_small (m0 - m3)) by (unfold m0, m1, m3; lia).
  set (A := m0 - m1). set (L := compulsory t0 - compulsory t2). set (M := m0 - m3).
  rewrite (to_int_small (m0 - _)) by (unfold A, L, M, m0, m1, m3; lia).
  set (R := m0 - (compulsory t2 + Z.max 0 L + Z.max 0 A + Z.max 0 M)).
  assert (HR : - 2 ^ 31 < R < 2 ^ 31) by (unfold R, A, L, M, m0, m1, m3; lia).
  rewrite (u32_small (Z.max 0 R)) by lia.
  assert (Hproj : ∀ a b c d e f g h i j k l,
            rest (mkReport a b c d e f g h i j k l) = l) by done.
  destruct (R <? 0) eqn:ER.
  - apply Z.ltb_lt in ER.
    destruct (- R <? M) eqn:E1; [|destruct (- R <? L) eqn:E2].
    + apply Z.ltb_lt in E1. rewrite (to_int_small (M - R)) by (unfold M, m0, m3 in *; lia).
      cbn [out_compulsory out_capacity out_associativity out_latency out_mshr
           total_misses rest].
      replace (R <? 0) with true by (symmetry; apply Z.ltb_lt; lia).
      unfold R in *. lia.
    + apply Z.ltb_lt in E2. rewrite (to_int_small (L - R)) by (unfold L in *; lia).
      cbn [out_compulsory out_capacity out_associativity out_latency out_mshr
           total_misses rest].
      replace (R <? 0) with true by (symmetry; apply Z.ltb_lt; lia).
      unfold R in *. lia.
    + rewrite (to_int_small (A - R)) by (unfold A, m0, m1 in *; lia).
      cbn [out_compulsory out_capacity out_associativity out_latency out_mshr
           total_misses rest].
      replace (R <? 0) with true by (symmetry; apply Z.ltb_lt; lia).
      apply Z.ltb_ge in E1, E2. unfold R in *. lia.
  - cbn [out_compulsory out_capacity out_associativity out_latency out_mshr
         total_misses rest].
    rewrite ER. apply Z.ltb_ge in ER. unfold R in *. lia.
Qed.

Lemma decomposition_adds_up_witness :
  let r := decompose (mkTally 10 5 0) (mkTally 2 0 0) (mkTally 10 5 0) (mkTally 1 0 0) in
  let parts := out_compulsory r + out_capacity r + out_associativity r
               + out_latency r + out_mshr r in
  0 ≤ out_capacity r ∧ 0 ≤ out_associativity r ∧ 0 ≤ out_latency r ∧ 0 ≤ out_mshr r
  ∧ if rest r <? 0 then total_misses r - rest r ≤ parts ≤ total_misses r - 2 * rest r
    else parts = total_misses r.
Proof.
  apply (decomposition_adds_up (mkTally 10 5 0) (mkTally 2 0 0) (mkTally 10 5 0)
           (mkTally 1 0 0)).
  repeat constructor; simpl; lia.
Defined.

(** ** Completed requests *)

Lemma complete_request_spec set P B c request P' B' c' counter :
  complete_request set (P, B, c) request = Some (P', B', c') →
  vget c set = Some counter →
  P' = <[addr request := counter]> P
  ∧ c' = <[Z.to_nat set := u32 (counter + 1)]> c
  ∧ length B' = length B
  ∧ vget c' set = Some (u32 (counter + 1)).
Proof.
  unfold complete_request. intros H Hc.
  destruct (if mget P (addr request) =? 0 then _ else _) as [B1|] eqn:EB;
    cbn [mbind option_bind] in H; [|done].
  rewrite Hc in H. cbn [mbind option_bind] in H.
  destruct (vget B1 set) as [tree|]; cbn [mbind option_bind] in H; [|done].
  destruct (vset B1 set _) as [B2|] eqn:E2; cbn [mbind option_bind] in H; [|done].
  destruct (vset c set _) as [c2|] eqn:E3; cbn [mbind option_bind] in H; [|done].
  injection H as <- <- <-.
  apply vset_Some in E2 as (_ & -> & _). apply vset_Some in E3 as (_ & -> & _).
  split; [done|]. split; [done|]. split.
  - rewrite length_insert. destruct (mget P (addr request) =? 0).
    + by injection EB as <-.
    + destruct (vget B set) as [t0|]; cbn [mbind option_bind] in EB; [|done].
      apply vset_Some in EB as (_ & -> & _). by rewrite length_insert.
  - by eapply vget_insert_eq.
Qed.

Lemma complete_requests_spec set reqs : ∀ P B c P' B' c' counter,
  foldM (complete_request set) reqs (P, B, c) = Some (P', B', c') →
  vget c set = Some counter →
  vget c' set = Some (if decide (reqs = []) then counter
                      else u32 (counter + Z.of_nat (length reqs)))
  ∧ (∀ s, s ≠ set → vget c' s = vget c s)
  ∧ length B' = length B
  ∧ (∀ a, Forall (λ x, addr x ≠ a) reqs → P' !! a = P !! a)
  ∧ ∀ k x, reqs !! k = Some x →
      Forall (λ y, addr y ≠ addr x) (drop (S k) reqs) →
      P' !! addr x = Some (if decide (k = 0%nat) then counter
                           else u32 (counter + Z.of_nat k)).
Proof.
  induction reqs as [|request reqs IH]; intros P B c P' B' c' counter.
  - intros [= <- <- <-] Hc. rewrite decide_True by done. repeat split; try done.
  - rewrite foldM_cons.
    destruct (complete_request set (P, B, c) request) as [[[P1 B1] c1]|] eqn:E;
      cbn [mbind option_bind]; [|done].
    intros H Hc. pose proof (vget_Some _ _ _ Hc) as [Hset _].
    apply complete_request_spec with (counter := counter) in E as (-> & -> & Hlen & Hc1);
      [|done].
    destruct (IH _ _ _ _ _ _ _ H Hc1) as (Hc' & Hother & HlenB & HP & Hk).
    rewrite decide_False by done.
    split; [|split; [|split; [|split]]].
    + rewrite Hc'. f_equal. destruct (decide (reqs = [])) as [->|]; simpl.
      * done.
      * rewrite u32_add_idemp. f_equal. lia.
    + intros s Hs. rewrite Hother by done. unfold vget. destruct (s <? 0) eqn:E0; [done|].
      apply Z.ltb_ge in E0. apply list_lookup_insert_ne. lia.
    + congruence.
    + intros a Ha. apply list.Forall_cons in Ha as [Ha1 Ha]. rewrite HP by done.
      by rewrite lookup_insert_ne.
    + intros [|k] x Hx Hlater; simpl in Hx, Hlater.
      * injection Hx as ->. rewrite HP by done. by rewrite lookup_insert_eq.
      * rewrite (Hk k x Hx Hlater). f_equal. destruct (decide (k = 0%nat)) as [->|].
        -- reflexivity.
        -- rewrite decide_False by done. rewrite u32_add_idemp. f_equal. lia.
Qed.

(** X19: [process_requests] hands out consecutive stamps: the set's
    counter advances by the number of requests completed, the [k]-th
    completed request's line is stamped with the counter plus [k] (unless
    a later request of the same batch overwrites it), the number of stack
    trees is unchanged and the time's queue is empty afterwards. *)
Theorem process_requests_stamps_in_order r t set P B c r' P' B' c' counter k x :
  process_requests r t set P B c = Some (r', (P', B', c')) →
  vget c set = Some counter →
  (Requests.get_requests t r).1 !! k = Some x →
  Forall (λ y, addr y ≠ addr x) (drop (S k) (Requests.get_requests t r).1) →
  vget c' set
  = Some (u32 (counter + Z.of_nat (length (Requests.get_requests t r).1)))
  ∧ P' !! addr x = Some (if decide (k = 0%nat) then counter else u32 (counter + Z.of_nat k))
  ∧ length B' = length B
  ∧ (Requests.has_requests t r').1 = false.
Proof.
  unfold process_requests, Requests.has_requests, Requests.get_requests. simpl.
  intros H Hc Hx Hlater.
  assert (Hcur : default [] (Requests.request_list (Requests.touch t r) !! t)
                 = default [] (Requests.request_list r !! t)).
  { unfold Requests.touch. destruct (Requests.request_list r !! t) eqn:E; [by rewrite E|].
    simpl. by rewrite lookup_insert_eq. }
  rewrite Hcur in H.
  set (reqs := default [] (Requests.request_list r !! t)) in *.
  assert (Hne : reqs ≠ []) by (intros E; by rewrite E in Hx).
  replace (0 <? vsize reqs) with true in H.
  2:{ symmetry. apply Z.ltb_lt. unfold vsize. destruct reqs; [done|]. simpl. lia. }
  destruct (foldM _ _ _) as [[[P1 B1] c1]|] eqn:E; cbn [mbind option_bind] in H; [|done].
  injection H as <- <- <- <-.
  destruct (complete_requests_spec _ _ _ _ _ _ _ _ _ E Hc) as (Hc' & _ & HlenB & _ & Hk).
  rewrite decide_False in Hc' by done.
  split; [done|]. split; [by apply Hk|]. split; [done|].
  simpl. by rewrite lookup_delete_eq.
Qed.

Lemma process_requests_stamps_in_order_witness :
  let r := Requests.add 9 5 0 (Requests.add 7 5 0 Requests.new) in
  ∃ r' P' B' c',
    process_requests r 5 0 ∅ [Leaf 0 0] [1] = Some (r', (P', B', c'))
    ∧ vget c' 0 = Some (u32 (1 + Z.of_nat (length (Requests.get_requests 5 r).1)))
    ∧ P' !! addr (mkRequest 9 0) = Some (if decide (1%nat = 0%nat) then 1
                                         else u32 (1 + Z.of_nat 1))
    ∧ length B' = length [Leaf 0 0]
    ∧ (Requests.has_requests 5 r').1 = false.
Proof.
  intros r. do 4 eexists. split; [by vm_compute|].
  eapply (process_requests_stamps_in_order r 5 0 ∅ [Leaf 0 0] [1] _ _ _ _ 1 1 (mkRequest 9 0)).
  - by vm_compute.
  - reflexivity.
  - reflexivity.
  - simpl. constructor.
Defined.

(** ** Properties that a run maintains *)

(** A property of the engine's state that does not depend on the stack,
    the request books, the pool and the clock, and that a thread's turn
    maintains, holds throughout the windows. *)
Section Lifting.

Variable core : list Z.
Variables blocks warps : list (list Z).
Variable active_blocks : Z.
Variable hardware : Settings.
Variables cache_sets cache_ways mem_latency non_mem_latency num_mshr : Z.
Variable noise : nat → Z.
Variable I : State → Prop.

Hypothesis I_step : ∀ nmr tnum tid st mft td brk st' mft' td',
  I st →
  thread_step hardware cache_sets cache_ways mem_latency non_mem_latency num_mshr noise
    nmr tnum tid st mft td = Some (brk, st', mft', td') →
  I st'.
Hypothesis I_stack : ∀ st p b c, I st → I (with_stack p b c st).
Hypothesis I_hit : ∀ st x, I st → I (with_requests_hit x st).
Hypothesis I_miss : ∀ st x, I st → I (with_requests_miss x st).
Hypothesis I_pool : ∀ st x, I st → I (with_pool x st).
Hypothesis I_time : ∀ st x, I st → I (with_timestamp x st).

Lemma lift_threads_loop nmr warp tnums : ∀ st mft td st' mft' td',
  I st →
  threads_loop hardware cache_sets cache_ways mem_latency non_mem_latency num_mshr noise
    nmr warp tnums st mft td = Some (st', mft', td') →
  I st'.
Proof.
  induction tnums as [|tnum tnums IH]; intros st mft td st' mft' td' Hinv.
  - by intros [= <- <- <-].
  - cbn [threads_loop].
    destruct (vget warp tnum) as [tid|]; cbn [mbind option_bind]; [|done].
    destruct (thread_step _ _ _ _ _ _ _ nmr tnum tid st mft td)
      as [[[[brk st1] mft1] td1]|] eqn:E; cbn [mbind option_bind]; [|done].
    apply I_step in E; [|done].
    destruct brk; [by intros [= <- <- <-]|]. by apply IH.
Qed.

Lemma lift_drain st st' : I st → drain cache_sets st = Some st' → I st'.
Proof.
  intros H. unfold drain. apply (foldM_invariant drain_set I); [|done].
  intros s1 set s2 _ H1. unfold drain_set.
  destruct (vget (requests_hit s1) set) as [rh|]; cbn [mbind option_bind]; [|done].
  destruct (process_requests rh _ _ _ _ _) as [[rh' [[P1 B1] c1]]|];
    cbn [mbind option_bind]; [|done].
  destruct (vset (requests_hit s1) set rh') as [hits'|]; cbn [mbind option_bind]; [|done].
  destruct (vget (requests_miss s1) set) as [rm|]; cbn [mbind option_bind]; [|done].
  destruct (process_requests rm _ _ _ _ _) as [[rm' [[P2 B2] c2]]|];
    cbn [mbind option_bind]; [|done].
  destruct (vset (requests_miss s1) set rm') as [misses'|]; cbn [mbind option_bind]; [|done].
  intros [= <-]. by apply I_miss, I_hit, I_stack.
Qed.

Lemma lift_warp_step nmr wnum st st' :
  I st →
  warp_step warps hardware cache_sets cache_ways mem_latency non_mem_latency num_mshr
    noise nmr wnum st = Some st' →
  I st'.
Proof.
  intros Hinv. unfold warp_step.
  destruct (vget warps wnum) as [warp|]; cbn [mbind option_bind]; [|done].
  destruct (vget warp 0) as [first|]; cbn [mbind option_bind]; [|done].
  destruct (vget (threads st) first) as [th|]; cbn [mbind option_bind]; [|done].
  destruct (Thread.get_bytes th) as [bytes|]; cbn [mbind option_bind]; [|done].
  destruct (foldM _ _ _) as [[[st1 mft1] td1]|] eqn:E; cbn [mbind option_bind]; [|done].
  apply (foldM_invariant _ (λ acc, I acc.1.1)) in E; [| |done].
  - simpl in E. destruct (td1 =? vsize warp); intros [= <-]; by apply I_pool.
  - intros [[s1 m1] t1] wp [[s2 m2] t2] _ H1. simpl in *. unfold portion_step.
    destruct (threads_loop _ _ _ _ _ _ _ _ _ _ _ _ _) as [[[s3 mft3] td3]|] eqn:E3;
      cbn [mbind option_bind]; [|done].
    apply lift_threads_loop in E3; [|done].
    destruct (drain cache_sets s3) as [s4|] eqn:Ed; cbn [mbind option_bind]; [|done].
    intros [= <- <- <-]. by eapply lift_drain.
Qed.

Lemma lift_tick st st' :
  I st →
  tick warps hardware cache_sets cache_ways mem_latency non_mem_latency num_mshr noise st
    = Some st' →
  I st'.
Proof.
  intros Hinv. unfold tick.
  destruct (if Pool.has_work (pool st) then _ else _) as [st1|] eqn:E1;
    cbn [mbind option_bind]; [|done].
  assert (I st1).
  { destruct (Pool.has_work (pool st)); [|by injection E1 as <-].
    destruct (Pool.take_warp (pool st)) as [[wnum pool']|];
      cbn [mbind option_bind] in E1; [|done].
    eapply lift_warp_step; [|done]. by apply I_pool. }
  destruct (drain cache_sets st1) as [st2|] eqn:Ed; cbn [mbind option_bind]; [|done].
  intros [= <-]. apply I_time, I_pool. by eapply lift_drain.
Qed.

Lemma lift_run_pool fuel : ∀ st st',
  I st →
  run_pool warps hardware cache_sets cache_ways mem_latency non_mem_latency num_mshr noise
    fuel st = Some st' →
  I st'.
Proof.
  induction fuel as [|fuel IH]; intros st st' Hinv; [done|].
  cbn [run_pool].
  destruct (Pool.is_done (pool st)) as [finished|]; cbn [mbind option_bind]; [|done].
  destruct finished; [by intros [= <-]|].
  destruct (tick _ _ _ _ _ _ _ _ st) as [st1|] eqn:E; cbn [mbind option_bind]; [|done].
  apply IH. by eapply lift_tick.
Qed.

Lemma lift_windows fuel ths d st grand_total :
  (∀ st0 g, init hardware cache_sets cache_ways ths d = Some (st0, g) → I st0) →
  run_windows core blocks warps active_blocks hardware cache_sets cache_ways mem_latency
    non_mem_latency num_mshr noise fuel ths d = Some (st, grand_total) →
  I st.
Proof.
  intros Hinit. unfold run_windows.
  destruct (init _ _ _ _ _) as [[st0 g]|] eqn:E0; cbn [mbind option_bind]; [|done].
  destruct (num_windows _ _) as [n|]; cbn [mbind option_bind]; [|done].
  destruct (foldM _ _ _) as [st1|] eqn:E; cbn [mbind option_bind]; [|done].
  intros [= <- <-]. specialize (Hinit st0 g eq_refl).
  apply (foldM_invariant _ I) in E; [done| |done].
  clear E. intros s1 snum s2 _ H1. unfold run_window.
  destruct (open_window _ _ _ _ _ _) as [s3|] eqn:Eo; cbn [mbind option_bind]; [|done].
  apply lift_run_pool. revert Eo. unfold open_window.
  destruct (foldM _ _ _) as [p|]; cbn [mbind option_bind]; [|done].
  intros [= <-]. by apply I_hit, I_miss, I_pool.
Qed.

End Lifting.

(** *** The threads after a run *)

Lemma thread_step_reset hw cs cw ml nml mshr noise nmr tnum tid st mft td brk st' mft' td' :
  thread_step hw cs cw ml nml mshr noise nmr tnum tid st mft td
  = Some (brk, st', mft', td') →
  Thread.reset <$> threads st' = Thread.reset <$> threads st.
Proof.
  unfold thread_step.
  destruct (vget (threads st) tid) as [th|] eqn:Eth; cbn [mbind option_bind]; [|done].
  apply vget_Some in Eth as [_ Eth].
  destruct (Thread.is_done th); [by intros [= <- <- <- <-]|].
  destruct (Thread.schedule th) as [[access th1]|] eqn:Es; cbn [mbind option_bind]; [|done].
  assert (Hr1 : Thread.reset th1 = Thread.reset th).
  { unfold Thread.schedule in Es. destruct (vget _ _); [|done]. by injection Es as _ <-. }
  destruct (vset (threads st) tid th1) as [threads1|] eqn:Ev; cbn [mbind option_bind]; [|done].
  apply vset_Some in Ev as (_ & -> & _).
  assert (Hins : ∀ x, Thread.reset x = Thread.reset th →
            Thread.reset <$> <[Z.to_nat tid := x]> (threads st) = Thread.reset <$> threads st).
  { intros x Hx. rewrite list_fmap_insert. apply list_insert_id.
    by rewrite list_lookup_fmap, Eth, Hx. }
  destruct (width access =? 0).
  { intros [= <- <- <- <-]. simpl. by apply Hins. }
  destruct (line_of hw (address access)) as [line_addr|]; cbn [mbind option_bind]; [|done].
  destruct (set_of _ _ _ _ _) as [set|]; cbn [mbind option_bind]; [|done].
  destruct (negb _); [done|].
  destruct (find_distance _ _ _) as [[distance P']|]; cbn [mbind option_bind]; [|done].
  destruct (is_miss cw distance).
  - destruct ((mshr <=? nmr) && (tnum =? 0)).
    + destruct (Thread.unschedule th1) as [th2|] eqn:Eu; cbn [mbind option_bind]; [|done].
      destruct (vset _ tid th2) as [threads2|] eqn:Ev2; cbn [mbind option_bind]; [|done].
      apply vset_Some in Ev2 as (_ & -> & _).
      intros [= <- <- <- <-]. simpl. rewrite list_insert_insert_eq. apply Hins.
      unfold Thread.unschedule in Eu. destruct (0 <? _); [|done]. injection Eu as <-.
      by rewrite <- Hr1.
    + destruct (add_request _ _ _ _) as [misses|]; cbn [mbind option_bind]; [|done].
      intros [= <- <- <- <-]. simpl. by apply Hins.
  - destruct (add_request _ _ _ _) as [hits|]; cbn [mbind option_bind]; [|done].
    intros [= <- <- <- <-]. simpl. by apply Hins.
Qed.

(** X20: [reuse_distance] hands the threads back with their program
    counters at 0 and nothing else changed. *)
Theorem reuse_distance_returns_threads
    core blocks warps active_blocks hardware cache_sets cache_ways mem_latency
    non_mem_latency num_mshr noise fuel ths d ths' d' grand_total distances_total :
  reuse_distance core blocks warps active_blocks hardware cache_sets cache_ways
    mem_latency non_mem_latency num_mshr noise fuel ths d
  = Some (ths', d', grand_total, distances_total) →
  ths' = Thread.reset <$> ths.
Proof.
  unfold reuse_distance.
  destruct (run_windows _ _ _ _ _ _ _ _ _ _ _ _ _ _) as [[st g]|] eqn:E;
    cbn [mbind option_bind]; [|done].
  intros [= <- _ _ _].
  apply (lift_windows _ _ _ _ _ _ _ _ _ _ _
           (λ st, Thread.reset <$> threads st = Thread.reset <$> ths)) in E; try done.
  - intros nmr tnum tid st0 mft td brk st' mft' td' H0 Hstep.
    apply thread_step_reset in Hstep. congruence.
  - intros st0 g0. unfold init.
    destruct (count_accesses _ _ _ _) as [n|]; cbn [mbind option_bind]; [|done].
    destruct (mapM _ _) as [B|]; cbn [mbind option_bind]; [|done].
    intros [= <- _]. simpl. rewrite <- list_fmap_compose. by apply list_fmap_ext.
Qed.

Lemma reuse_distance_returns_threads_witness :
  [Thread.mk 0 INF 0 [read 0 4]; Thread.mk 1 INF 0 [read 0 4]]
  = Thread.reset <$> [Thread.mk 0 INF 0 [read 0 4]; Thread.mk 1 INF 0 [read 0 4]].
Proof.
  apply (reuse_distance_returns_threads [0; 1] [[0]; [1]] [[0]; [1]] 2 small_cache
           1 4 3 0 64 no_noise 20 _ ∅ _ {[INF := 2]} 2 2).
  by vm_compute.
Defined.

(** ** The total of the histogram *)

Lemma histogram_total_u32 d : u32 (histogram_total d) = histogram_total d.
Proof.
  unfold histogram_total.
  apply (map_fold_weak_ind (λ r (m : gmap Z Z), u32 r = r)); [done|].
  intros j x m r _ _. apply u32_idemp.
Qed.

(** Every record adds one to the sum of the histogram. *)
Lemma histogram_total_record distance d :
  histogram_total (record_distance distance d) = u32 (histogram_total d + 1).
Proof.
  unfold record_distance, mget. destruct (d !! distance) as [v|] eqn:E; simpl.
  - rewrite <- insert_delete_eq.
    rewrite histogram_total_insert by apply lookup_delete_eq.
    rewrite <- (insert_delete_id d distance v E) at 2.
    rewrite histogram_total_insert by apply lookup_delete_eq.
    rewrite u32_add_idemp.
    replace (histogram_total (delete distance d) + u32 (v + 1))
      with (u32 (v + 1) + histogram_total (delete distance d)) by lia.
    rewrite u32_add_idemp. f_equal. lia.
  - by rewrite histogram_total_insert.
Qed.

Lemma recorded_step th a :
  0 ≤ Thread.pc th → vget (Thread.accesses th) (Thread.pc th) = Some a →
  recorded (Thread.with_pc (Thread.pc th + 1) th)
  = recorded th + (if width a =? 0 then 0 else 1).
Proof.
  intros Hpc Ha. apply vget_Some in Ha as [_ Ha]. unfold recorded. simpl.
  replace (Z.to_nat (Thread.pc th + 1)) with (S (Z.to_nat (Thread.pc th))) by lia.
  rewrite (take_S_r _ _ _ Ha), list.filter_app, length_app.
  destruct (width a =? 0) eqn:E.
  - apply Z.eqb_eq in E. rewrite (list.filter_cons_False _ a) by (by intros ?). simpl. lia.
  - apply Z.eqb_neq in E. rewrite (list.filter_cons_True _ a) by done. simpl. lia.
Qed.

Lemma tallied_step hw cs cw ml nml mshr noise h0 nmr tnum tid st mft td brk st' mft' td' :
  tallied h0 st →
  thread_step hw cs cw ml nml mshr noise nmr tnum tid st mft td
  = Some (brk, st', mft', td') →
  tallied h0 st'.
Proof.
  intros [Hall Hsum]. unfold thread_step.
  destruct (vget (threads st) tid) as [th|] eqn:Eth; cbn [mbind option_bind]; [|done].
  apply vget_Some in Eth as [_ Eth].
  destruct (Thread.is_done th); [by intros [= <- <- <- <-]|].
  destruct (Thread.schedule th) as [[access th1]|] eqn:Es; cbn [mbind option_bind]; [|done].
  pose proof (Forall_lookup_1 _ _ _ _ Hall Eth) as [Hpc Hlen]. simpl in Hpc, Hlen.
  destruct (schedule_step th access th1 ltac:(lia) Es) as (Hlt & Ha & Hth1).
  rewrite (u32_small (Thread.pc th + 1)) in Hth1 by lia.
  pose proof (recorded_step th access ltac:(lia) Ha) as Hrec.
  destruct (vset (threads st) tid th1) as [threads1|] eqn:Ev; cbn [mbind option_bind]; [|done].
  apply vset_Some in Ev as (_ & -> & _).
  assert (Hall1 : Forall (λ th, 0 ≤ Thread.pc th ≤ vsize (Thread.accesses th)
                                ∧ vsize (Thread.accesses th) < 2 ^ 32)
                    (<[Z.to_nat tid := th1]> (threads st))).
  { apply Forall_insert; [done|]. rewrite Hth1. simpl. lia. }
  assert (Hsum1 : sum_of recorded (<[Z.to_nat tid := th1]> (threads st))
                  = sum_of recorded (threads st) + (if width access =? 0 then 0 else 1)).
  { rewrite (sum_of_insert _ _ _ th) by done. rewrite Hth1, Hrec. lia. }
  destruct (width access =? 0) eqn:Ew.
  { intros [= <- <- <- <-]. split; [done|]. simpl. rewrite Hsum1, Z.add_0_r. done. }
  assert (Hrecd : ∀ distance,
            histogram_total (record_distance distance (distances st))
            = u32 (h0 + sum_of recorded (<[Z.to_nat tid := th1]> (threads st)))).
  { intros distance. rewrite histogram_total_record, Hsum, u32_add_idemp, Hsum1.
    f_equal. lia. }
  destruct (line_of hw (address access)) as [line_addr|]; cbn [mbind option_bind]; [|done].
  destruct (set_of _ _ _ _ _) as [set|]; cbn [mbind option_bind]; [|done].
  destruct (negb _); [done|].
  destruct (find_distance _ _ _) as [[distance P']|]; cbn [mbind option_bind]; [|done].
  destruct (is_miss cw distance).
  - destruct ((mshr <=? nmr) && (tnum =? 0)).
    + destruct (Thread.unschedule th1) as [th2|] eqn:Eu; cbn [mbind option_bind]; [|done].
      destruct (vset _ tid th2) as [threads2|] eqn:Ev2; cbn [mbind option_bind]; [|done].
      apply vset_Some in Ev2 as (_ & -> & _).
      intros [= <- <- <- <-]. simpl. rewrite list_insert_insert_eq.
      rewrite (unschedule_schedule th access th1) in Eu by (done || lia).
      injection Eu as <-. rewrite list_insert_id by done. done.
    + destruct (add_request _ _ _ _) as [misses|]; cbn [mbind option_bind]; [|done].
      intros [= <- <- <- <-]. split; [done|]. apply Hrecd.
  - destruct (add_request _ _ _ _) as [hits|]; cbn [mbind option_bind]; [|done].
    intros [= <- <- <- <-]. split; [done|]. apply Hrecd.
Qed.

(** X21: With fewer than 2^32 accesses per thread, the total of the
    histogram that [reuse_distance] compares with the grand total is, in
    [unsigned] arithmetic, the histogram's total at entry plus the number
    of accesses of non-zero width that the threads scheduled and kept
    (an access put back under MSHR pressure is recorded once, when it is
    finally scheduled); no program counter passes the end of its trace. *)
Theorem histogram_counts_scheduled_accesses
    core blocks warps active_blocks hardware cache_sets cache_ways mem_latency
    non_mem_latency num_mshr noise fuel ths d ths' d' grand_total distances_total :
  Forall (λ th, vsize (Thread.accesses th) < 2 ^ 32) ths →
  reuse_distance core blocks warps active_blocks hardware cache_sets cache_ways
    mem_latency non_mem_latency num_mshr noise fuel ths d
  = Some (ths', d', grand_total, distances_total) →
  ∃ st,
    run_windows core blocks warps active_blocks hardware cache_sets cache_ways
      mem_latency non_mem_latency num_mshr noise fuel ths d = Some (st, grand_total)
    ∧ d' = distances st
    ∧ distances_total = u32 (histogram_total d + sum_of recorded (threads st))
    ∧ Forall (λ th, 0 ≤ Thread.pc th ≤ vsize (Thread.accesses th)) (threads st).
Proof.
  intros Hlen. unfold reuse_distance.
  destruct (run_windows _ _ _ _ _ _ _ _ _ _ _ _ _ _) as [[st g]|] eqn:E;
    cbn [mbind option_bind]; [|done].
  intros [= <- <- <- <-]. exists st. split; [done|]. split; [done|].
  apply (lift_windows _ _ _ _ _ _ _ _ _ _ _ (tallied (histogram_total d))) in E; try done.
  - destruct E as [Hall Hsum]. split; [done|].
    eapply list.Forall_impl; [exact Hall|]. intros th [H _]. exact H.
  - intros nmr tnum tid st0 mft td brk st' mft' td'. apply tallied_step.
  - intros st0 g0. unfold init.
    destruct (count_accesses _ _ _ _) as [n|]; cbn [mbind option_bind]; [|done].
    destruct (mapM _ _) as [B|]; cbn [mbind option_bind]; [|done].
    intros [= <- _]. split; simpl.
    + apply Forall_fmap. eapply list.Forall_impl; [exact Hlen|].
      intros th H. unfold compose, Thread.reset. simpl in *.
      pose proof (vsize_nonneg (Thread.accesses th)). lia.
    + rewrite sum_of_fmap.
      assert (Hz : sum_of (λ x, recorded (Thread.reset x)) ths = 0).
      { clear. unfold sum_of. induction ths as [|th ths IH]; simpl; [done|]. exact IH. }
      by rewrite Hz, Z.add_0_r, histogram_total_u32.
Qed.

Lemma histogram_counts_scheduled_accesses_witness :
  let ths := [Thread.mk 0 INF 0 [read 120 16]] in
  ∃ st,
    run_windows [0] [[0]] [[0]] 1 small_cache 1 4 3 0 1 no_noise 10 ths ∅ = Some (st, 2)
    ∧ {[INF := 1]} = distances st
    ∧ 1 = u32 (histogram_total ∅ + sum_of recorded (threads st))
    ∧ Forall (λ th, 0 ≤ Thread.pc th ≤ vsize (Thread.accesses th)) (threads st).
Proof.
  intros ths.
  apply (histogram_counts_scheduled_accesses [0] [[0]] [[0]] 1 small_cache 1 4 3 0 1
           no_noise 10 ths ∅ ths {[INF := 1]} 2 1).
  - repeat constructor.
  - by vm_compute.
Defined.
